(** * git-reader: the coalescing cache, the process executor and the resolvers

    A shallow embedding of [lib/git-reader.js].  Node's event loop is
    modelled by explicit state passing: every JavaScript function that runs
    to completion inside one turn of the loop becomes a Rocq function from
    the instance state to a new state and the list of effects it issued
    (callbacks invoked, subprocesses spawned, reads and timers started).
    What the outside world does (a subprocess closing, a read completing, a
    timer firing, a caller calling) is an input of a step function.

    Strings are Rocq strings; [String.length] agrees with JavaScript's
    [.length] on the ASCII range, which is the range of hashes, ref names
    and the messages of git matched here. *)

From Stdlib Require Import ZArith String Ascii List Bool Lia.
From stdpp Require Import base gmap strings list.
Import ListNotations.

Local Open Scope Z_scope.

(** ** JavaScript values *)

Module JS.

(** The values that flow through callbacks of this library. *)
Inductive value :=
| VUndef
| VNull
| VBool (b : bool)
| VStr (s : string)
| VError (name message : string) (errno : option Z)
| VArr (l : list string)
| VDir (files dirs : list string).

(** [if (v)]: undefined, null, false and the empty string are falsy;
    objects (errors, arrays, also the empty array) are truthy. *)
Definition truthy (v : value) : bool :=
  match v with
  | VUndef | VNull | VBool false | VStr "" => false
  | _ => true
  end.

(** [new Error(message)] *)
Definition Error (message : string) : value := VError "Error" message None.

(** [a || b] *)
Definition or_else (a b : value) : value := if truthy a then a else b.

(** Conversion to a string, as [+] and [RegExp.prototype.test] apply it. *)
Definition to_string (v : value) : string :=
  match v with
  | VUndef => "undefined"
  | VNull => "null"
  | VBool true => "true"
  | VBool false => "false"
  | VStr s => s
  | VError name "" _ => name
  | VError name message _ => name +:+ ": " +:+ message
  | VArr l => String.concat "," l
  | VDir _ _ => "[object Object]"
  end.

(** An outcome of running a piece of code: it returns, or it throws. *)
Inductive outcome (A : Type) :=
| Returned (a : A)
| Threw (exn : value).
Arguments Returned {A} a.
Arguments Threw {A} exn.

(** Callbacks supplied by callers are opaque: they are named, and invoking
    one is an effect.  A callback is assumed to return without calling
    back into the library during the same turn. *)
Definition callback := nat.

(** The property names every object inherits from [Object.prototype]: a
    lookup of one of them in an object used as a map finds a function (an
    object for [__proto__]), not [undefined]. *)
Definition Object_prototype : list string :=
  ["constructor"; "toString"; "toLocaleString"; "valueOf";
   "hasOwnProperty"; "isPrototypeOf"; "propertyIsEnumerable";
   "__defineGetter__"; "__defineSetter__"; "__lookupGetter__";
   "__lookupSetter__"; "__proto__"].

Definition inherited (name : string) : bool :=
  existsb (String.eqb name) Object_prototype.

(** A slot that holds an array of waiting callbacks or [false]. *)
Inductive waiters :=
| QFalse
| QArr (l : list callback).

#[global] Instance value_eq_dec : EqDecision value.
Proof. solve_decision. Defined.

End JS.
Import JS.

(** ** The decorator [safe] (lines 75-129) *)

Module Safe.

(** [var CACHE_LIFE = [36300000, 100]], with slot 0 overwritten by 100
    when [process.env.NODE_ENV === 'test']. *)
Definition CACHE_LIFE (NODE_ENV : string) : Z * Z :=
  (if String.eqb NODE_ENV "test" then 100 else 36300000, 100).

(** The two objects closed over by one decorated function.  Their keys
    start with a valid version, so none is a property name inherited from
    [Object.prototype], and a finite map says what a lookup finds. *)
Record store := Store {
  cache : gmap string value;
  queue : gmap string waiters
}.

Definition empty : store := Store ∅ ∅.

Inductive effect :=
| Callback (cb : callback) (arguments : list value)
    (* cb(...) run synchronously *)
| NextTick (cb : callback) (key : string)
    (* process.nextTick(function () { callback(null, cache[key]); }) *)
| Apply (version : string) (args : list string)
    (* fn.apply(null, args), args ending in the completion closure
       that captured [version], [key] and [localQueue] *)
| SetTimeout (key : string) (ms : Z).
    (* setTimeout(function () { cache[key] = false; }, ms) *)

(** [args.join(':')] *)
Definition key_of (args : list string) : string := String.concat ":" args.

(** [version.length === 40 || version == 'fs'] *)
Definition valid_version (version : string) : bool :=
  (String.length version =? 40)%nat || String.eqb version "fs".

(** [if (cache[key])] *)
Definition cached (st : store) (key : string) : bool :=
  match cache st !! key with
  | Some v => truthy v
  | None => false
  end.

(** [if (queue[key])]: an array, also an empty one, is truthy. *)
Definition in_flight (st : store) (key : string) : bool :=
  match queue st !! key with
  | Some (QArr _) => true
  | _ => false
  end.

(** The function returned by [safe(fn)], called with [version], the other
    arguments [rest] and a trailing [callback]. *)
Definition wrapper (version : string) (rest : list string) (cb : callback)
    (st : store) : store * list effect :=
  let args := version :: rest in
  let key := key_of args in
  if negb (valid_version version) then
    (st, [Callback cb [Error ("Invalid version " +:+ version)]])
  else if cached st key then
    (st, [NextTick cb key])
  else
    match queue st !! key with
    | Some (QArr q) =>
        (Store (cache st) (<[key := QArr (q ++ [cb])]> (queue st)), [])
    | _ =>
        (Store (cache st) (<[key := QArr [cb]]> (queue st)),
         [Apply version args])
    end.

(** [while (localQueue.length > 0) { cb = localQueue.shift();
    cb.apply(null, arguments); }] *)
Fixpoint flush (localQueue : list callback) (arguments : list value)
    : list effect :=
  match localQueue with
  | [] => []
  | cb :: localQueue' => Callback cb arguments :: flush localQueue' arguments
  end.

(** The expiry delay chosen at line 114. *)
Definition ttl (NODE_ENV version : string) : Z :=
  if String.eqb version "fs" then snd (CACHE_LIFE NODE_ENV)
  else fst (CACHE_LIFE NODE_ENV).

(** The completion closure [function (err, value) {...}] created by the
    call that started the resolution; [version] and [key] are the
    variables it captured.  While the resolution is in flight [queue[key]]
    and the captured [localQueue] are the same array.  This is the one
    call of the closure by the operation when it completes, with waiters
    that return: a second call of the same closure, which finds the array
    it emptied, and a waiter that throws, which ends the loop before the
    queue is reset, are outside this definition. *)
Definition completion (NODE_ENV version key : string)
    (arguments : list value) (st : store) : store * list effect :=
  let value := nth 1 arguments VUndef in
  let localQueue :=
    match queue st !! key with
    | Some (QArr q) => q
    | _ => []
    end in
  let stored :=
    if truthy value
    then (<[key := value]> (cache st), [SetTimeout key (ttl NODE_ENV version)])
    else (cache st, []) in
  (Store (fst stored) (<[key := QFalse]> (queue st)),
   snd stored ++ flush localQueue arguments).

(** The timer body [cache[key] = false]. *)
Definition expire (key : string) (st : store) : store :=
  Store (<[key := VBool false]> (cache st)) (queue st).

(** The deferred body [callback(null, cache[key])]. *)
Definition deliver (cb : callback) (key : string) (st : store)
    : list effect :=
  [Callback cb [VNull; default VUndef (cache st !! key)]].

(** What can happen to a decorated function between two turns. *)
Inductive input :=
| Call (version : string) (rest : list string) (cb : callback)
| Done (version key : string) (arguments : list value)
| Expire (key : string)
| Tick (cb : callback) (key : string).

Definition step (NODE_ENV : string) (i : input) (st : store)
    : store * list effect :=
  match i with
  | Call version rest cb => wrapper version rest cb st
  | Done version key arguments => completion NODE_ENV version key arguments st
  | Expire key => (expire key st, [])
  | Tick cb key => (st, deliver cb key st)
  end.

Fixpoint run (NODE_ENV : string) (ins : list input) (st : store)
    : store * list effect :=
  match ins with
  | [] => (st, [])
  | i :: ins' =>
      let '(st1, e1) := step NODE_ENV i st in
      let '(st2, e2) := run NODE_ENV ins' st1 in
      (st2, e1 ++ e2)
  end.

(** Is this effect a call of the wrapped operation for [key]? *)
Definition is_apply (key : string) (e : effect) : bool :=
  match e with
  | Apply _ args => String.eqb (key_of args) key
  | _ => false
  end.

(** The callbacks of the valid calls for [key] among some inputs, in
    order of arrival. *)
Fixpoint callers (key : string) (ins : list input) : list callback :=
  match ins with
  | [] => []
  | Call version rest cb :: ins' =>
      if valid_version version && String.eqb (key_of (version :: rest)) key
      then cb :: callers key ins'
      else callers key ins'
  | _ :: ins' => callers key ins'
  end.

(** No completion for [key] among some inputs: the window in which the
    resolution for [key] is in flight. *)
Fixpoint no_done (key : string) (ins : list input) : bool :=
  match ins with
  | [] => true
  | Done _ key' _ :: ins' => negb (String.eqb key' key) && no_done key ins'
  | _ :: ins' => no_done key ins'
  end.

End Safe.

(** ** String helpers and the regular expressions written as literals *)

Module Str.

Definition nl : ascii := ascii_of_nat 10.
Definition cr : ascii := ascii_of_nat 13.
Definition newline : string := String nl "".

(** [s] without its prefix [p], when it has it. *)
Fixpoint strip_prefix (p s : string) : option string :=
  match p, s with
  | EmptyString, _ => Some s
  | String a p', String b s' =>
      if Ascii.eqb a b then strip_prefix p' s' else None
  | String _ _, EmptyString => None
  end.

Definition between (lo hi : nat) (c : ascii) : bool :=
  let n := nat_of_ascii c in ((lo <=? n) && (n <=? hi))%nat.

(** The class [[a-f0-9]] (also written [[0-9a-f]]). *)
Definition is_hex (c : ascii) : bool := between 48 57 c || between 97 102 c.

(** What [.] does not match. *)
Definition line_terminator (c : ascii) : bool :=
  Ascii.eqb c nl || Ascii.eqb c cr.

(** The class [[^']]. *)
Definition not_quote (c : ascii) : bool := negb (Ascii.eqb c "'"%char).

(** The longest prefix whose characters satisfy [f], and the rest. *)
Fixpoint span (f : ascii -> bool) (s : string) : string * string :=
  match s with
  | EmptyString => (EmptyString, EmptyString)
  | String c s' =>
      if f c then let '(a, b) := span f s' in (String c a, b)
      else (EmptyString, s)
  end.

(** Exactly [n] characters of the class [[a-f0-9]], and the rest. *)
Fixpoint take_hex (n : nat) (s : string) : option (string * string) :=
  match n with
  | O => Some (EmptyString, s)
  | S n' =>
      match s with
      | String c s' =>
          if is_hex c then
            match take_hex n' s' with
            | Some (h, r) => Some (String c h, r)
            | None => None
            end
          else None
      | EmptyString => None
      end
  end.

(** A 40-character lowercase hexadecimal hash. *)
Definition is_hash (s : string) : bool :=
  match take_hex 40 s with
  | Some (_, EmptyString) => true
  | _ => false
  end.

(** [s.split(sep)] for a one-character separator. *)
Fixpoint split (sep : ascii) (s : string) : list string :=
  match s with
  | EmptyString => [EmptyString]
  | String c s' =>
      if Ascii.eqb c sep then EmptyString :: split sep s'
      else match split sep s' with
           | x :: xs => String c x :: xs
           | [] => [String c EmptyString]
           end
  end.

(** White space and line terminators of the ASCII range. *)
Definition is_space (c : ascii) : bool :=
  between 9 13 c || Ascii.eqb c " "%char.

Fixpoint trim_left (s : string) : string :=
  match s with
  | String c s' => if is_space c then trim_left s' else s
  | EmptyString => EmptyString
  end.

Fixpoint trim_right (s : string) : string :=
  match s with
  | EmptyString => EmptyString
  | String c s' =>
      match trim_right s' with
      | EmptyString => if is_space c then EmptyString else String c EmptyString
      | t => String c t
      end
  end.

(** [s.trim()] *)
Definition trim (s : string) : string := trim_right (trim_left s).

(** [/\/$/.test(s)], and [s.substr(0, s.length - 1)]. *)
Fixpoint ends_with_slash (s : string) : bool :=
  match s with
  | EmptyString => false
  | String c EmptyString => Ascii.eqb c "/"%char
  | String _ s' => ends_with_slash s'
  end.

Fixpoint drop_last (s : string) : string :=
  match s with
  | EmptyString => EmptyString
  | String _ EmptyString => EmptyString
  | String c s' => String c (drop_last s')
  end.

(** The first suffix of [s], from the left, at which [here] succeeds:
    the search of a regular expression that has no anchor. *)
Fixpoint search {A} (here : string -> option A) (s : string) : option A :=
  match here s with
  | Some a => Some a
  | None =>
      match s with
      | String _ s' => search here s'
      | EmptyString => None
      end
  end.

(** [gitENOENT] (line 36), tried at the start of [s]:
    [fatal: (Path '([^']+)' does not exist in '([0-9a-f]{40})'|ambiguous
    argument '([^']+)': unknown revision or path not in the working tree.)].
    After [[^']+] comes a quote, so the longest run is the only one that
    can match. *)
Definition gitENOENT_here (s : string) : option unit :=
  match strip_prefix "fatal: " s with
  | None => None
  | Some r =>
      let alt1 :=
        match strip_prefix "Path '" r with
        | Some r1 =>
            match span not_quote r1 with
            | (EmptyString, _) => false
            | (_, r2) =>
                match strip_prefix "' does not exist in '" r2 with
                | Some r3 =>
                    match take_hex 40 r3 with
                    | Some (_, String c _) => Ascii.eqb c "'"%char
                    | _ => false
                    end
                | None => false
                end
            end
        | None => false
        end in
      let alt2 :=
        match strip_prefix "ambiguous argument '" r with
        | Some r1 =>
            match span not_quote r1 with
            | (EmptyString, _) => false
            | (_, r2) =>
                match strip_prefix
                  "': unknown revision or path not in the working tree" r2 with
                | Some (String c _) => negb (line_terminator c)
                | _ => false
                end
            end
        | None => false
        end in
      if alt1 || alt2 then Some tt else None
  end.

(** [gitENOENT.test(s)] *)
Definition gitENOENT_test (s : string) : bool :=
  match search gitENOENT_here s with Some _ => true | None => false end.

(** The first group of the match of [s] against the pattern of line 199:
    [ref: ] at the start, a captured run of characters other than line
    terminators, and a newline at the very end.  [None] when there is no
    match (indexing the result then throws). *)
Definition head_ref (s : string) : option string :=
  match strip_prefix "ref: " s with
  | Some r =>
      let '(x, rest) := span (fun c => negb (line_terminator c)) r in
      if String.eqb rest newline then Some x else None
  | None => None
  end.

(** [s.match(/([a-f0-9]{40})\n/)[1]] *)
Definition hash_line (s : string) : option string :=
  search (fun t => match take_hex 40 t with
                   | Some (h, String c _) =>
                       if Ascii.eqb c nl then Some h else None
                   | _ => None
                   end) s.

(** [/^tree .*\n\n/]: what follows the match, when [s] starts with one. *)
Definition tree_header (s : string) : option string :=
  match strip_prefix "tree " s with
  | Some r =>
      let '(_, rest) := span (fun c => negb (line_terminator c)) r in
      strip_prefix (String nl newline) rest
  | None => None
  end.

(** [/^(heads|remotes|tags)\/(.+)/.test(s)] *)
Definition isFullPath (s : string) : bool :=
  let some_char o :=
    match o with
    | Some (String c _) => negb (line_terminator c)
    | _ => false
    end in
  some_char (strip_prefix "heads/" s)
  || some_char (strip_prefix "remotes/" s)
  || some_char (strip_prefix "tags/" s).

(** The class [[\w!@#$%+=-]]. *)
Definition is_name_char (c : ascii) : bool :=
  between 48 57 c || between 65 90 c || between 97 122 c
  || existsb (Ascii.eqb c)
       ["_"; "!"; "@"; "#"; "$"; "%"; "+"; "="; "-"]%char.

(** [/^([\w!@#$%+=-]+)\/([\w!@#$%+=-]+)$/.test(s)] *)
Definition isRemotes (s : string) : bool :=
  match span is_name_char s with
  | (EmptyString, _) => false
  | (_, String c r) =>
      Ascii.eqb c "/"%char &&
      match span is_name_char r with
      | (String _ _, EmptyString) => true
      | _ => false
      end
  | _ => false
  end.

End Str.

(** ** The process executor [gitExec] (lines 248-285) *)

Module Exec.

(** An argument that is a value or a function; [K] names the functions. *)
Inductive arg (K : Type) :=
| AVal (v : value)
| AFun (k : K).
Arguments AVal {K} v.
Arguments AFun {K} k.

(** Modelled from the spec: [Tools.join] of [./tools], which is not among
    the sources: the executor is to "collect all standard-output and
    standard-error bytes" and to "decode the collected output using the
    caller-specified encoding (or return raw bytes if no encoding is
    given)".  Chunks are byte strings; on the ASCII range decoding leaves
    them as they are. *)
Definition Tools_join {K} (chunks : list string) (encoding : arg K) : value :=
  VStr (String.concat "" chunks).

(** [process.ENOENT], a constant of the Node versions this was written
    for. *)
Definition process_ENOENT : Z := 2.

(** Calling [undefined] as a function. *)
Definition not_a_function : value :=
  VError "TypeError" "undefined is not a function" None.

(** [exitCode > 0], [exitCode] being a status, [null] or [undefined]. *)
Definition failed (exitCode : option N) : bool :=
  match exitCode with
  | Some n => (0 <? n)%N
  | None => false
  end.

(** The message of the error built at line 271. *)
Definition message (commands stderr : list string) : string :=
  "git " +:+ String.concat " " commands +:+ Str.newline
    +:+ to_string (Tools_join (K := unit) stderr (AVal (VStr "utf8"))).

(** The listener of ['close'] in [gitExec(commands, encoding, callback)]:
    which function is called, with which arguments.  [callback] is [None]
    when the caller passed nothing in that position. *)
Definition close {K} (gitCommands commands : list string)
    (encoding : arg K) (callback : option K) (exitCode : option N)
    (stdout stderr : list string) : outcome (K * list value) :=
  let commands := (gitCommands ++ commands)%list in
  if failed exitCode then
    let m := message commands stderr in
    let err :=
      VError "Error" m
        (if Str.gitENOENT_test m then Some process_ENOENT else None) in
    match callback with
    | Some k => Returned (k, [err])
    | None => Threw not_a_function
    end
  else
    let out := Tools_join stdout encoding in
    match callback with
    | Some k => Returned (k, [VNull; out])
    | None => Threw not_a_function
    end.

End Exec.

(** ** Regular expressions built at run time *)

Module RegExp.

(** [text.match(new RegExp(source, flags))] is the engine of the
    JavaScript runtime; the resolvers build [source] from ref names, which
    they do not escape.  [exec source flags text] is [Threw exn] when
    [new RegExp(source, flags)] throws, [source] not being a pattern (a
    [SyntaxError]); it is [Returned None] when the result of the match is
    [null], and otherwise [Returned (Some groups)], the captured groups
    [matches[1]], [matches[2]], ... *)
Class Engine :=
  exec : string -> string -> string -> outcome (option (list value)).

(** The first group, [matches[1]]. *)
Definition group1 (groups : list value) : value := nth 0 groups VUndef.

(** An engine for the fragment the resolvers produce from ref names made
    of plain characters and plus signs: the anchors, the two groups they
    write, characters that stand for themselves, and a character repeated
    by [+]. *)
Inductive token :=
| TBol                (* ^ *)
| TEol                (* $ *)
| THash               (* ([a-f0-9]{40}) *)
| TAny                (* (.+) *)
| TChar (c : ascii)
| TPlus (c : ascii).  (* c+ *)

(** What [new RegExp(source)] throws when a quantifier follows nothing
    that can be repeated. *)
Definition nothing_to_repeat (source : string) : value :=
  VError "SyntaxError"
    ("Invalid regular expression: /" +:+ source +:+ "/: Nothing to repeat")
    None.

(** A quantifier. *)
Definition quantifier (c : ascii) : bool :=
  existsb (Ascii.eqb c) ["+"; "*"; "?"]%char.

(** Characters with no special meaning in a pattern. *)
Definition plain (c : ascii) : bool :=
  negb (existsb (Ascii.eqb c)
    ["\"; "^"; "$"; "."; "|"; "?"; "*"; "+"; "("; ")"; "["; "]"; "{"; "}"]%char).

(** The tokens of [source]; [whole] is the pattern they are part of, and
    [bare] says that what comes before cannot be repeated (the start, an
    anchor, or a repeated character).  [Returned None]: [source] is
    outside the fragment. *)
Fixpoint tokens (fuel : nat) (whole : string) (bare : bool) (source : string)
    : outcome (option (list token)) :=
  let more t r :=
    match r with
    | Returned (Some ts) => Returned (Some (t :: ts))
    | other => other
    end in
  match fuel with
  | O => match source with
         | EmptyString => Returned (Some [])
         | _ => Returned None
         end
  | S fuel' =>
      match source with
      | EmptyString => Returned (Some [])
      | String c rest =>
          match Str.strip_prefix "([a-f0-9]{40})" source with
          | Some r => more THash (tokens fuel' whole false r)
          | None =>
              match Str.strip_prefix "(.+)" source with
              | Some r => more TAny (tokens fuel' whole false r)
              | None =>
                  if Ascii.eqb c "^"%char
                  then more TBol (tokens fuel' whole true rest)
                  else if Ascii.eqb c "$"%char
                  then more TEol (tokens fuel' whole true rest)
                  else if plain c
                  then
                    match rest with
                    | String "+" rest' =>
                        match rest' with
                        | String "?" _ => Returned None
                        | _ => more (TPlus c) (tokens fuel' whole true rest')
                        end
                    | _ => more (TChar c) (tokens fuel' whole false rest)
                    end
                  else if quantifier c && bare
                  then Threw (nothing_to_repeat whole)
                  else Returned None
              end
          end
      end
  end.

Fixpoint last_char (prev : option ascii) (s : string) : option ascii :=
  match s with
  | EmptyString => prev
  | String c s' => last_char (Some c) s'
  end.

(** Matching a token list at a position; [prev] is the character before
    the position and [m] the multiline flag.  The result is the list of
    groups.  [(.+)] is greedy and gives back characters one at a time. *)
Fixpoint match_at (m : bool) (ts : list token) (prev : option ascii)
    (s : string) : option (list value) :=
  match ts with
  | [] => Some []
  | TBol :: ts' =>
      match prev with
      | None => match_at m ts' prev s
      | Some p =>
          if m && Str.line_terminator p then match_at m ts' prev s else None
      end
  | TEol :: ts' =>
      match s with
      | EmptyString => match_at m ts' prev s
      | String c _ =>
          if m && Str.line_terminator c then match_at m ts' prev s else None
      end
  | TChar c :: ts' =>
      match s with
      | String d s' =>
          if Ascii.eqb c d then match_at m ts' (Some d) s' else None
      | EmptyString => None
      end
  | THash :: ts' =>
      match Str.take_hex 40 s with
      | Some (h, r) =>
          option_map (cons (VStr h)) (match_at m ts' (last_char prev h) r)
      | None => None
      end
  | TPlus c :: ts' =>
      (fix plus (s : string) {struct s} : option (list value) :=
         match s with
         | EmptyString => None
         | String d s' =>
             if Ascii.eqb c d
             then match plus s' with
                  | Some gs => Some gs
                  | None => match_at m ts' (Some d) s'
                  end
             else None
         end) s
  | TAny :: ts' =>
      (fix any (taken s : string) {struct s} : option (list value) :=
         match s with
         | EmptyString => None
         | String c s' =>
             if Str.line_terminator c then None
             else
               let taken' := taken +:+ String c EmptyString in
               match any taken' s' with
               | Some gs => Some gs
               | None =>
                   option_map (cons (VStr taken'))
                     (match_at m ts' (Some c) s')
               end
         end) EmptyString s
  end.

Fixpoint find (m : bool) (ts : list token) (prev : option ascii)
    (s : string) : option (list value) :=
  match match_at m ts prev s with
  | Some gs => Some gs
  | None =>
      match s with
      | String c s' => find m ts (Some c) s'
      | EmptyString => None
      end
  end.

(** Patterns outside the fragment are not interpreted: they are taken to
    match nothing. *)
Definition fragment : Engine := fun source flags text =>
  match tokens (String.length source) source true source with
  | Returned (Some ts) => Returned (find (String.eqb flags "m") ts None text)
  | Returned None => Returned None
  | Threw exn => Threw exn
  end.

End RegExp.

(** ** Reading content, trees and logs (lines 289-473) *)

Module Accessor.

(** What the body of an operation asks for; the answer arrives later. *)
Inductive request :=
| GitExec (commands : list string) (encoding : value)
    (* that.gitExec(commands, encoding, k) *)
| ReadFile (version path encoding : string)
    (* that.readFile(version, path, encoding, k), the decorated one *)
| FsReadFile (dir path : string) (encoding : value)
    (* fs.readFile(Path.join(dir, path), encoding, k) *)
| FsReaddir (dir path : string).
    (* fs.readdir(Path.join(dir, path), k) *)

(** [args] of line 295. *)
Definition logFile_args (version path : string) : list string :=
  ["log"; "-z"; "--summary"; version; "--"; path].

(** [logFile(version, path, callback)] as decorated: the request.  The
    version is not looked at. *)
Definition logFile (version path : string) : request :=
  GitExec (logFile_args version path) (VStr "utf8").

Section LogFile.
(** Lines 310-322, the parsing of a non-empty log into an object, on
    which no property proved here depends. *)
Variable parse_log : string -> outcome (list value).

(** The function given to [gitExec] by [logFile]: the arguments with
    which it calls the completion closure of the decorator. *)
Definition logFile_k (arguments : list value) : outcome (list value) :=
  let err := nth 0 arguments VUndef in
  let text := nth 1 arguments VUndef in
  if truthy err then Returned [err]
  else if (String.length (to_string text) =? 0)%nat
  then Returned [VNull; VArr []]
  else parse_log (to_string text).

(** From the close of the subprocess to the arguments of the completion
    closure. *)
Definition logFile_closed (gitCommands : list string) (version path : string)
    (exitCode : option N) (stdout stderr : list string)
    : outcome (list value) :=
  match Exec.close gitCommands (logFile_args version path)
          (Exec.AVal (VStr "utf8")) (Some tt) exitCode stdout stderr with
  | Returned (_, arguments) => logFile_k arguments
  | Threw exn => Threw exn
  end.
End LogFile.

(** [readFile(version, path[, encoding], callback)] as decorated.  With
    three arguments the completion closure arrives as [encoding], and
    [callback == null] moves it. *)
Definition readFile (workTree version : string) (rest : list string)
    : option request :=
  let dispatch path encoding :=
    if (String.length version =? 40)%nat
    then GitExec ["show"; version +:+ ":" +:+ path] encoding
    else FsReadFile workTree path encoding in
  match rest with
  | [path] => Some (dispatch path VNull)
  | [path; encoding] => Some (dispatch path (VStr encoding))
  | _ => None
  end.

(** [readDir(version, path, callback)] as decorated: the request. *)
Definition readDir (workTree version path : string) : request :=
  if (String.length version =? 40)%nat
  then ReadFile version path "utf-8"
  else FsReaddir workTree path.

(** Reading the variable [combined], which nothing declares. *)
Definition combined_is_not_defined : value :=
  VError "ReferenceError" "combined is not defined" None.

(** [text.split('\n').forEach(...)] of lines 409-416. *)
Fixpoint partition_entries (entries : list string)
    : list string * list string :=
  match entries with
  | [] => ([], [])
  | entry :: entries' =>
      let '(files, dirs) := partition_entries entries' in
      if Str.ends_with_slash entry
      then (files, Str.drop_last entry :: dirs)
      else (entry :: files, dirs)
  end.

(** The function given to [that.readFile] by the historical branch of
    [readDir] (lines 394-423). *)
Definition readDir_k (arguments : list value) : outcome (list value) :=
  let err := nth 0 arguments VUndef in
  let text := nth 1 arguments VUndef in
  if truthy err then Returned [err]
  else
    match Str.tree_header (to_string text) with
    | None => Threw combined_is_not_defined
    | Some body =>
        let '(files, dirs) :=
          partition_entries (Str.split Str.nl (Str.trim body)) in
        Returned [VNull; VDir files dirs]
    end.

End Accessor.

(** ** The HEAD resolver [getHeadSha] (lines 136-243) *)

Module HeadSha.

(** [var head, packedRefs, master] of one call that started a
    resolution. *)
Record locals := Locals {
  head : value;
  packedRefs : value;
  master : value
}.

Definition fresh : locals := Locals VUndef VUndef VUndef.

(** The fields of the instance the resolver uses, and the variables of
    each resolution started so far. *)
Record inst := Inst {
  _shaCache : value;
  _shaQueue : waiters;
  _gitDir : string;
  _gitCommands : list string;
  acts : list locals
}.

(** A constructed instance: both slots hold [false]. *)
Definition init (gitDir : string) (gitCommands : list string) : inst :=
  Inst (VBool false) QFalse gitDir gitCommands [].

(** The function written at line 176, [function (err) { getHEAD(); }], of
    resolution [a]. *)
Inductive cont :=
| AfterGc (a : nat).

Inductive file :=
| PackedRefs
| HEAD
| Ref (path : string).

Inductive effect :=
| Callback (cb : callback) (arguments : list value)
| PathExists (a : nat)
    (* Path.exists(Path.join(that._gitDir, 'packed-refs'), ...) *)
| GitExec (commands : list string) (encoding : Exec.arg cont)
    (callback : option cont)
    (* that.gitExec(commands, encoding, callback) *)
| ReadFile (a : nat) (f : file)
    (* fs.readFile(Path.join(that._gitDir, f), 'ascii', ...) *)
| SetTimeout (ms : Z)
    (* setTimeout(function () { that._shaCache = false; }, ms) *)
| Uncaught (exn : value).
    (* an exception nothing catches ends the turn *)

Inductive input :=
| Call (cb : callback)
| Exists (a : nat) (found : bool)
| GcClosed (a : nat) (exitCode : option N) (stdout stderr : list string)
| ReadPackedRefs (a : nat) (err result : value)
| ReadHEAD (a : nat) (err result : value)
| ReadRef (a : nat) (err result : value)
| Expire.

(** Indexing [null]. *)
Definition null_has_no_properties : value :=
  VError "TypeError" "Cannot read property '1' of null" None.

Definition set_cache (v : value) (st : inst) : inst :=
  Inst v (_shaQueue st) (_gitDir st) (_gitCommands st) (acts st).

Definition set_queue (q : waiters) (st : inst) : inst :=
  Inst (_shaCache st) q (_gitDir st) (_gitCommands st) (acts st).

Definition vars (a : nat) (st : inst) : locals := default fresh (acts st !! a).

Definition set_vars (a : nat) (l : locals) (st : inst) : inst :=
  Inst (_shaCache st) (_shaQueue st) (_gitDir st) (_gitCommands st)
    (<[a := l]> (acts st)).

Fixpoint flush (q : list callback) (arguments : list value) : list effect :=
  match q with
  | [] => []
  | cb :: q' => Callback cb arguments :: flush q' arguments
  end.

(** [groupCallback]; [false.length > 0] is false. *)
Definition groupCallback (arguments : list value) (st : inst)
    : inst * list effect :=
  (set_queue QFalse st,
   match _shaQueue st with
   | QArr q => flush q arguments
   | QFalse => []
   end).

Section Resolver.
Context (NODE_ENV : string) {E : RegExp.Engine}.

(** [getHeadSha(callback)] *)
Definition getHeadSha (cb : callback) (st : inst) : inst * list effect :=
  if truthy (_shaCache st) then
    (st, [Callback cb [VNull; _shaCache st]])
  else
    match _shaQueue st with
    | QArr q => (set_queue (QArr (q ++ [cb])) st, [])
    | QFalse =>
        if String.eqb (_gitDir st) "" then
          (st, [Callback cb [Error "gitDir not set yet!"]])
        else
          let a := length (acts st) in
          (Inst (_shaCache st) (QArr [cb]) (_gitDir st) (_gitCommands st)
             (acts st ++ [fresh]),
           [PathExists a])
    end.

(** [getHEAD()]: the two reads it starts. *)
Definition getHEAD (a : nat) (st : inst) : inst * list effect :=
  (st, [ReadFile a PackedRefs; ReadFile a HEAD]).

(** The function given to [Path.exists].  Line 176 calls [gitExec] with
    two arguments: the function lands in [encoding] and [callback] is
    left undefined. *)
Definition on_exists (a : nat) (found : bool) (st : inst)
    : inst * list effect :=
  if found then getHEAD a st
  else (st, [GitExec ["gc"] (Exec.AFun (AfterGc a)) None]).

(** [checkDone()] of resolution [a].  The [try] of lines 224-235 catches
    what indexing [null] throws, and what [new RegExp] throws at line
    229. *)
Definition checkDone (a : nat) (st : inst) : inst * list effect :=
  let v := vars a st in
  if negb (truthy (head v) && truthy (packedRefs v)
           && negb (bool_decide (master v = VUndef)))
  then (st, [])
  else
    let parsed : outcome value :=
      if truthy (master v)
      then match Str.hash_line (to_string (master v)) with
           | Some sha => Returned (VStr sha)
           | None => Threw null_has_no_properties
           end
      else match RegExp.exec ("([a-f0-9]{40}) " +:+ to_string (head v)) ""
                   (to_string (packedRefs v)) with
           | Returned (Some groups) => Returned (RegExp.group1 groups)
           | Returned None => Threw null_has_no_properties
           | Threw exn => Threw exn
           end in
    match parsed with
    | Threw err => groupCallback [err] st
    | Returned sha =>
        let st1 := set_cache sha st in
        let '(st2, es) := groupCallback [VNull; sha] st1 in
        (st2, es ++ [SetTimeout (snd (Safe.CACHE_LIFE NODE_ENV))])
    end.

(** The function given to the read of [packed-refs]. *)
Definition on_packedRefs (a : nat) (err result : value) (st : inst)
    : inst * list effect :=
  if truthy err then groupCallback [err] st
  else
    let v := vars a st in
    checkDone a (set_vars a (Locals (head v) result (master v)) st).

(** The function given to the read of the ref named by [HEAD]. *)
Definition on_ref (a : nat) (err result : value) (st : inst)
    : inst * list effect :=
  let v := vars a st in
  checkDone a
    (set_vars a (Locals (head v) (packedRefs v) (or_else result VNull)) st).

(** The function given to the read of [HEAD]. *)
Definition on_HEAD (a : nat) (err result : value) (st : inst)
    : inst * list effect :=
  if truthy err then groupCallback [err] st
  else
    match Str.head_ref (to_string result) with
    | None => groupCallback [null_has_no_properties] st
    | Some h =>
        let v := vars a st in
        let st1 :=
          set_vars a (Locals (VStr h) (packedRefs v) (master v)) st in
        let '(st2, es) := checkDone a st1 in
        (st2, ReadFile a (Ref h) :: es)
    end.

(** The subprocess started by [gitExec] closes: its listener runs, and
    then the function it calls. *)
Definition on_close (commands : list string) (encoding : Exec.arg cont)
    (callback : option cont) (exitCode : option N)
    (stdout stderr : list string) (st : inst) : inst * list effect :=
  match Exec.close (_gitCommands st) commands encoding callback
          exitCode stdout stderr with
  | Returned (AfterGc a, _) => getHEAD a st
  | Threw exn => (st, [Uncaught exn])
  end.

Definition step (i : input) (st : inst) : inst * list effect :=
  match i with
  | Call cb => getHeadSha cb st
  | Exists a found => on_exists a found st
  | GcClosed a exitCode stdout stderr =>
      on_close ["gc"] (Exec.AFun (AfterGc a)) None exitCode stdout stderr st
  | ReadPackedRefs a err result => on_packedRefs a err result st
  | ReadHEAD a err result => on_HEAD a err result st
  | ReadRef a err result => on_ref a err result st
  | Expire => (set_cache (VBool false) st, [])
  end.

Fixpoint run (ins : list input) (st : inst) : inst * list effect :=
  match ins with
  | [] => (st, [])
  | i :: ins' =>
      let '(st1, e1) := step i st in
      let '(st2, e2) := run ins' st1 in
      (st2, e1 ++ e2)
  end.

End Resolver.

Definition is_callback (e : effect) : bool :=
  match e with Callback _ _ => true | _ => false end.

(** What the environment may do in a repository whose [packed-refs] reads
    as the empty string and whose [HEAD] reads as [ref: <path>]: these two
    reads succeed with such contents; everything else is free. *)
Definition quiet (i : input) : bool :=
  match i with
  | ReadPackedRefs _ err result =>
      negb (truthy err) && bool_decide (result = VStr "")
  | ReadHEAD _ err result =>
      negb (truthy err)
      && match Str.head_ref (to_string result) with
         | Some _ => true
         | None => false
         end
  | _ => true
  end.

(** What stays true of the instance in such a repository. *)
Definition stuck (st : inst) : Prop :=
  truthy (_shaCache st) = false
  /\ String.eqb (_gitDir st) "" = false
  /\ forall a, truthy (packedRefs (vars a st)) = false.

End HeadSha.

(** ** The branch and tag resolver [getBranchSha] (lines 493-591) *)

Module BranchSha.

Record inst := Inst {
  _branchsCache : gmap string value;
  _branchsQueue : gmap string waiters;
  _gitCommands : list string
}.

Definition init (gitCommands : list string) : inst := Inst ∅ ∅ gitCommands.

Inductive effect :=
| Callback (cb : callback) (arguments : list value)
| GitExec (commands : list string) (encoding : value) (branch : string)
    (* that.gitExec(['show-ref'], 'utf-8', function (err, lines) {...}),
       the function being the one of the call for [branch] *)
| SetTimeout (key : string) (ms : Z)
    (* setTimeout(function () { that._branchsCache[key] = false; }, ms) *)
| Uncaught (exn : value).
    (* an exception nothing catches ends the turn *)

(** Calling [push] on an inherited property, which has none. *)
Definition push_is_not_a_function : value :=
  VError "TypeError" "undefined is not a function" None.

Inductive input :=
| Call (branch : string) (cb : callback)
| ShowRefClosed (branch : string) (exitCode : option N)
    (stdout stderr : list string)
| Expire (key : string).

(** The keys tried for [branch], in the order of the [||] chains of lines
    508-518 and 574-586. *)
Definition candidates (branch : string) : list string :=
  if Str.isFullPath branch then [branch]
  else if Str.isRemotes branch then ["remotes/" +:+ branch]
  else ["heads/" +:+ branch; "remotes/(.+)/" +:+ branch; "tags/" +:+ branch].

(** [that._branchsCache[key]] when it is truthy. *)
Definition cached (cache : gmap string value) (key : string) : option value :=
  match cache !! key with
  | Some v => if truthy v then Some v else None
  | None => None
  end.

(** [checkCache]: the first key, in order, with a truthy slot. *)
Fixpoint checkCache (keys : list string) (cache : gmap string value)
    : option value :=
  match keys with
  | [] => None
  | key :: keys' =>
      match cached cache key with
      | Some v => Some v
      | None => checkCache keys' cache
      end
  end.

(** [that._branchsQueue[branch]] holds an array. *)
Definition in_flight (st : inst) (branch : string) : bool :=
  match _branchsQueue st !! branch with
  | Some (QArr _) => true
  | _ => false
  end.

Fixpoint flush (q : list callback) (arguments : list value) : list effect :=
  match q with
  | [] => []
  | cb :: q' => Callback cb arguments :: flush q' arguments
  end.

(** [groupCallback] of the call for [branch]. *)
Definition groupCallback (branch : string) (arguments : list value)
    (st : inst) : inst * list effect :=
  (Inst (_branchsCache st) (<[branch := QFalse]> (_branchsQueue st))
     (_gitCommands st),
   match _branchsQueue st !! branch with
   | Some (QArr q) => flush q arguments
   | _ => []
   end).

Section Resolver.
Context (NODE_ENV : string) {E : RegExp.Engine}.

(** [getBranchSha(branch, callback)] up to the call of [gitExec].  The
    keys of [_branchsCache] contain a slash, which no inherited name
    does; [_branchsQueue] is indexed by [branch] itself, and
    [checkQueue] finds an inherited property truthy. *)
Definition getBranchSha (branch : string) (cb : callback) (st : inst)
    : inst * list effect :=
  match checkCache (candidates branch) (_branchsCache st) with
  | Some sha => (st, [Callback cb [VNull; sha]])
  | None =>
      match _branchsQueue st !! branch with
      | Some (QArr q) =>
          (Inst (_branchsCache st)
             (<[branch := QArr (q ++ [cb])]> (_branchsQueue st))
             (_gitCommands st), [])
      | Some QFalse =>
          (Inst (_branchsCache st)
             (<[branch := QArr [cb]]> (_branchsQueue st))
             (_gitCommands st),
           [GitExec ["show-ref"] (VStr "utf-8") branch])
      | None =>
          if inherited branch then (st, [Uncaught push_is_not_a_function])
          else
            (Inst (_branchsCache st)
               (<[branch := QArr [cb]]> (_branchsQueue st))
               (_gitCommands st),
             [GitExec ["show-ref"] (VStr "utf-8") branch])
      end
  end.

(** [checkDone(key, sha)] *)
Definition checkDone (branch key : string) (sha : value) (st : inst)
    : inst * list effect :=
  let st1 :=
    Inst (<[key := sha]> (_branchsCache st)) (_branchsQueue st)
      (_gitCommands st) in
  let '(st2, es) := groupCallback branch [VNull; sha] st1 in
  (st2, es ++ [SetTimeout key (snd (Safe.CACHE_LIFE NODE_ENV))]).

(** The inner [check(key)] of line 562: the groups of the first line of
    [lines] that matches.  The pattern is built from the key as it is, with
    no [try] around: [Threw exn] when the key does not make a pattern. *)
Definition check (key lines : string) : outcome (option (list value)) :=
  RegExp.exec ("^([a-f0-9]{40}) refs/" +:+ key +:+ "$") "m" lines.

(** The chain of [check] calls: the first key, in order, that matches,
    with [matches[1]].  A key whose pattern cannot be built ends the chain
    with the exception when no key before it matched. *)
Fixpoint first_match (keys : list string) (lines : string)
    : outcome (option (string * value)) :=
  match keys with
  | [] => Returned None
  | key :: keys' =>
      match check key lines with
      | Returned (Some groups) => Returned (Some (key, RegExp.group1 groups))
      | Returned None => first_match keys' lines
      | Threw exn => Threw exn
      end
  end.

(** The function given to [gitExec] by the call for [branch].  An
    exception of [check] leaves it before anybody is called and before the
    queue of [branch] is reset. *)
Definition on_show_ref (branch : string) (arguments : list value)
    (st : inst) : inst * list effect :=
  let err := nth 0 arguments VUndef in
  let lines := nth 1 arguments VUndef in
  if truthy err then groupCallback branch [err] st
  else
    match first_match (candidates branch) (to_string lines) with
    | Returned (Some (key, sha)) => checkDone branch key sha st
    | Returned None =>
        groupCallback branch [Error ("Invalid branch " +:+ branch)] st
    | Threw exn => (st, [Uncaught exn])
    end.

Definition step (i : input) (st : inst) : inst * list effect :=
  match i with
  | Call branch cb => getBranchSha branch cb st
  | ShowRefClosed branch exitCode stdout stderr =>
      match Exec.close (_gitCommands st) ["show-ref"]
              (Exec.AVal (VStr "utf-8")) (Some branch)
              exitCode stdout stderr with
      | Returned (b, arguments) => on_show_ref b arguments st
      | Threw exn => (st, [Uncaught exn])
      end
  | Expire key =>
      (Inst (<[key := VBool false]> (_branchsCache st))
         (_branchsQueue st) (_gitCommands st), [])
  end.

Fixpoint run (ins : list input) (st : inst) : inst * list effect :=
  match ins with
  | [] => (st, [])
  | i :: ins' =>
      let '(st1, e1) := step i st in
      let '(st2, e2) := run ins' st1 in
      (st2, e1 ++ e2)
  end.

End Resolver.

End BranchSha.

(** ** The decorator under a clock *)

Module Timed.
Import Safe.

(** The decorated function together with what surrounds it: the clock (in
    milliseconds), the timers started by [setTimeout] that have not gone
    off (due time and key), and the completion closures handed to the
    wrapped operation that have not been called (key and the [version] each
    captured).  [born] is a record kept for the proofs: when, and by a
    closure of which version, the value of each key was last stored. *)
Record world := World {
  now : Z;
  st : store;
  timers : list (Z * string);
  closures : gmap string string;
  born : gmap string (Z * string)
}.

Definition start : world := World 0 empty [] ∅ ∅.

Inductive event :=
| ECall (version : string) (rest : list string) (cb : callback)
    (* a caller calls the decorated function *)
| EDone (key : string) (arguments : list value)
    (* the wrapped operation calls the completion closure of [key] *)
| EFire (key : string)
    (* a timer of [key] that is due goes off *)
| EWait (dt : Z).
    (* time passes, up to the next due time *)

(** The due times of the timers of [key]. *)
Definition dues (key : string) (l : list (Z * string)) : list Z :=
  map fst (List.filter (fun p => String.eqb (snd p) key) l).

(** The timers left when the first due timer of [key] goes off. *)
Fixpoint fire (key : string) (t : Z) (l : list (Z * string))
    : option (list (Z * string)) :=
  match l with
  | [] => None
  | (due, k) :: l' =>
      if (due <=? t) && String.eqb k key then Some l'
      else option_map (cons (due, k)) (fire key t l')
  end.

(** The timers that the effects of a turn at time [t] start. *)
Definition scheduled (t : Z) (es : list effect) : list (Z * string) :=
  flat_map (fun e => match e with
                     | SetTimeout key ms => [(t + ms, key)]
                     | _ => []
                     end) es.

(** The closures that the effects of a turn hand out. *)
Definition handed (es : list effect) (c : gmap string string)
    : gmap string string :=
  fold_right (fun e c => match e with
                         | Apply version args => <[key_of args := version]> c
                         | _ => c
                         end) c es.

(** One event, when it can happen. *)
Definition next (NODE_ENV : string) (e : event) (w : world) : option world :=
  match e with
  | ECall version rest cb =>
      let r := wrapper version rest cb (st w) in
      Some (World (now w) (fst r) (timers w) (handed (snd r) (closures w))
              (born w))
  | EDone key arguments =>
      match closures w !! key with
      | None => None
      | Some version =>
          let r := completion NODE_ENV version key arguments (st w) in
          Some (World (now w) (fst r)
                  (timers w ++ scheduled (now w) (snd r))
                  (delete key (closures w))
                  (match scheduled (now w) (snd r) with
                   | [] => born w
                   | _ => <[key := (now w, version)]> (born w)
                   end))
      end
  | EFire key =>
      match fire key (now w) (timers w) with
      | Some l =>
          Some (World (now w) (expire key (st w)) l (closures w) (born w))
      | None => None
      end
  | EWait dt =>
      if (0 <=? dt) && forallb (fun p => now w + dt <=? fst p) (timers w)
      then Some (World (now w + dt) (st w) (timers w) (closures w) (born w))
      else None
  end.

Fixpoint play (NODE_ENV : string) (es : list event) (w : world)
    : option world :=
  match es with
  | [] => Some w
  | e :: es' =>
      match next NODE_ENV e w with
      | Some w' => play NODE_ENV es' w'
      | None => None
      end
  end.

Inductive reachable (NODE_ENV : string) : world -> Prop :=
| reach_start : reachable NODE_ENV start
| reach_next w e w' :
    reachable NODE_ENV w -> next NODE_ENV e w = Some w' ->
    reachable NODE_ENV w'.

(** [version] is a valid first argument of a call whose key is [key]. *)
Definition owns (version key : string) : Prop :=
  valid_version version = true /\ exists rest, key = key_of (version :: rest).

(** What holds in every reachable world. *)
Definition sound (NODE_ENV : string) (w : world) : Prop :=
  forall key,
    (forall v, closures w !! key = Some v ->
       owns v key /\ in_flight (st w) key = true /\ cached (st w) key = false)
    /\ (forall t v, born w !! key = Some (t, v) -> owns v key)
    /\ (if cached (st w) key
        then exists t v,
               born w !! key = Some (t, v)
               /\ dues key (timers w) = [t + ttl NODE_ENV v]
               /\ now w <= t + ttl NODE_ENV v
        else dues key (timers w) = []).

End Timed.

(** ** The HEAD resolver: orders of arrival and failures *)

Module HeadOrders.
Import HeadSha.

(** The orders in which the three reads of one resolution can complete:
    the read of the ref starts when the read of [HEAD] has completed. *)
Definition orders (packed head ref : input) : list (list input) :=
  [[packed; head; ref]; [head; packed; ref]; [head; ref; packed]].

(** The guard of [checkDone] (line 219), negated: all three variables are
    set. *)
Definition ready (v : locals) : bool :=
  truthy (head v) && truthy (packedRefs v)
  && negb (bool_decide (master v = VUndef)).

(** The error with which an input makes its handler call [groupCallback]:
    a failed read of [packed-refs] or of [HEAD], or a [HEAD] that line 199
    does not match. *)
Definition failure (i : input) : option value :=
  match i with
  | ReadPackedRefs _ err _ => if truthy err then Some err else None
  | ReadHEAD _ err result =>
      if truthy err then Some err
      else match Str.head_ref (to_string result) with
           | None => Some null_has_no_properties
           | Some _ => None
           end
  | _ => None
  end.

End HeadOrders.

(** ** The branch and tag resolver: inputs *)

Module BranchInputs.
Import BranchSha.

(** The input is not the close of a subprocess started for [branch]. *)
Definition no_close (branch : string) (i : input) : bool :=
  match i with
  | ShowRefClosed b _ _ _ => negb (String.eqb b branch)
  | _ => true
  end.

End BranchInputs.

(** ** More on strings *)

Module StrMore.

(** Every character of [s] satisfies [f]. *)
Fixpoint all (f : ascii -> bool) (s : string) : bool :=
  match s with
  | EmptyString => true
  | String c s' => f c && all f s'
  end.

(** The last character of [s] is white space. *)
Fixpoint ends_with_space (s : string) : bool :=
  match s with
  | EmptyString => false
  | String c EmptyString => Str.is_space c
  | String _ s' => ends_with_space s'
  end.

(** A name as [git show] prints it on a line of a tree: not empty, on one
    line, with no white space at either end. *)
Definition tidy (s : string) : bool :=
  all (fun c => negb (Ascii.eqb c Str.nl)) s
  && match s with
     | String c _ => negb (Str.is_space c)
     | EmptyString => false
     end
  && negb (ends_with_space s).

End StrMore.

(** ** The decorator with a clock: resolutions in flight *)

Module Pending.
Import Safe Timed.

(** A key is in flight only while its completion closure is pending. *)
Definition tracked (w : world) : Prop :=
  forall key, in_flight (st w) key = true -> is_Some (closures w !! key).

End Pending.

(** ** Listing a directory of the work tree (lines 429-467) *)

Module LiveDir.

(** [var count, files, dirs] of one listing. *)
Record scan := Scan {
  count : Z;
  files : list string;
  dirs : list string
}.

Inductive effect :=
| Stat (filename : string)
    (* fs.stat(Path.join(realPath, filename), ...) *)
| Callback (arguments : list value).
    (* callback(...), the completion closure of the decorator *)

(** The function given to [fs.readdir]. *)
Definition on_readdir (err : value) (filenames : list string)
    : option scan * list effect :=
  if truthy err then (None, [Callback [err]])
  else (Some (Scan (Z.of_nat (length filenames)) [] []), map Stat filenames).

(** The function given to [fs.stat] for [filename]; [isDirectory] is what
    [stat.isDirectory()] answers. *)
Definition on_stat (filename : string) (err : value) (isDirectory : bool)
    (s : scan) : scan * list effect :=
  if truthy err then (s, [Callback [err]])
  else
    let s' :=
      Scan (count s - 1)
        (if isDirectory then files s else files s ++ [filename])
        (if isDirectory then dirs s ++ [filename] else dirs s) in
    (s', if count s' =? 0
         then [Callback [VNull; VDir (files s') (dirs s')]]
         else []).

(** The answers of [fs.stat], in the order in which they arrive. *)
Definition answer : Type := string * value * bool.

Fixpoint stats (answers : list answer) (s : scan) : scan * list effect :=
  match answers with
  | [] => (s, [])
  | (filename, err, isDirectory) :: answers' =>
      let '(s1, e1) := on_stat filename err isDirectory s in
      let '(s2, e2) := stats answers' s1 in
      (s2, e1 ++ e2)
  end.

(** A listing from the names to the last answer. *)
Definition listing (filenames : list string) (answers : list answer)
    : list effect :=
  match on_readdir VNull filenames with
  | (Some s, es) => es ++ snd (stats answers s)
  | (None, es) => es
  end.

Definition failed (a : answer) : bool := truthy (snd (fst a)).

(** The names answered as files, and as directories, in order of
    arrival. *)
Definition files_of (answers : list answer) : list string :=
  map (fun a => fst (fst a))
    (List.filter (fun a => negb (failed a) && negb (snd a)) answers).

Definition dirs_of (answers : list answer) : list string :=
  map (fun a => fst (fst a))
    (List.filter (fun a => negb (failed a) && snd a) answers).

(** How many answers are not errors. *)
Definition successes (answers : list answer) : nat :=
  length (List.filter (fun a => negb (failed a)) answers).

(** The errors among the answers. *)
Definition errors_of (answers : list answer) : list effect :=
  map (fun a => Callback [snd (fst a)]) (List.filter failed answers).

End LiveDir.

(** ** The parser of a log (lines 310-320) *)

Module LogParse.

Definition nul : ascii := ascii_of_nat 0.

(** [entry.match(/^commit ([a-f0-9]{40})/)]: the first group, when there
    is a match. *)
Definition commit_of (entry : string) : option string :=
  match Str.strip_prefix "commit " entry with
  | Some r =>
      match Str.take_hex 40 r with
      | Some (h, _) => Some h
      | None => None
      end
  | None => None
  end.

(** The first group of the pattern of line 312, two newlines and then
    everything: what follows the first empty line. *)
Definition body_of (entry : string) : option string :=
  Str.search (Str.strip_prefix (String Str.nl Str.newline)) entry.

(** The lines of a text: under the flag [m], [^] and [$] match at each
    line terminator. *)
Fixpoint lines (s : string) : list string :=
  match s with
  | EmptyString => [EmptyString]
  | String c s' =>
      if Str.line_terminator c then EmptyString :: lines s'
      else match lines s' with
           | x :: xs => String c x :: xs
           | [] => [String c EmptyString]
           end
  end.

Definition is_upper (c : ascii) : bool := Str.between 65 90 c.
Definition is_lower (c : ascii) : bool := Str.between 97 122 c.
Definition is_letter (c : ascii) : bool := is_upper c || is_lower c.

(** The pattern of line 314 on one line: a capital, small letters, a
    colon, and the rest of the line. *)
Definition header_line (line : string) : bool :=
  match line with
  | String c r =>
      is_upper c &&
      match Str.span is_lower r with
      | (_, String d _) => Ascii.eqb d ":"%char
      | _ => false
      end
  | EmptyString => false
  end.

(** [entry.match(/^[A-Z][a-z]*:.*$/gm)]: the matching lines, or [null]. *)
Definition header_lines (entry : string) : option (list string) :=
  match List.filter header_line (lines entry) with
  | [] => None
  | ls => Some ls
  end.

(** The two groups of the pattern of line 315: letters, a colon, white
    space that is skipped, and the rest up to the end, which holds no line
    terminator. *)
Definition field (line : string) : option (string * string) :=
  match Str.span is_letter line with
  | (String c name, String d r) =>
      if Ascii.eqb d ":"%char
         && StrMore.all (fun x => negb (Str.line_terminator x))
              (Str.trim_left r)
      then Some (String c name, Str.trim_left r)
      else None
  | _ => None
  end.

(** [s.toLowerCase()] on the ASCII range. *)
Definition lower (c : ascii) : ascii :=
  if is_upper c then ascii_of_nat (nat_of_ascii c + 32) else c.

Fixpoint toLowerCase (s : string) : string :=
  match s with
  | EmptyString => EmptyString
  | String c s' => String (lower c) (toLowerCase s')
  end.

(** Indexing [null], and calling a method of it. *)
Definition null_has_no_properties : value :=
  VError "TypeError" "Cannot read property '1' of null" None.

Definition null_has_no_method : value :=
  VError "TypeError" "Cannot call method 'forEach' of null" None.

(** The object [data] of one entry. *)
Definition data : Type := gmap string string.

(** The loop of lines 314-317 over the matching lines. *)
Fixpoint fields (ls : list string) (d : data) : outcome data :=
  match ls with
  | [] => Returned d
  | line :: ls' =>
      match field line with
      | None => Threw null_has_no_properties
      | Some (name, v) => fields ls' (<[toLowerCase name := v]> d)
      end
  end.

(** The body of the loop of line 310 for one entry: the commit and its
    data. *)
Definition parse_entry (entry : string) : outcome (string * data) :=
  match commit_of entry with
  | None => Threw null_has_no_properties
  | Some commit =>
      match body_of entry with
      | None => Threw null_has_no_properties
      | Some body =>
          match header_lines entry with
          | None => Threw null_has_no_method
          | Some ls =>
              match fields ls {[ "message" := Str.trim body ]} with
              | Returned d => Returned (commit, d)
              | Threw exn => Threw exn
              end
          end
      end
  end.

(** The loop of line 310 over the entries, [log] being the object built
    so far. *)
Fixpoint entries (es : list string) (log : gmap string data)
    : outcome (gmap string data) :=
  match es with
  | [] => Returned log
  | entry :: es' =>
      match parse_entry entry with
      | Returned (commit, d) => entries es' (<[commit := d]> log)
      | Threw exn => Threw exn
      end
  end.

(** Lines 310-320 for a text that is not empty: the object given to the
    callback, or the exception that leaves the callback uncalled. *)
Definition parse_log (text : string) : outcome (gmap string data) :=
  entries (Str.split nul text) ∅.

(** An entry the loop gets through. *)
Definition well_formed (entry : string) : bool :=
  match commit_of entry, body_of entry, header_lines entry with
  | Some _, Some _, Some _ => true
  | _, _, _ => false
  end.

End LogParse.

(** ** The history at the head: [log] (lines 332-344) *)

Module Log.

Inductive effect :=
| Callback (cb : callback) (arguments : list value)
| LogFile (version : value) (path : string) (cb : callback).
    (* that.logFile(version, path, callback) *)

(** The function that [log(path, callback)] gives to [getHeadSha]. *)
Definition log_k (path : string) (cb : callback) (arguments : list value)
    : effect :=
  let err := nth 0 arguments VUndef in
  let version := nth 1 arguments VUndef in
  if truthy err then Callback cb [err] else LogFile version path cb.

End Log.

(** ** Sample data *)

Module Samples.

(** Three hashes. *)
Definition sha1 : string := "1111111111111111111111111111111111111111".
Definition sha2 : string := "2222222222222222222222222222222222222222".
Definition sha3 : string := "3333333333333333333333333333333333333333".

(** Forty characters that are not hexadecimal digits. *)
Definition forty_Z : string := "ZZZZZZZZZZZZZZZZZZZZZZZZZZZZZZZZZZZZZZZZ".

(** Ten characters. *)
Definition ten : string := "abcdef1234".

(** Calls for ["fs:README"], one call for another key and an expiry. *)
Definition window : list Safe.input :=
  [Safe.Call "fs" ["README"] 2%nat; Safe.Call "fs" ["other"] 9%nat;
   Safe.Call "fs" ["README"] 3%nat; Safe.Expire "fs:README"].

(** What git prints for a path that a commit does not have. *)
Definition no_such_path : string :=
  "fatal: Path 'missing.txt' does not exist in '"
  +:+ sha1 +:+ "'" +:+ Str.newline.

(** The content of a blob, as [git show] prints it. *)
Definition blob_text : string := "hello" +:+ Str.newline.

(** The output of [git show-ref] in a repository with a branch, a
    remote-tracking branch and a tag of the same name. *)
Definition show_ref : string :=
  sha1 +:+ " refs/heads/main" +:+ Str.newline
  +:+ sha3 +:+ " refs/remotes/origin/main" +:+ Str.newline
  +:+ sha2 +:+ " refs/tags/main" +:+ Str.newline.

(** A repository whose [packed-refs] is empty and whose [HEAD] names a
    branch with a loose ref: three callers, and every read answered. *)
Definition empty_packed_refs : list HeadSha.input :=
  [HeadSha.Call 1%nat; HeadSha.Call 2%nat; HeadSha.Exists 0 true;
   HeadSha.ReadPackedRefs 0 VNull (VStr "");
   HeadSha.ReadHEAD 0 VNull (VStr ("ref: refs/heads/master" +:+ Str.newline));
   HeadSha.ReadRef 0 VNull (VStr (sha1 +:+ Str.newline));
   HeadSha.Call 3%nat; HeadSha.Expire].

(** A repository whose [packed-refs] is empty and whose [HEAD] is
    detached. *)
Definition detached_head : list HeadSha.input :=
  [HeadSha.Call 1%nat; HeadSha.Exists 0 true;
   HeadSha.ReadPackedRefs 0 VNull (VStr "");
   HeadSha.ReadHEAD 0 VNull (VStr (sha1 +:+ Str.newline))].

(** A lookup of the tag [main] by its full name, and then, before the
    cache slot expires, a lookup of the bare name [main]. *)
Definition tag_then_bare : list BranchSha.input :=
  [BranchSha.Call "tags/main" 1%nat;
   BranchSha.ShowRefClosed "tags/main" (Some 0%N) [show_ref] [];
   BranchSha.Call "main" 2%nat].

(** A value stored for a key at a hash, five seconds, a value stored for a
    live key, and the hundred milliseconds of its delay. *)
Definition stores : list Timed.event :=
  [Timed.ECall sha1 ["README"] 1%nat;
   Timed.EDone (sha1 +:+ ":README") [VNull; VStr "text"];
   Timed.EWait 5000;
   Timed.ECall "fs" ["README"] 2%nat;
   Timed.EDone "fs:README" [VNull; VStr "text"];
   Timed.EWait 100].

Definition after_stores : Timed.world :=
  default Timed.start (Timed.play "" stores Timed.start).

(** What git prints for a revision it does not know. *)
Definition bad_revision : string := "fatal: bad revision 'fs'" +:+ Str.newline.

(** A log parser that is never reached. *)
Definition no_parse (text : string) : outcome (list value) :=
  Returned [VNull; VUndef].

(** What the three files of a repository on [master] hold, the ref being
    loose as well as packed. *)
Definition head_text : string := "ref: refs/heads/master" +:+ Str.newline.

Definition packed_text : string :=
  "# pack-refs with: peeled" +:+ Str.newline
  +:+ sha2 +:+ " refs/heads/master" +:+ Str.newline.

Definition loose_text : string := sha1 +:+ Str.newline.

(** The read of [HEAD] answered first, then [packed-refs], then the ref. *)
Definition reads (a : nat) (ref : value) : list HeadSha.input :=
  [HeadSha.ReadHEAD a VNull (VStr head_text);
   HeadSha.ReadPackedRefs a VNull (VStr packed_text);
   HeadSha.ReadRef a VNull ref].

(** An error of the file system. *)
Definition EACCES : value := VError "Error" "EACCES, Permission denied" (Some 13).

(** An instance whose HEAD was resolved a moment ago. *)
Definition resolved : HeadSha.inst :=
  HeadSha.Inst (VStr sha1) QFalse "/srv/repo/.git" []
    [HeadSha.Locals (VStr "refs/heads/master") (VStr packed_text)
       (VStr loose_text)].

(** A repository whose branches have plus signs in their names. *)
Definition show_ref_plus : string :=
  sha1 +:+ " refs/heads/c++" +:+ Str.newline
  +:+ sha2 +:+ " refs/remotes/origin/a+b" +:+ Str.newline
  +:+ sha3 +:+ " refs/remotes/origin/aab" +:+ Str.newline
  +:+ sha1 +:+ " refs/remotes/origin/c++" +:+ Str.newline.

(** What [packed-refs] holds when the branch [c++] is packed, and a
    [HEAD] on that branch. *)
Definition packed_plus : string :=
  "# pack-refs with: peeled" +:+ Str.newline
  +:+ sha1 +:+ " refs/heads/c++" +:+ Str.newline.

Definition head_plus : string := "ref: refs/heads/c++" +:+ Str.newline.

(** A repository with a local branch [feature/login] and no remote. *)
Definition show_ref_feature : string :=
  sha1 +:+ " refs/heads/feature/login" +:+ Str.newline.

(** The header of a listing of [lib] at a commit. *)
Definition tree_of_lib : string := sha1 +:+ ":lib".

(** One entry of [git log -z --summary], and a log of two. *)
Definition log_entry (commit message : string) : string :=
  "commit " +:+ commit +:+ Str.newline
  +:+ "Author: A U Thor <author@example.com>" +:+ Str.newline
  +:+ "Date:   Thu Apr 7 15:13:13 2005 -0700" +:+ Str.newline
  +:+ Str.newline
  +:+ "    " +:+ message +:+ Str.newline.

Definition log_text : string :=
  log_entry sha2 "second" +:+ String LogParse.nul (log_entry sha1 "first").

(** The answers of [fs.stat] for a directory of three names, the last
    name answered first. *)
Definition three_names : list string := ["README"; "lib"; "test.js"].

Definition three_answers : list LiveDir.answer :=
  [("test.js", VNull, false); ("README", VNull, false); ("lib", VNull, true)].

End Samples.

(** * Properties *)

(** ** Strings *)

Module StrFacts.

Lemma append_cons c a b : String c a +:+ b = String c (a +:+ b).
Proof. reflexivity. Qed.

Lemma append_assoc a b c : (a +:+ b) +:+ c = a +:+ (b +:+ c).
Proof.
  induction a as [|x a IH]; [reflexivity|].
  now rewrite !append_cons, IH.
Qed.

Lemma append_nil_r a : a +:+ "" = a.
Proof.
  induction a as [|x a IH]; [reflexivity|].
  now rewrite append_cons, IH.
Qed.

Lemma append_inj_length a : forall b x y,
  String.length a = String.length b -> a +:+ x = b +:+ y -> a = b.
Proof.
  induction a as [|c a IH]; intros [|d b] x y Hlen Heq; try discriminate.
  - reflexivity.
  - simpl in Hlen. injection Hlen as Hlen.
    change (String c (a +:+ x) = String d (b +:+ y)) in Heq.
    injection Heq as -> Heq. f_equal. eapply IH; eauto.
Qed.

Lemma take_hex_length n : forall s h r,
  Str.take_hex n s = Some (h, r) -> s = h +:+ r /\ String.length h = n.
Proof.
  induction n as [|n IH]; intros s h r Ht; simpl in Ht.
  - injection Ht as <- <-. auto.
  - destruct s as [|c s]; [discriminate|].
    destruct (Str.is_hex c); [|discriminate].
    destruct (Str.take_hex n s) as [[h' r']|] eqn:Hs; [|discriminate].
    injection Ht as <- <-. destruct (IH _ _ _ Hs) as [-> <-]. auto.
Qed.

Lemma is_hash_length h : Str.is_hash h = true -> String.length h = 40%nat.
Proof.
  unfold Str.is_hash. intros Hh.
  destruct (Str.take_hex 40 h) as [[a [|c r]]|] eqn:Ht; try discriminate.
  destruct (take_hex_length _ _ _ _ Ht) as [-> Hlen].
  now rewrite append_nil_r.
Qed.

Lemma is_hash_second h :
  Str.is_hash h = true ->
  exists c1 c2 h', h = String c1 (String c2 h') /\ Str.is_hex c2 = true.
Proof.
  unfold Str.is_hash. intros Hh.
  destruct h as [|c1 [|c2 h']]; try discriminate.
  - simpl in Hh. destruct (Str.is_hex c1); discriminate.
  - exists c1, c2, h'. split; [reflexivity|].
    cbn [Str.take_hex] in Hh.
    destruct (Str.is_hex c1); [|discriminate].
    destruct (Str.is_hex c2); [reflexivity | discriminate].
Qed.

Lemma length_append a b :
  String.length (a +:+ b) = (String.length a + String.length b)%nat.
Proof.
  induction a as [|x a IH]; [reflexivity|].
  rewrite append_cons. simpl. now rewrite IH.
Qed.

End StrFacts.

(** ** The decorator *)

Module SafeFacts.
Import Safe.

Lemma flush_map q arguments :
  flush q arguments = map (fun cb => Callback cb arguments) q.
Proof. induction q as [|cb q IH]; simpl; [reflexivity | now rewrite IH]. Qed.

Lemma cached_insert_ne st key key' v q :
  key' <> key ->
  cached (Store (<[key' := v]> (cache st)) q) key = cached st key.
Proof. intros Hne. unfold cached. simpl. now rewrite lookup_insert_ne. Qed.

Lemma filter_app_nil {A} (f : A -> bool) l1 l2 :
  List.filter f l1 = [] -> List.filter f l2 = [] ->
  List.filter f (l1 ++ l2) = [].
Proof. intros H1 H2. now rewrite List.filter_app, H1, H2. Qed.

Lemma flush_no_apply key q arguments :
  List.filter (is_apply key) (flush q arguments) = [].
Proof. induction q; simpl; auto. Qed.

(** One input inside the window of [key]: the queue of [key] grows by the
    valid callers of [key], nothing is cached for it, and the wrapped
    operation is not called for it. *)
Lemma window_step NODE_ENV key i st q :
  queue st !! key = Some (QArr q) ->
  cached st key = false ->
  no_done key [i] = true ->
  queue (fst (step NODE_ENV i st)) !! key = Some (QArr (q ++ callers key [i]))
  /\ cached (fst (step NODE_ENV i st)) key = false
  /\ List.filter (is_apply key) (snd (step NODE_ENV i st)) = [].
Proof.
  intros Hq Hc Hnd. destruct i as [v rest cb|v key' args|key'|cb key']; simpl in *.
  - unfold wrapper.
    destruct (valid_version v) eqn:Hv; simpl;
      [|rewrite app_nil_r; auto].
    destruct (String.eqb_spec (key_of (v :: rest)) key) as [->|Hne].
    + rewrite Hc, Hq. simpl. rewrite lookup_insert_eq. auto.
    + rewrite app_nil_r.
      destruct (cached st (key_of (v :: rest))); simpl; [auto|].
      destruct (queue st !! key_of (v :: rest)) as [[|q']|] eqn:Hq'; simpl;
        rewrite ?lookup_insert_ne by assumption;
        repeat split; auto;
        destruct (String.eqb_spec (key_of (v :: rest)) key); congruence.
  - destruct (String.eqb_spec key' key) as [->|Hne]; [discriminate|].
    unfold completion. simpl.
    rewrite lookup_insert_ne, app_nil_r by assumption.
    repeat split; auto.
    + destruct (truthy (nth 1 args VUndef)); simpl; auto.
      now rewrite cached_insert_ne.
    + apply filter_app_nil; [|apply flush_no_apply].
      destruct (truthy (nth 1 args VUndef)); reflexivity.
  - rewrite app_nil_r. repeat split; auto.
    unfold cached, expire. simpl.
    destruct (decide (key' = key)) as [->|Hne].
    + now rewrite lookup_insert_eq.
    + now rewrite lookup_insert_ne.
  - rewrite app_nil_r. auto.
Qed.

Lemma no_done_cons key i ins :
  no_done key (i :: ins) = no_done key [i] && no_done key ins.
Proof. destruct i; simpl; rewrite ?andb_true_r; reflexivity. Qed.

Lemma callers_cons key i ins :
  callers key (i :: ins) = callers key [i] ++ callers key ins.
Proof.
  destruct i; simpl; auto.
  destruct (valid_version version && _); reflexivity.
Qed.

Lemma run_cons NODE_ENV i ins st :
  run NODE_ENV (i :: ins) st =
  (fst (run NODE_ENV ins (fst (step NODE_ENV i st))),
   snd (step NODE_ENV i st) ++ snd (run NODE_ENV ins (fst (step NODE_ENV i st)))).
Proof.
  simpl. destruct (step NODE_ENV i st) as [st1 e1]. simpl.
  destruct (run NODE_ENV ins st1). reflexivity.
Qed.

(** The same over a whole window. *)
Lemma window_run NODE_ENV key ins : forall st q,
  queue st !! key = Some (QArr q) ->
  cached st key = false ->
  no_done key ins = true ->
  queue (fst (run NODE_ENV ins st)) !! key = Some (QArr (q ++ callers key ins))
  /\ cached (fst (run NODE_ENV ins st)) key = false
  /\ List.filter (is_apply key) (snd (run NODE_ENV ins st)) = [].
Proof.
  induction ins as [|i ins IH]; intros st q Hq Hc Hnd.
  - simpl. rewrite app_nil_r. auto.
  - rewrite no_done_cons in Hnd. apply andb_true_iff in Hnd as [Hi Hins].
    destruct (window_step NODE_ENV key i st q Hq Hc Hi) as (Hq1 & Hc1 & Ha1).
    destruct (IH _ _ Hq1 Hc1 Hins) as (Hq2 & Hc2 & Ha2).
    rewrite run_cons, callers_cons, app_assoc. cbn [fst snd].
    repeat split; auto. now apply filter_app_nil.
Qed.

(** The first call for a key that is neither cached nor in flight. *)
Lemma first_call version rest cb st :
  valid_version version = true ->
  cached st (key_of (version :: rest)) = false ->
  in_flight st (key_of (version :: rest)) = false ->
  wrapper version rest cb st =
    (Store (cache st) (<[key_of (version :: rest) := QArr [cb]]> (queue st)),
     [Apply version (version :: rest)]).
Proof.
  intros Hv Hc Hf. unfold wrapper, in_flight in *. rewrite Hv, Hc. simpl.
  destruct (queue st !! key_of (version :: rest)) as [[|q]|];
    [reflexivity | discriminate | reflexivity].
Qed.

(** The state when the completion of [key] runs: the queue holds the first
    caller and the valid callers of the window, nothing is cached for the
    key, and the wrapped operation was called for it once. *)
Lemma before_completion NODE_ENV st version rest cb0 window :
  valid_version version = true ->
  cached st (key_of (version :: rest)) = false ->
  in_flight st (key_of (version :: rest)) = false ->
  no_done (key_of (version :: rest)) window = true ->
  queue (fst (run NODE_ENV (Call version rest cb0 :: window) st))
    !! key_of (version :: rest)
    = Some (QArr (cb0 :: callers (key_of (version :: rest)) window))
  /\ cached (fst (run NODE_ENV (Call version rest cb0 :: window) st))
       (key_of (version :: rest)) = false
  /\ List.filter (is_apply (key_of (version :: rest)))
       (snd (run NODE_ENV (Call version rest cb0 :: window) st))
     = [Apply version (version :: rest)].
Proof.
  intros Hv Hc Hf Hnd. set (key := key_of (version :: rest)) in *.
  rewrite run_cons. cbn [step fst snd].
  rewrite (first_call _ _ cb0 st Hv Hc Hf). cbn [fst snd]. fold key.
  set (st1 := Store _ _).
  assert (Hq1 : queue st1 !! key = Some (QArr [cb0]))
    by (subst st1; simpl; apply lookup_insert_eq).
  assert (Hc1 : cached st1 key = false) by exact Hc.
  destruct (window_run NODE_ENV key window st1 [cb0] Hq1 Hc1 Hnd)
    as (Hq2 & Hc2 & Ha2).
  repeat split; auto.
  simpl. unfold key at 1. rewrite String.eqb_refl. now rewrite Ha2.
Qed.

(** C1.  For a key that is neither cached nor in flight, the first call
    starts the wrapped operation; whatever arrives before its completion
    (more calls for the key, calls and completions for other keys,
    expiries, deferred deliveries), the wrapped operation is called for
    the key exactly once, and the completion invokes every caller of the
    key, in order of arrival, with the same arguments, and clears the
    in-flight marker. *)
Theorem one_call_per_key NODE_ENV st version rest cb0 window arguments :
  valid_version version = true ->
  cached st (key_of (version :: rest)) = false ->
  in_flight st (key_of (version :: rest)) = false ->
  no_done (key_of (version :: rest)) window = true ->
  List.filter (is_apply (key_of (version :: rest)))
    (snd (run NODE_ENV (Call version rest cb0 :: window) st))
    = [Apply version (version :: rest)]
  /\ snd (completion NODE_ENV version (key_of (version :: rest)) arguments
            (fst (run NODE_ENV (Call version rest cb0 :: window) st)))
     = ((if truthy (nth 1 arguments VUndef)
         then [SetTimeout (key_of (version :: rest)) (ttl NODE_ENV version)]
         else [])
        ++ map (fun cb => Callback cb arguments)
             (cb0 :: callers (key_of (version :: rest)) window))%list
  /\ in_flight
       (fst (completion NODE_ENV version (key_of (version :: rest)) arguments
               (fst (run NODE_ENV (Call version rest cb0 :: window) st))))
       (key_of (version :: rest)) = false.
Proof.
  intros Hv Hc Hf Hnd.
  destruct (before_completion NODE_ENV st version rest cb0 window Hv Hc Hf Hnd)
    as (Hq & _ & Ha).
  split; [exact Ha|]. split.
  - unfold completion. cbn [fst snd]. rewrite Hq, flush_map.
    destruct (truthy (nth 1 arguments VUndef)); reflexivity.
  - unfold completion, in_flight. cbn [fst snd queue].
    now rewrite lookup_insert_eq.
Qed.

Lemma one_call_per_key_witness :
  List.filter (is_apply "fs:README")
    (snd (run "" (Call "fs" ["README"] 1%nat :: Samples.window) empty))
    = [Apply "fs" ["fs"; "README"]]
  /\ snd (completion "" "fs" "fs:README" [VNull; VStr "text"]
            (fst (run "" (Call "fs" ["README"] 1%nat :: Samples.window) empty)))
     = [SetTimeout "fs:README" 100;
        Callback 1%nat [VNull; VStr "text"];
        Callback 2%nat [VNull; VStr "text"];
        Callback 3%nat [VNull; VStr "text"]]
  /\ in_flight
       (fst (completion "" "fs" "fs:README" [VNull; VStr "text"]
               (fst (run "" (Call "fs" ["README"] 1%nat :: Samples.window)
                       empty))))
       "fs:README" = false.
Proof.
  apply (one_call_per_key "" empty "fs" ["README"] 1%nat Samples.window
           [VNull; VStr "text"]); vm_compute; reflexivity.
Defined.

(** C9.  When the resolution for a key completes without a truthy value,
    the cache is left as it was and holds nothing for the key, the waiters
    receive the arguments of the completion (the error), the in-flight
    marker is cleared, and the next call for the key calls the wrapped
    operation again. *)
Theorem failure_not_cached NODE_ENV st version rest cb0 window arguments :
  valid_version version = true ->
  cached st (key_of (version :: rest)) = false ->
  in_flight st (key_of (version :: rest)) = false ->
  no_done (key_of (version :: rest)) window = true ->
  truthy (nth 1 arguments VUndef) = false ->
  let st1 := fst (run NODE_ENV (Call version rest cb0 :: window) st) in
  let done :=
    completion NODE_ENV version (key_of (version :: rest)) arguments st1 in
  cache (fst done) = cache st1
  /\ cached (fst done) (key_of (version :: rest)) = false
  /\ snd done = map (fun cb => Callback cb arguments)
                  (cb0 :: callers (key_of (version :: rest)) window)
  /\ in_flight (fst done) (key_of (version :: rest)) = false
  /\ forall version' rest' cb',
       valid_version version' = true ->
       key_of (version' :: rest') = key_of (version :: rest) ->
       snd (wrapper version' rest' cb' (fst done))
         = [Apply version' (version' :: rest')].
Proof.
  intros Hv Hc Hf Hnd Hval st1 done.
  set (key := key_of (version :: rest)) in *.
  destruct (before_completion NODE_ENV st version rest cb0 window Hv Hc Hf Hnd)
    as (Hq & Hc1 & _).
  fold key in Hq, Hc1. fold st1 in Hq, Hc1.
  assert (Hcache : cache (fst done) = cache st1)
    by (subst done; unfold completion; rewrite Hval; reflexivity).
  assert (Hc2 : cached (fst done) key = false)
    by (unfold cached in *; now rewrite Hcache).
  assert (Hfl : in_flight (fst done) key = false).
  { subst done. unfold completion, in_flight. cbn [fst queue].
    now rewrite lookup_insert_eq. }
  split; [exact Hcache|]. split; [exact Hc2|]. split; [|split; [exact Hfl|]].
  - subst done. unfold completion. cbn [snd]. rewrite Hq, Hval, flush_map.
    reflexivity.
  - intros version' rest' cb' Hv' Hk.
    rewrite first_call; [reflexivity | assumption | | ]; now rewrite Hk.
Qed.

Lemma failure_not_cached_witness :
  snd (completion "" "fs" "fs:README" [Error "EACCES"]
         (fst (run "" (Call "fs" ["README"] 1%nat :: Samples.window) empty)))
    = [Callback 1%nat [Error "EACCES"]; Callback 2%nat [Error "EACCES"];
       Callback 3%nat [Error "EACCES"]]
  /\ snd (run ""
            (Call "fs" ["README"] 1%nat :: Samples.window
             ++ [Done "fs" "fs:README" [Error "EACCES"];
                 Call "fs" ["README"] 4%nat]) empty)
     = [Apply "fs" ["fs"; "README"]; Apply "fs" ["fs"; "other"];
        Callback 1%nat [Error "EACCES"]; Callback 2%nat [Error "EACCES"];
        Callback 3%nat [Error "EACCES"]; Apply "fs" ["fs"; "README"]].
Proof.
  split.
  - apply (failure_not_cached "" empty "fs" ["README"] 1%nat Samples.window
             [Error "EACCES"]); vm_compute; reflexivity.
  - vm_compute. reflexivity.
Defined.

(** C2, as the code has it.  A call whose first argument has neither
    length 40 nor the value ["fs"] invokes its callback, before it
    returns, with the error [Invalid version <version>]; it does not call
    the wrapped operation and leaves the cache and the queues as they
    were. *)
Theorem invalid_version_rejected st version rest cb :
  valid_version version = false ->
  wrapper version rest cb st
    = (st, [Callback cb [Error ("Invalid version " +:+ version)]]).
Proof. intros Hv. unfold wrapper. now rewrite Hv. Qed.

Lemma invalid_version_rejected_witness :
  wrapper Samples.ten ["README"] 1%nat empty
    = (empty, [Callback 1%nat [Error "Invalid version abcdef1234"]]).
Proof.
  apply (invalid_version_rejected empty Samples.ten ["README"] 1%nat).
  vm_compute. reflexivity.
Defined.

(** C2 fails as stated.  Forty characters that are not a hexadecimal hash
    pass the test of line 84: the call fails with nothing, calls the
    wrapped operation and creates a queue.  And for a ten-character
    version the error is handed to the callback within the call, not on a
    later tick. *)
Lemma invalid_version_counterexample :
  Str.is_hash Samples.forty_Z = false
  /\ Samples.forty_Z <> "fs"
  /\ snd (wrapper Samples.forty_Z ["README"] 1%nat empty)
     = [Apply Samples.forty_Z [Samples.forty_Z; "README"]]
  /\ in_flight (fst (wrapper Samples.forty_Z ["README"] 1%nat empty))
       (key_of [Samples.forty_Z; "README"]) = true
  /\ Str.is_hash Samples.ten = false
  /\ Samples.ten <> "fs"
  /\ snd (wrapper Samples.ten ["README"] 1%nat empty)
     = [Callback 1%nat [Error "Invalid version abcdef1234"]].
Proof. repeat split; try discriminate; vm_compute; reflexivity. Qed.

End SafeFacts.

(** ** The process executor *)

Module ExecFacts.
Import Exec StrFacts.

(** A pattern without anchors found in a text is found in any text that
    ends with it. *)
Lemma search_suffix {A} (here : string -> option A) p s :
  is_Some (Str.search here s) -> is_Some (Str.search here (p +:+ s)).
Proof.
  intros Hs. induction p as [|c p IH]; [exact Hs|].
  rewrite append_cons. simpl. destruct (here (String c (p +:+ s))); eauto.
Qed.

Lemma gitENOENT_suffix p s :
  Str.gitENOENT_test s = true -> Str.gitENOENT_test (p +:+ s) = true.
Proof.
  unfold Str.gitENOENT_test. intros Hs.
  destruct (search_suffix Str.gitENOENT_here p s) as [x Hx].
  - destruct (Str.search Str.gitENOENT_here s); [eauto | discriminate].
  - now rewrite Hx.
Qed.

Lemma failed_nonzero n : n <> 0%N -> failed (Some n) = true.
Proof. intros Hn. simpl. apply N.ltb_lt. lia. Qed.

(** C8.  When the subprocess exits with a nonzero status, [gitExec] calls
    its callback with one argument, an error whose message is the command
    line ([git], the prefix of the instance and the commands), a newline
    and the text collected from the standard error; when that text matches
    [gitENOENT] the error carries [errno = process.ENOENT].  So the read of
    a file at a 40-character version, which is [git show version:path],
    hands such a marked error to its callback when git reports that the
    path does not exist. *)
Theorem gitExec_failure {K} gitCommands commands encoding (k : K) n
    stdout stderr :
  n <> 0%N ->
  (exists errno,
     close gitCommands commands encoding (Some k) (Some n) stdout stderr
       = Returned (k, [VError "Error"
                         ("git " +:+ String.concat " " (gitCommands ++ commands)
                          +:+ Str.newline +:+ String.concat "" stderr)
                         errno])
     /\ (Str.gitENOENT_test (String.concat "" stderr) = true ->
         errno = Some process_ENOENT))
  /\ forall workTree version path enc,
       String.length version = 40%nat ->
       commands = ["show"; version +:+ ":" +:+ path] ->
       encoding = AVal (VStr enc) ->
       Str.gitENOENT_test (String.concat "" stderr) = true ->
       Accessor.readFile workTree version [path; enc]
         = Some (Accessor.GitExec commands (VStr enc))
       /\ close gitCommands commands encoding (Some k) (Some n) stdout stderr
          = Returned (k, [VError "Error" (message (gitCommands ++ commands) stderr)
                            (Some process_ENOENT)]).
Proof.
  intros Hn.
  assert (Hmark : Str.gitENOENT_test (String.concat "" stderr) = true ->
                  Str.gitENOENT_test (message (gitCommands ++ commands) stderr)
                  = true).
  { intros Ht. unfold message. simpl to_string.
    rewrite <- !append_assoc. now apply gitENOENT_suffix. }
  split.
  - eexists. split.
    + unfold close. rewrite (failed_nonzero n Hn). reflexivity.
    + intros Ht. simpl. now rewrite (Hmark Ht).
  - intros workTree version path enc Hlen -> -> Ht. split.
    + unfold Accessor.readFile. now rewrite Hlen.
    + unfold close. rewrite (failed_nonzero n Hn). now rewrite (Hmark Ht).
Qed.

Lemma gitExec_failure_witness :
  close ["--git-dir=/srv/repo.git"] ["show"; Samples.sha1 +:+ ":missing.txt"]
    (AVal (VStr "utf8")) (Some 1%nat) (Some 128%N) [] [Samples.no_such_path]
  = Returned (1%nat,
      [VError "Error"
         (message ["--git-dir=/srv/repo.git"; "show";
                   Samples.sha1 +:+ ":missing.txt"] [Samples.no_such_path])
         (Some process_ENOENT)]).
Proof.
  refine (proj2 (proj2 (gitExec_failure ["--git-dir=/srv/repo.git"]
            ["show"; Samples.sha1 +:+ ":missing.txt"] (AVal (VStr "utf8"))
            1%nat 128%N [] [Samples.no_such_path] _)
          "" Samples.sha1 "missing.txt" "utf8" _ _ _ _));
    vm_compute; (reflexivity || discriminate).
Defined.

End ExecFacts.

(** ** Directory listings and logs *)

Module AccessorFacts.
Import Accessor.

(** C4, on the code.  A directory listing at a 40-character version reads
    [version:path] through the decorated [readFile]; when the text it gets
    does not start with a [tree] header and an empty line, line 401 reads
    the variable [combined], which nothing declares: a [ReferenceError] is
    thrown and the callback is not called, with no error at all. *)
Theorem readDir_not_a_directory workTree version path text :
  String.length version = 40%nat ->
  Str.tree_header text = None ->
  readDir workTree version path = ReadFile version path "utf-8"
  /\ readDir_k [VNull; VStr text] = Threw combined_is_not_defined.
Proof.
  intros Hlen Ht. split.
  - unfold readDir. now rewrite Hlen.
  - unfold readDir_k. simpl. now rewrite Ht.
Qed.

Lemma readDir_not_a_directory_witness :
  readDir "/srv/repo" Samples.sha1 "README"
    = ReadFile Samples.sha1 "README" "utf-8"
  /\ readDir_k [VNull; VStr Samples.blob_text] = Threw combined_is_not_defined.
Proof.
  apply (readDir_not_a_directory "/srv/repo" Samples.sha1 "README"
           Samples.blob_text); vm_compute; reflexivity.
Defined.

(** The listing of the spec's example, for comparison. *)
Example readDir_listing :
  readDir_k
    [VNull; VStr ("tree " +:+ Samples.sha1 +:+ ":lib" +:+ Str.newline
                  +:+ Str.newline +:+ "a.txt" +:+ Str.newline
                  +:+ "sub/" +:+ Str.newline)]
  = Returned [VNull; VDir ["a.txt"] ["sub"]].
Proof. vm_compute. reflexivity. Qed.

Section Log.
Variable parse_log : string -> outcome (list value).

(** C5, as the code has it.  A log query at the live sentinel is not
    refused: the decorator accepts ["fs"], the operation runs
    [git log -z --summary fs -- path], and the caller gets what that
    subprocess gives: the executor's error when it exits with a nonzero
    status, an empty list when it exits with status 0 and prints nothing. *)
Theorem logFile_live NODE_ENV st path cb gitCommands exitCode stdout stderr :
  Safe.cached st (Safe.key_of ["fs"; path]) = false ->
  Safe.in_flight st (Safe.key_of ["fs"; path]) = false ->
  let started := Safe.wrapper "fs" [path] cb st in
  let finish arguments :=
    snd (Safe.completion NODE_ENV "fs" (Safe.key_of ["fs"; path]) arguments
           (fst started)) in
  snd started = [Safe.Apply "fs" ["fs"; path]]
  /\ logFile "fs" path
     = GitExec ["log"; "-z"; "--summary"; "fs"; "--"; path] (VStr "utf8")
  /\ (Exec.failed exitCode = true ->
      exists errno,
        let err :=
          VError "Error"
            (Exec.message (gitCommands ++ logFile_args "fs" path) stderr)
            errno in
        logFile_closed parse_log gitCommands "fs" path exitCode stdout stderr
          = Returned [err]
        /\ finish [err] = [Safe.Callback cb [err]])
  /\ (Exec.failed exitCode = false ->
      String.concat "" stdout = "" ->
      logFile_closed parse_log gitCommands "fs" path exitCode stdout stderr
        = Returned [VNull; VArr []]
      /\ finish [VNull; VArr []]
         = [Safe.SetTimeout (Safe.key_of ["fs"; path]) 100;
            Safe.Callback cb [VNull; VArr []]]).
Proof.
  intros Hc Hf started finish.
  assert (Hstart : started
    = (Safe.Store (Safe.cache st)
         (<[Safe.key_of ["fs"; path] := QArr [cb]]> (Safe.queue st)),
       [Safe.Apply "fs" ["fs"; path]]))
    by (apply SafeFacts.first_call; auto).
  assert (Hfin : forall arguments,
    finish arguments
    = ((if truthy (nth 1 arguments VUndef)
        then [Safe.SetTimeout (Safe.key_of ["fs"; path]) (Safe.ttl NODE_ENV "fs")]
        else []) ++ [Safe.Callback cb arguments])%list).
  { intros arguments. subst finish. cbv beta. rewrite Hstart.
    unfold Safe.completion. cbn [fst snd Safe.queue].
    rewrite lookup_insert_eq.
    destruct (truthy (nth 1 arguments VUndef)); reflexivity. }
  split; [now rewrite Hstart|]. split; [reflexivity|]. split.
  - intros Hx. eexists. cbv zeta. split.
    + unfold logFile_closed, Exec.close. rewrite Hx. reflexivity.
    + rewrite Hfin. reflexivity.
  - intros Hx Hout. split.
    + unfold logFile_closed, Exec.close. rewrite Hx.
      unfold Exec.Tools_join. rewrite Hout. reflexivity.
    + rewrite Hfin. reflexivity.
Qed.

End Log.

Lemma logFile_live_witness :
  snd (Safe.wrapper "fs" ["README"] 1%nat Safe.empty)
    = [Safe.Apply "fs" ["fs"; "README"]]
  /\ logFile "fs" "README"
     = GitExec ["log"; "-z"; "--summary"; "fs"; "--"; "README"] (VStr "utf8")
  /\ exists errno,
       logFile_closed Samples.no_parse ["--git-dir=/srv/repo/.git"] "fs"
         "README" (Some 128%N) [] [Samples.bad_revision]
       = Returned
           [VError "Error"
              (Exec.message
                 (["--git-dir=/srv/repo/.git"] ++ logFile_args "fs" "README")
                 [Samples.bad_revision]) errno].
Proof.
  pose proof (logFile_live Samples.no_parse "" Safe.empty "README" 1%nat
                ["--git-dir=/srv/repo/.git"] (Some 128%N) []
                [Samples.bad_revision] eq_refl eq_refl) as (H1 & H2 & H3 & _).
  split; [exact H1|]. split; [exact H2|].
  destruct (H3 eq_refl) as [errno [Hclosed _]]. exists errno. exact Hclosed.
Defined.

(** C5 fails as stated.  In a repository where [fs] names a revision and
    no commit touches the path, [git log] exits with status 0 and prints
    nothing: the caller of [logFile("fs", "README", cb)] receives no error
    and an empty list. *)
Lemma logFile_live_counterexample :
  snd (Safe.wrapper "fs" ["README"] 1%nat Safe.empty)
    = [Safe.Apply "fs" ["fs"; "README"]]
  /\ logFile_closed Samples.no_parse ["--git-dir=/srv/repo/.git"] "fs" "README"
       (Some 0%N) [] []
     = Returned [VNull; VArr []]
  /\ snd (Safe.completion "" "fs" "fs:README" [VNull; VArr []]
            (fst (Safe.wrapper "fs" ["README"] 1%nat Safe.empty)))
     = [Safe.SetTimeout "fs:README" 100;
        Safe.Callback 1%nat [VNull; VArr []]].
Proof. repeat split; vm_compute; reflexivity. Qed.

End AccessorFacts.

(** ** The HEAD resolver *)

Module HeadShaFacts.
Import HeadSha.

Section Facts.
Context (NODE_ENV : string) {E : RegExp.Engine}.

Lemma head_run_cons i ins st :
  run NODE_ENV (i :: ins) st =
  (fst (run NODE_ENV ins (fst (step NODE_ENV i st))),
   snd (step NODE_ENV i st) ++ snd (run NODE_ENV ins (fst (step NODE_ENV i st)))).
Proof.
  simpl. destruct (step NODE_ENV i st) as [st1 e1]. simpl.
  destruct (run NODE_ENV ins st1). reflexivity.
Qed.

(** C7, on the code.  With [packed-refs] absent, [getHeadSha] starts
    [git gc] once, but hands [gitExec] its continuation in the place of the
    encoding: when the subprocess closes, whatever its status, the listener
    calls the undefined callback and throws.  [getHEAD] does not run: no
    file is read and no caller is called back.  With [packed-refs] present
    the two reads start and [git gc] is not run. *)
Theorem gc_continuation_lost gitDir gitCommands cb exitCode stdout stderr :
  String.eqb gitDir "" = false ->
  snd (run NODE_ENV [Call cb; Exists 0 false;
                     GcClosed 0 exitCode stdout stderr]
         (init gitDir gitCommands))
  = [PathExists 0; GitExec ["gc"] (Exec.AFun (AfterGc 0)) None;
     Uncaught Exec.not_a_function]
  /\ snd (run NODE_ENV [Call cb; Exists 0 true] (init gitDir gitCommands))
     = [PathExists 0; ReadFile 0 PackedRefs; ReadFile 0 HEAD].
Proof.
  intros Hdir. unfold run, step, getHeadSha, init. simpl. rewrite Hdir. simpl.
  unfold on_close, Exec.close.
  destruct (Exec.failed exitCode); split; reflexivity.
Qed.

Lemma checkDone_stuck a st :
  truthy (packedRefs (vars a st)) = false -> checkDone NODE_ENV a st = (st, []).
Proof.
  intros Hp. unfold checkDone. rewrite Hp, andb_false_r. reflexivity.
Qed.

Lemma vars_set_vars a a' l st :
  vars a (set_vars a' l st) = l \/ vars a (set_vars a' l st) = vars a st.
Proof.
  unfold vars, set_vars. simpl.
  destruct (decide (a' = a)) as [->|Hne].
  - destruct (decide (a < length (acts st))%nat) as [Hlt|Hge].
    + left. now rewrite list_lookup_insert_eq.
    + right. now rewrite list_insert_ge by lia.
  - right. now rewrite list_lookup_insert_ne.
Qed.

Lemma stuck_set_vars a l st :
  stuck st -> truthy (packedRefs l) = false -> stuck (set_vars a l st).
Proof.
  intros (Hc & Hd & Hp) Hl. repeat split; auto.
  intros a'. destruct (vars_set_vars a' a l st) as [-> | ->]; auto.
Qed.

Lemma no_callback_app (es1 es2 : list effect) :
  List.filter is_callback es1 = [] -> List.filter is_callback es2 = [] ->
  List.filter is_callback (es1 ++ es2) = [].
Proof. intros H1 H2. now rewrite List.filter_app, H1, H2. Qed.

Lemma stuck_step i st :
  stuck st -> quiet i = true ->
  stuck (fst (step NODE_ENV i st))
  /\ List.filter is_callback (snd (step NODE_ENV i st)) = [].
Proof.
  intros Hst Hq. pose proof Hst as (Hc & Hd & Hp).
  assert (Hand : forall b c, negb b && c = true -> b = false /\ c = true)
    by (intros [] []; simpl; auto).
  destruct i as [cb|a found|a x o e|a err result|a err result|a err result|];
    simpl in *.
  - unfold getHeadSha. rewrite Hc.
    destruct (_shaQueue st) as [|q]; [rewrite Hd|]; simpl; split; auto.
    + repeat split; auto. intros a. unfold vars. simpl.
      destruct (decide (a < length (acts st))%nat) as [Hlt|Hge].
      * rewrite lookup_app_l by assumption. apply (Hp a).
      * destruct (decide (a = length (acts st))) as [->|Hne].
        -- now rewrite list_lookup_middle.
        -- rewrite lookup_ge_None_2; [reflexivity|].
           rewrite length_app. simpl. lia.
  - unfold on_exists, getHEAD. destruct found; simpl; auto.
  - unfold on_close, Exec.close.
    destruct (Exec.failed x); simpl; auto.
  - apply Hand in Hq as [He Hr]. apply bool_decide_eq_true in Hr as ->.
    unfold on_packedRefs. rewrite He.
    rewrite checkDone_stuck.
    + split; [|reflexivity]. now apply stuck_set_vars.
    + destruct (vars_set_vars a a (Locals (head (vars a st)) (VStr "")
                  (master (vars a st))) st) as [-> | ->]; auto.
  - apply Hand in Hq as [He Hh].
    destruct (Str.head_ref (to_string result)) as [h|] eqn:Hh'; [|discriminate].
    unfold on_HEAD. rewrite He, Hh'.
    rewrite checkDone_stuck.
    + split; [|reflexivity]. apply stuck_set_vars; auto. apply Hp.
    + destruct (vars_set_vars a a (Locals (VStr h) (packedRefs (vars a st))
                  (master (vars a st))) st) as [-> | ->]; auto; apply Hp.
  - unfold on_ref. rewrite checkDone_stuck.
    + split; [|reflexivity]. apply stuck_set_vars; auto. apply Hp.
    + destruct (vars_set_vars a a (Locals (head (vars a st))
                  (packedRefs (vars a st)) (or_else result VNull)) st)
        as [-> | ->]; auto; apply Hp.
  - repeat split; auto.
Qed.

Lemma stuck_run ins : forall st,
  stuck st -> forallb quiet ins = true ->
  List.filter is_callback (snd (run NODE_ENV ins st)) = [].
Proof.
  induction ins as [|i ins IH]; intros st Hst Hq; [reflexivity|].
  simpl in Hq. apply andb_true_iff in Hq as [Hi Hins].
  destruct (stuck_step i st Hst Hi) as [Hst1 Hes].
  rewrite head_run_cons. cbn [snd]. apply no_callback_app; auto.
Qed.

Lemma stuck_init gitDir gitCommands :
  String.eqb gitDir "" = false -> stuck (init gitDir gitCommands).
Proof.
  intros Hd. repeat split; auto.
Qed.

(** C10, as the code has it.  In a repository whose [packed-refs] reads as
    the empty string and whose [HEAD] reads as [ref: <path>], whatever
    happens and in whatever order (calls, answers of the reads, closes of
    [git gc], expiries), no callback given to [getHeadSha] is ever invoked,
    with a result or with an error. *)
Theorem empty_packed_refs_never_completes gitDir gitCommands ins :
  String.eqb gitDir "" = false ->
  forallb quiet ins = true ->
  List.filter is_callback (snd (run NODE_ENV ins (init gitDir gitCommands)))
  = [].
Proof. intros Hd Hq. apply stuck_run; auto. now apply stuck_init. Qed.

End Facts.

Lemma gc_continuation_lost_witness :
  snd (run (E := RegExp.fragment) "" [Call 1%nat; Exists 0 false;
                                      GcClosed 0 (Some 0%N) [] []]
         (init "/srv/repo/.git" []))
  = [PathExists 0; GitExec ["gc"] (Exec.AFun (AfterGc 0)) None;
     Uncaught Exec.not_a_function]
  /\ snd (run (E := RegExp.fragment) "" [Call 1%nat; Exists 0 true]
            (init "/srv/repo/.git" []))
     = [PathExists 0; ReadFile 0 PackedRefs; ReadFile 0 HEAD].
Proof.
  apply (gc_continuation_lost "" (E := RegExp.fragment) "/srv/repo/.git" []
           1%nat (Some 0%N) [] []).
  reflexivity.
Defined.

Lemma empty_packed_refs_never_completes_witness :
  List.filter is_callback
    (snd (run (E := RegExp.fragment) "" Samples.empty_packed_refs
            (init "/srv/repo/.git" [])))
  = [].
Proof.
  apply (empty_packed_refs_never_completes "" (E := RegExp.fragment)
           "/srv/repo/.git" [] Samples.empty_packed_refs);
    vm_compute; reflexivity.
Defined.

(** C10 fails as stated.  With [packed-refs] empty and a detached [HEAD],
    which holds a hash and no [ref:] line, the match of line 199 fails and
    the waiter is called with the error that indexing [null] throws. *)
Lemma empty_packed_refs_counterexample :
  snd (run (E := RegExp.fragment) "" Samples.detached_head
         (init "/srv/repo/.git" []))
  = [PathExists 0; ReadFile 0 PackedRefs; ReadFile 0 HEAD;
     Callback 1%nat [null_has_no_properties]].
Proof. vm_compute. reflexivity. Qed.

End HeadShaFacts.

(** ** The branch and tag resolver *)

Module BranchShaFacts.
Import BranchSha.

Section Facts.
Context (NODE_ENV : string) {E : RegExp.Engine}.

Lemma bare_candidates branch :
  Str.isFullPath branch = false -> Str.isRemotes branch = false ->
  candidates branch
  = ["heads/" +:+ branch; "remotes/(.+)/" +:+ branch; "tags/" +:+ branch].
Proof. intros H1 H2. unfold candidates. now rewrite H1, H2. Qed.

(** C6, as the code has it.  For a bare branch name the resolved-name
    cache is consulted first: the slot of [heads/<name>], then the slot of
    [remotes/(.+)/<name>], then the slot of [tags/<name>], and the first
    that holds a hash is the answer, with no subprocess.  When none of the
    three is cached and no lookup for the name is in flight, one
    [git show-ref] is run, and its output is matched against the three
    candidates in the same order: the callers get the hash of the first
    candidate that matches, which is then cached under that candidate for
    the short delay, or the error [Invalid branch <name>] when none
    matches.  The patterns are built from the name as it is: when the
    pattern of a candidate that is reached cannot be built, the exception
    leaves the function that [git show-ref] calls back, and nobody is
    called. *)
Theorem bare_name_order st branch cb exitCode stdout stderr :
  Str.isFullPath branch = false ->
  Str.isRemotes branch = false ->
  (forall sha,
     cached (_branchsCache st) ("heads/" +:+ branch) = Some sha ->
     getBranchSha branch cb st = (st, [Callback cb [VNull; sha]]))
  /\ (forall sha,
      cached (_branchsCache st) ("heads/" +:+ branch) = None ->
      cached (_branchsCache st) ("remotes/(.+)/" +:+ branch) = Some sha ->
      getBranchSha branch cb st = (st, [Callback cb [VNull; sha]]))
  /\ (forall sha,
      cached (_branchsCache st) ("heads/" +:+ branch) = None ->
      cached (_branchsCache st) ("remotes/(.+)/" +:+ branch) = None ->
      cached (_branchsCache st) ("tags/" +:+ branch) = Some sha ->
      getBranchSha branch cb st = (st, [Callback cb [VNull; sha]]))
  /\ (cached (_branchsCache st) ("heads/" +:+ branch) = None ->
      cached (_branchsCache st) ("remotes/(.+)/" +:+ branch) = None ->
      cached (_branchsCache st) ("tags/" +:+ branch) = None ->
      in_flight st branch = false ->
      inherited branch = false ->
      Exec.failed exitCode = false ->
      snd (run NODE_ENV
             [Call branch cb; ShowRefClosed branch exitCode stdout stderr] st)
      = GitExec ["show-ref"] (VStr "utf-8") branch ::
        match check ("heads/" +:+ branch) (String.concat "" stdout) with
        | Threw exn => [Uncaught exn]
        | Returned (Some groups) =>
            [Callback cb [VNull; RegExp.group1 groups];
             SetTimeout ("heads/" +:+ branch) 100]
        | Returned None =>
            match check ("remotes/(.+)/" +:+ branch)
                    (String.concat "" stdout) with
            | Threw exn => [Uncaught exn]
            | Returned (Some groups) =>
                [Callback cb [VNull; RegExp.group1 groups];
                 SetTimeout ("remotes/(.+)/" +:+ branch) 100]
            | Returned None =>
                match check ("tags/" +:+ branch) (String.concat "" stdout) with
                | Threw exn => [Uncaught exn]
                | Returned (Some groups) =>
                    [Callback cb [VNull; RegExp.group1 groups];
                     SetTimeout ("tags/" +:+ branch) 100]
                | Returned None =>
                    [Callback cb [Error ("Invalid branch " +:+ branch)]]
                end
            end
        end).
Proof.
  intros Hfull Hrem. pose proof (bare_candidates branch Hfull Hrem) as Hcand.
  split; [|split; [|split]].
  - intros sha Hh. unfold getBranchSha. rewrite Hcand. cbn [checkCache].
    now rewrite Hh.
  - intros sha Hh Hr. unfold getBranchSha. rewrite Hcand. cbn [checkCache].
    now rewrite Hh, Hr.
  - intros sha Hh Hr Ht. unfold getBranchSha. rewrite Hcand.
    cbn [checkCache]. now rewrite Hh, Hr, Ht.
  - intros Hh Hr Ht Hfl Hin Hexit.
    assert (Hcall : getBranchSha branch cb st
      = (Inst (_branchsCache st) (<[branch := QArr [cb]]> (_branchsQueue st))
           (_gitCommands st),
         [GitExec ["show-ref"] (VStr "utf-8") branch])).
    { unfold getBranchSha, in_flight in *. rewrite Hcand. simpl.
      rewrite Hh, Hr, Ht.
      destruct (_branchsQueue st !! branch) as [[|q]|];
        [reflexivity | discriminate | now rewrite Hin]. }
    unfold run, step. rewrite Hcall. cbn [_gitCommands].
    unfold Exec.close. rewrite Hexit. unfold on_show_ref. simpl.
    rewrite Hcand. simpl.
    destruct (check ("heads/" +:+ branch) (String.concat "" stdout))
      as [[?|]|?];
      [| destruct (check ("remotes/(.+)/" +:+ branch)
                     (String.concat "" stdout)) as [[?|]|?];
         [| destruct (check ("tags/" +:+ branch) (String.concat "" stdout))
              as [[?|]|?] |] |];
      unfold checkDone, groupCallback; simpl;
      rewrite ?lookup_insert_eq; reflexivity.
Qed.

End Facts.

Lemma bare_name_order_witness :
  snd (run (E := RegExp.fragment) ""
         [Call "main" 1%nat;
          ShowRefClosed "main" (Some 0%N) [Samples.show_ref] []] (init []))
  = [GitExec ["show-ref"] (VStr "utf-8") "main";
     Callback 1%nat [VNull; VStr Samples.sha1];
     SetTimeout "heads/main" 100].
Proof.
  etransitivity.
  - apply (bare_name_order "" (E := RegExp.fragment) (init []) "main" 1%nat
             (Some 0%N) [Samples.show_ref] []); vm_compute; reflexivity.
  - vm_compute. reflexivity.
Defined.

(** C6 fails as stated.  In a repository that has both [heads/main] and
    [tags/main], a lookup of [tags/main] leaves the hash of the tag in the
    cache; a lookup of the bare name [main] within the short delay finds
    that slot, after two misses, and answers with the hash of the tag,
    without asking git. *)
Lemma bare_name_counterexample :
  check (E := RegExp.fragment) "heads/main" Samples.show_ref
    = Returned (Some [VStr Samples.sha1])
  /\ check (E := RegExp.fragment) "tags/main" Samples.show_ref
     = Returned (Some [VStr Samples.sha2])
  /\ Str.isFullPath "main" = false
  /\ Str.isRemotes "main" = false
  /\ snd (run (E := RegExp.fragment) "" Samples.tag_then_bare (init []))
     = [GitExec ["show-ref"] (VStr "utf-8") "tags/main";
        Callback 1%nat [VNull; VStr Samples.sha2];
        SetTimeout "tags/main" 100;
        Callback 2%nat [VNull; VStr Samples.sha2]].
Proof. repeat split; vm_compute; reflexivity. Qed.

End BranchShaFacts.

(** ** Expiry *)

Module TimedFacts.
Import Safe Timed StrFacts.

Ltac proj := cbn [now st timers closures born fst snd cache queue negb] in *.

Lemma ttl_nonneg NODE_ENV version : 0 <= ttl NODE_ENV version.
Proof.
  unfold ttl, CACHE_LIFE. simpl.
  destruct (String.eqb version "fs"), (String.eqb NODE_ENV "test"); lia.
Qed.

Lemma ttl_hash NODE_ENV version :
  String.length version = 40%nat ->
  ttl NODE_ENV version = fst (CACHE_LIFE NODE_ENV).
Proof.
  intros Hlen. unfold ttl.
  destruct (String.eqb_spec version "fs") as [->|]; [discriminate|reflexivity].
Qed.

Lemma dues_app key l1 l2 : dues key (l1 ++ l2) = dues key l1 ++ dues key l2.
Proof. unfold dues. now rewrite List.filter_app, map_app. Qed.

Lemma dues_cons key due k l :
  dues key ((due, k) :: l)
  = if String.eqb k key then due :: dues key l else dues key l.
Proof. unfold dues. simpl. destruct (String.eqb k key); reflexivity. Qed.

(** The timer that goes off is a due timer of the key, and the others
    stay. *)
Lemma fire_spec key t l : forall l',
  fire key t l = Some l' ->
  (exists d pre post,
     d <= t /\ dues key l = pre ++ d :: post /\ dues key l' = pre ++ post)
  /\ forall k, k <> key -> dues k l' = dues k l.
Proof.
  induction l as [|[due k] l IH]; intros l' Hf; [discriminate|].
  simpl in Hf.
  destruct ((due <=? t) && String.eqb k key) eqn:Hhit.
  - injection Hf as <-. apply andb_true_iff in Hhit as [Hd Hk].
    apply Z.leb_le in Hd. apply String.eqb_eq in Hk. subst k. split.
    + exists due, [], (dues key l). rewrite dues_cons, String.eqb_refl. auto.
    + intros k' Hne. rewrite dues_cons.
      destruct (String.eqb_spec key k'); congruence.
  - destruct (fire key t l) as [l1|] eqn:Hl; [|discriminate].
    injection Hf as <-. destruct (IH l1 eq_refl) as [(d & pre & post & Hd & H1 & H2) Ho].
    split.
    + rewrite !dues_cons. destruct (String.eqb k key).
      * exists d, (due :: pre), post. rewrite H1, H2. auto.
      * exists d, pre, post. auto.
    + intros k' Hne. rewrite !dues_cons, (Ho k' Hne). reflexivity.
Qed.

Lemma cached_insert c q key key' v :
  cached (Store (<[key' := v]> c) q) key
  = if decide (key' = key) then truthy v else cached (Store c q) key.
Proof.
  unfold cached. simpl. case_decide as Hk.
  - subst. now rewrite lookup_insert_eq.
  - now rewrite lookup_insert_ne.
Qed.

Lemma in_flight_insert c q key key' x :
  in_flight (Store c (<[key' := x]> q)) key
  = if decide (key' = key)
    then match x with QArr _ => true | QFalse => false end
    else in_flight (Store c q) key.
Proof.
  unfold in_flight. simpl. case_decide as Hk.
  - subst. now rewrite lookup_insert_eq.
  - now rewrite lookup_insert_ne.
Qed.

Lemma store_eta s : Store (cache s) (queue s) = s.
Proof. now destruct s. Qed.

Lemma sound_start NODE_ENV : sound NODE_ENV start.
Proof.
  intros key. repeat split; try (intros; discriminate).
Qed.

Lemma sound_call NODE_ENV version rest cb w w' :
  sound NODE_ENV w -> next NODE_ENV (ECall version rest cb) w = Some w' ->
  sound NODE_ENV w'.
Proof.
  intros Hs Hn. simpl in Hn. injection Hn as <-.
  intros key. destruct (Hs key) as (Hcl & Hb & Ht). proj.
  unfold wrapper.
  destruct (valid_version version) eqn:Hv; proj; [|simpl; auto].
  set (k0 := key_of (version :: rest)) in *.
  destruct (cached (st w) k0) eqn:Hc; proj; [simpl; auto|].
  assert (Hcache : forall q, cached (Store (cache (st w)) q) key
                             = cached (st w) key) by reflexivity.
  destruct (queue (st w) !! k0) as [[|q]|] eqn:Hq; proj; simpl handed;
    rewrite Hcache, in_flight_insert, store_eta;
    (split; [|split; [exact Hb | exact Ht]]); intros v Hcv.
  1, 3: fold k0 in Hcv; case_decide as Hk;
    [ subst key; rewrite lookup_insert_eq in Hcv; injection Hcv as <-;
      repeat split; eauto
    | rewrite lookup_insert_ne in Hcv by assumption; auto ].
  destruct (Hcl v Hcv) as (Ho & Hf & Hcc). case_decide; auto.
Qed.

Lemma scheduled_flush t q arguments : scheduled t (flush q arguments) = [].
Proof. induction q; simpl; auto. Qed.

Lemma scheduled_app t es1 es2 :
  scheduled t (es1 ++ es2) = scheduled t es1 ++ scheduled t es2.
Proof. unfold scheduled. now rewrite flat_map_app. Qed.

Lemma sound_done NODE_ENV k0 arguments w w' :
  sound NODE_ENV w -> next NODE_ENV (EDone k0 arguments) w = Some w' ->
  sound NODE_ENV w'.
Proof.
  intros Hs Hn. simpl in Hn.
  destruct (closures w !! k0) as [v0|] eqn:Hv0; [|discriminate].
  injection Hn as <-. intros key.
  destruct (Hs k0) as (Hcl0 & _ & Ht0).
  destruct (Hcl0 v0 Hv0) as (Ho0 & Hf0 & Hc0). rewrite Hc0 in Ht0.
  destruct (Hs key) as (Hcl & Hb & Ht).
  unfold completion, cached, in_flight in *. proj.
  rewrite (lookup_insert (queue (st w))), !scheduled_app, !scheduled_flush.
  destruct (truthy (nth 1 arguments VUndef)) eqn:Hval; proj;
    simpl scheduled; rewrite ?app_nil_r.
  - rewrite dues_app, (lookup_insert (cache (st w))), (lookup_insert (born w)).
    case_decide as Hk.
    + subst key. rewrite Hval, Ht0. simpl. split; [|split].
      * intros v Hv. now rewrite lookup_delete_eq in Hv.
      * intros t v Hv. now injection Hv as <- <-.
      * exists (now w), v0.
        rewrite dues_cons, String.eqb_refl. repeat split; auto.
        pose proof (ttl_nonneg NODE_ENV v0). lia.
    + assert (Hd : dues key [(now w + ttl NODE_ENV v0, k0)] = []).
      { rewrite dues_cons.
        destruct (String.eqb_spec k0 key); [congruence | reflexivity]. }
      rewrite Hd, app_nil_r, lookup_delete_ne by assumption. auto.
  - split; [|split; [exact Hb | exact Ht]].
    intros v Hv. case_decide as Hk.
    + subst key. now rewrite lookup_delete_eq in Hv.
    + rewrite lookup_delete_ne in Hv by assumption. auto.
Qed.

Lemma sound_fire NODE_ENV k0 w w' :
  sound NODE_ENV w -> next NODE_ENV (EFire k0) w = Some w' ->
  sound NODE_ENV w'
  /\ exists t v, born w !! k0 = Some (t, v) /\ now w = t + ttl NODE_ENV v.
Proof.
  intros Hs Hn. simpl in Hn.
  destruct (fire k0 (now w) (timers w)) as [l|] eqn:Hfire; [|discriminate].
  injection Hn as <-.
  destruct (fire_spec _ _ _ _ Hfire) as [(d & pre & post & Hd & H1 & H2) Ho].
  destruct (Hs k0) as (Hcl0 & _ & Ht0).
  destruct (cached (st w) k0) eqn:Hc0;
    [|rewrite Ht0 in H1; now destruct pre].
  destruct Ht0 as (t0 & v0 & Hb0 & Hd0 & Hn0).
  rewrite Hd0 in H1.
  assert (pre = [] /\ post = [] /\ d = t0 + ttl NODE_ENV v0) as (-> & -> & ->).
  { destruct pre as [|x [|y pre]]; simpl in H1; inversion H1; auto. }
  simpl in H2. split; [|exists t0, v0; split; [assumption | lia]].
  intros key. destruct (Hs key) as (Hcl & Hb & Ht).
  unfold expire, cached, in_flight in *. proj.
  rewrite (lookup_insert (cache (st w))).
  case_decide as Hk.
  - subst key. simpl. split; [|split]; auto.
    intros v Hv. destruct (Hcl v Hv) as (? & ? & ?). auto.
  - rewrite (Ho key) by congruence. split; [|split]; auto.
Qed.

Lemma sound_wait NODE_ENV dt w w' :
  sound NODE_ENV w -> next NODE_ENV (EWait dt) w = Some w' ->
  sound NODE_ENV w'.
Proof.
  intros Hs Hn. simpl in Hn.
  destruct ((0 <=? dt) && _) eqn:Hok; [|discriminate].
  injection Hn as <-. apply andb_true_iff in Hok as [Hdt Hall].
  intros key. destruct (Hs key) as (Hcl & Hb & Ht). proj.
  split; [exact Hcl | split; [exact Hb|]].
  destruct (cached (st w) key); [|exact Ht].
  destruct Ht as (t & v & Hbk & Hd & Hle). exists t, v. repeat split; auto.
  assert (Hin : In (t + ttl NODE_ENV v, key) (timers w)).
  { assert (Hin' : In (t + ttl NODE_ENV v) (dues key (timers w)))
      by (rewrite Hd; now left).
    unfold dues in Hin'. apply in_map_iff in Hin' as ([d k] & Hfst & Hin').
    apply List.filter_In in Hin' as [Hin' Hk]. simpl in *.
    apply String.eqb_eq in Hk. now subst. }
  rewrite forallb_forall in Hall. specialize (Hall _ Hin). simpl in Hall.
  apply Z.leb_le in Hall. exact Hall.
Qed.

Lemma sound_next NODE_ENV e w w' :
  sound NODE_ENV w -> next NODE_ENV e w = Some w' -> sound NODE_ENV w'.
Proof.
  destruct e; intros Hs Hn.
  - eapply sound_call; eauto.
  - eapply sound_done; eauto.
  - eapply sound_fire; eauto.
  - eapply sound_wait; eauto.
Qed.

Lemma reachable_sound NODE_ENV w : reachable NODE_ENV w -> sound NODE_ENV w.
Proof.
  induction 1 as [|w e w' _ IH Hn]; [apply sound_start|].
  eapply sound_next; eauto.
Qed.

Lemma play_reachable NODE_ENV es : forall w w',
  reachable NODE_ENV w -> play NODE_ENV es w = Some w' ->
  reachable NODE_ENV w'.
Proof.
  induction es as [|e es IH]; intros w w' Hr Hp; simpl in Hp.
  - now injection Hp as <-.
  - destruct (next NODE_ENV e w) as [w1|] eqn:Hn; [|discriminate].
    eapply IH; [|exact Hp]. eapply reach_next; eauto.
Qed.

(** Keys: a key starts with the version it was made from. *)
Lemma key_of_cons version rest :
  exists tail, key_of (version :: rest) = version +:+ tail.
Proof.
  destruct rest as [|r rest].
  - exists "". unfold key_of. simpl. now rewrite append_nil_r.
  - now exists (":" +:+ key_of (r :: rest)).
Qed.

(** The key of a call at a hash is the key of no call at another valid
    version: not at another 40-character one, and not at ["fs"], whose
    second character is no hexadecimal digit. *)
Lemma hash_key_version h rest version rest' :
  Str.is_hash h = true ->
  valid_version version = true ->
  key_of (h :: rest) = key_of (version :: rest') ->
  version = h.
Proof.
  intros Hh Hv Hk.
  destruct (key_of_cons h rest) as [tail Ht].
  destruct (key_of_cons version rest') as [tail' Ht'].
  rewrite Ht, Ht' in Hk.
  unfold valid_version in Hv. apply orb_true_iff in Hv as [Hlen|Hfs].
  - apply Nat.eqb_eq in Hlen. symmetry.
    eapply append_inj_length; [|exact Hk].
    now rewrite (is_hash_length h Hh).
  - apply String.eqb_eq in Hfs. subst version.
    destruct (is_hash_second h Hh) as (c1 & c2 & h' & -> & Hc2).
    change (String c1 (String c2 (h' +:+ tail))
            = String "f" (String "s" tail')) in Hk.
    injection Hk as -> -> _. discriminate.
Qed.

(** The keys of the decorator are no property names of [Object.prototype]:
    a lookup in [cache] or [queue] finds what was stored there, or
    nothing. *)
Lemma key_not_inherited version rest :
  valid_version version = true -> inherited (key_of (version :: rest)) = false.
Proof.
  intros Hv. destruct (key_of_cons version rest) as [tail ->].
  unfold valid_version in Hv. apply orb_true_iff in Hv as [Hlen|Hfs].
  - apply Nat.eqb_eq in Hlen.
    destruct (inherited (version +:+ tail)) eqn:Hin; [|reflexivity].
    unfold inherited in Hin. apply existsb_exists in Hin as (name & Hname & Heq).
    apply String.eqb_eq in Heq.
    assert (Hl : (40 <= String.length name)%nat)
      by (rewrite <- Heq, length_append; lia).
    simpl in Hname.
    repeat (destruct Hname as [<-|Hname]; [simpl in Hl; lia|]).
    contradiction.
  - apply String.eqb_eq in Hfs. subst version. reflexivity.
Qed.

(** C3.  When the completion stores a truthy value it starts exactly one
    timer, for its key, whose delay is [CACHE_LIFE[0]] (the long one:
    36300000 ms, unless [NODE_ENV] is [test]) when the version has 40
    characters and [CACHE_LIFE[1]] (100 ms) when the version is ["fs"].  In
    every world reached from the start, a key with a cached value has
    exactly one pending timer, due at the time of the store plus the delay
    of the version that stored it: the value is not there after that time,
    and the timer that removes it goes off at that time, not sooner.  A
    key made from a hash was stored by that hash, so with the long
    delay. *)
Theorem expiry_by_version_kind NODE_ENV :
  (forall s version key arguments t,
     truthy (nth 1 arguments VUndef) = true ->
     scheduled t (snd (completion NODE_ENV version key arguments s))
       = [(t + ttl NODE_ENV version, key)]
     /\ (String.length version = 40%nat ->
         ttl NODE_ENV version = fst (CACHE_LIFE NODE_ENV))
     /\ (version = "fs" -> ttl NODE_ENV version = 100))
  /\ (String.eqb NODE_ENV "test" = false ->
      fst (CACHE_LIFE NODE_ENV) = 36300000)
  /\ 100 <= fst (CACHE_LIFE NODE_ENV)
  /\ forall w key,
       reachable NODE_ENV w ->
       cached (st w) key = true ->
       exists t version,
         born w !! key = Some (t, version)
         /\ owns version key
         /\ dues key (timers w) = [t + ttl NODE_ENV version]
         /\ now w <= t + ttl NODE_ENV version
         /\ (forall w', next NODE_ENV (EFire key) w = Some w' ->
             now w = t + ttl NODE_ENV version)
         /\ (forall h rest,
               Str.is_hash h = true -> key = key_of (h :: rest) ->
               version = h
               /\ ttl NODE_ENV version = fst (CACHE_LIFE NODE_ENV)).
Proof.
  split; [|split; [|split]].
  - intros s version key arguments t Hval. split; [|split].
    + unfold completion. rewrite Hval. cbn [fst snd].
      rewrite scheduled_app, scheduled_flush. reflexivity.
    + apply ttl_hash.
    + intros ->. reflexivity.
  - intros Hne. unfold CACHE_LIFE. now rewrite Hne.
  - unfold CACHE_LIFE. destruct (String.eqb NODE_ENV "test"); simpl; lia.
  - intros w key Hr Hc. pose proof (reachable_sound _ _ Hr) as Hs.
    destruct (Hs key) as (_ & Hb & Ht). rewrite Hc in Ht.
    destruct Ht as (t & version & Hbk & Hd & Hle).
    exists t, version.
    split; [exact Hbk|]. split; [exact (Hb _ _ Hbk)|].
    split; [exact Hd|]. split; [exact Hle|]. split.
    + intros w' Hn.
      destruct (sound_fire _ _ _ _ Hs Hn) as (_ & t' & v' & Hb' & Hnow).
      rewrite Hbk in Hb'. now injection Hb' as <- <-.
    + intros h rest Hh Hk. destruct (Hb _ _ Hbk) as [Hv [rest' Hk']].
      assert (Heq : version = h).
      { apply (hash_key_version h rest version rest' Hh Hv). congruence. }
      split; [exact Heq|]. subst version.
      apply ttl_hash, is_hash_length, Hh.
Qed.

Lemma expiry_by_version_kind_witness :
  exists t version,
    born Samples.after_stores !! "fs:README" = Some (t, version)
    /\ owns version "fs:README"
    /\ dues "fs:README" (timers Samples.after_stores) = [t + ttl "" version]
    /\ now Samples.after_stores <= t + ttl "" version
    /\ (forall w', next "" (EFire "fs:README") Samples.after_stores = Some w' ->
        now Samples.after_stores = t + ttl "" version)
    /\ (forall h rest,
          Str.is_hash h = true -> "fs:README" = key_of (h :: rest) ->
          version = h /\ ttl "" version = fst (CACHE_LIFE "")).
Proof.
  apply (proj2 (proj2 (proj2 (expiry_by_version_kind "")))
           Samples.after_stores "fs:README").
  - apply (play_reachable "" Samples.stores start); [apply reach_start|].
    vm_compute. reflexivity.
  - vm_compute. reflexivity.
Defined.

(** The two stores of the sample: the live value is due to go at 5100 and
    the value at the hash at 36300000. *)
Example expiry_sample :
  now Samples.after_stores = 5100
  /\ timers Samples.after_stores
     = [(36300000, Samples.sha1 +:+ ":README"); (5100, "fs:README")]
  /\ option_map now (next "" (EFire "fs:README") Samples.after_stores)
     = Some 5100
  /\ next "" (EFire (Samples.sha1 +:+ ":README")) Samples.after_stores = None
  /\ next "" (EWait 1) Samples.after_stores = None.
Proof. repeat split; vm_compute; reflexivity. Qed.

End TimedFacts.

(** ** The HEAD resolver: resolutions that complete *)

Module HeadShaMore.
Import HeadSha HeadOrders.

Section Facts.
Context (NODE_ENV : string) {E : RegExp.Engine}.

Lemma head_run_app ins1 : forall ins2 st,
  run NODE_ENV (ins1 ++ ins2) st
  = (fst (run NODE_ENV ins2 (fst (run NODE_ENV ins1 st))),
     snd (run NODE_ENV ins1 st)
     ++ snd (run NODE_ENV ins2 (fst (run NODE_ENV ins1 st)))).
Proof.
  induction ins1 as [|i ins1 IH]; intros ins2 st.
  - simpl. now destruct (run NODE_ENV ins2 st).
  - rewrite <- app_comm_cons, !HeadShaFacts.head_run_cons, IH. cbn [fst snd].
    now rewrite app_assoc.
Qed.

Lemma head_run_step i ins st st1 e1 :
  step NODE_ENV i st = (st1, e1) ->
  run NODE_ENV (i :: ins) st
  = (fst (run NODE_ENV ins st1), e1 ++ snd (run NODE_ENV ins st1)).
Proof. intros H. now rewrite HeadShaFacts.head_run_cons, H. Qed.

(** Calls that arrive while a resolution is in flight only join the
    queue. *)
Lemma queued_calls cbs : forall st q,
  truthy (_shaCache st) = false ->
  _shaQueue st = QArr q ->
  run NODE_ENV (map Call cbs) st = (set_queue (QArr (q ++ cbs)) st, []).
Proof.
  induction cbs as [|cb cbs IH]; intros st q Hc Hq.
  - simpl. rewrite app_nil_r, <- Hq. now destruct st.
  - cbn [map]. rewrite HeadShaFacts.head_run_cons. cbn [step].
    unfold getHeadSha. rewrite Hc, Hq. cbn [fst snd].
    rewrite (IH _ (q ++ [cb])) by auto. cbn [fst snd].
    unfold set_queue. simpl. now rewrite <- app_assoc.
Qed.

(** The variables of the resolution in the middle of [acts]. *)
Lemma vars_middle c q d g pre v post :
  vars (length pre) (Inst c q d g (pre ++ v :: post)) = v.
Proof. unfold vars. cbn [acts]. now rewrite list_lookup_middle. Qed.

Lemma set_vars_middle c q d g pre v post l :
  set_vars (length pre) l (Inst c q d g (pre ++ v :: post))
  = Inst c q d g (pre ++ l :: post).
Proof.
  unfold set_vars. cbn [_shaCache _shaQueue _gitDir _gitCommands acts].
  f_equal. rewrite insert_app_r_alt by lia.
  now replace (length pre - length pre)%nat with 0%nat by lia.
Qed.

Lemma checkDone_wait c q d g pre v post :
  ready v = false ->
  checkDone NODE_ENV (length pre) (Inst c q d g (pre ++ v :: post))
  = (Inst c q d g (pre ++ v :: post), []).
Proof.
  intros Hr. unfold checkDone. rewrite vars_middle.
  fold (ready v). now rewrite Hr.
Qed.

Lemma checkDone_loose c q d g pre v post sha :
  truthy (head v) = true -> truthy (packedRefs v) = true ->
  truthy (master v) = true ->
  Str.hash_line (to_string (master v)) = Some sha ->
  checkDone NODE_ENV (length pre) (Inst c q d g (pre ++ v :: post))
  = (Inst (VStr sha) QFalse d g (pre ++ v :: post),
     match q with
     | QArr l => flush l [VNull; VStr sha]
     | QFalse => []
     end ++ [SetTimeout 100]).
Proof.
  intros Hh Hp Hm Hl. unfold checkDone. rewrite vars_middle, Hh, Hp, Hm, Hl.
  rewrite bool_decide_eq_false_2; [reflexivity|].
  intros Hu. rewrite Hu in Hm. discriminate.
Qed.

Lemma checkDone_packed c q d g pre v post :
  truthy (head v) = true -> truthy (packedRefs v) = true ->
  truthy (master v) = false -> master v <> VUndef ->
  checkDone NODE_ENV (length pre) (Inst c q d g (pre ++ v :: post))
  = match RegExp.exec ("([a-f0-9]{40}) " +:+ to_string (head v)) ""
            (to_string (packedRefs v)) with
    | Returned (Some groups) =>
        (Inst (RegExp.group1 groups) QFalse d g (pre ++ v :: post),
         match q with
         | QArr l => flush l [VNull; RegExp.group1 groups]
         | QFalse => []
         end ++ [SetTimeout 100])
    | Returned None =>
        (Inst c QFalse d g (pre ++ v :: post),
         match q with
         | QArr l => flush l [null_has_no_properties]
         | QFalse => []
         end)
    | Threw exn =>
        (Inst c QFalse d g (pre ++ v :: post),
         match q with
         | QArr l => flush l [exn]
         | QFalse => []
         end)
    end.
Proof.
  intros Hh Hp Hm Hu. unfold checkDone. rewrite vars_middle, Hh, Hp, Hm.
  rewrite bool_decide_eq_false_2 by assumption. cbn [negb andb].
  destruct (RegExp.exec _ _ _) as [[?|]|?]; reflexivity.
Qed.

Lemma packed_arrives c q d g pre v post p :
  step NODE_ENV (ReadPackedRefs (length pre) VNull p)
    (Inst c q d g (pre ++ v :: post))
  = checkDone NODE_ENV (length pre)
      (Inst c q d g (pre ++ Locals (head v) p (master v) :: post)).
Proof.
  cbn [step]. unfold on_packedRefs. cbn [truthy].
  now rewrite vars_middle, set_vars_middle.
Qed.

Lemma ref_arrives c q d g pre v post e r :
  step NODE_ENV (ReadRef (length pre) e r) (Inst c q d g (pre ++ v :: post))
  = checkDone NODE_ENV (length pre)
      (Inst c q d g
         (pre ++ Locals (head v) (packedRefs v) (or_else r VNull) :: post)).
Proof.
  cbn [step]. unfold on_ref. now rewrite vars_middle, set_vars_middle.
Qed.

Lemma HEAD_arrives c q d g pre v post text h :
  Str.head_ref text = Some h ->
  step NODE_ENV (ReadHEAD (length pre) VNull (VStr text))
    (Inst c q d g (pre ++ v :: post))
  = (fst (checkDone NODE_ENV (length pre)
            (Inst c q d g
               (pre ++ Locals (VStr h) (packedRefs v) (master v) :: post))),
     ReadFile (length pre) (Ref h)
     :: snd (checkDone NODE_ENV (length pre)
               (Inst c q d g
                  (pre ++ Locals (VStr h) (packedRefs v) (master v) :: post)))).
Proof.
  intros Hh. cbn [step]. unfold on_HEAD. cbn [truthy to_string].
  rewrite Hh, vars_middle, set_vars_middle.
  now destruct (checkDone _ _ _).
Qed.

Lemma not_ready_head pk m : ready (Locals VUndef pk m) = false.
Proof. reflexivity. Qed.

Lemma not_ready_packed hd m : ready (Locals hd VUndef m) = false.
Proof. unfold ready. cbn [head packedRefs truthy]. now rewrite andb_false_r. Qed.

Lemma not_ready_master hd pk : ready (Locals hd pk VUndef) = false.
Proof.
  unfold ready. cbn [master].
  rewrite bool_decide_eq_true_2 by reflexivity. now rewrite andb_false_r.
Qed.

Lemma packed_waits c q d g pre v post p :
  ready (Locals (head v) p (master v)) = false ->
  step NODE_ENV (ReadPackedRefs (length pre) VNull p)
    (Inst c q d g (pre ++ v :: post))
  = (Inst c q d g (pre ++ Locals (head v) p (master v) :: post), []).
Proof. intros Hr. now rewrite packed_arrives, checkDone_wait. Qed.

Lemma ref_waits c q d g pre v post e r :
  ready (Locals (head v) (packedRefs v) (or_else r VNull)) = false ->
  step NODE_ENV (ReadRef (length pre) e r) (Inst c q d g (pre ++ v :: post))
  = (Inst c q d g
       (pre ++ Locals (head v) (packedRefs v) (or_else r VNull) :: post), []).
Proof. intros Hr. now rewrite ref_arrives, checkDone_wait. Qed.

Lemma HEAD_waits c q d g pre v post text h :
  Str.head_ref text = Some h ->
  ready (Locals (VStr h) (packedRefs v) (master v)) = false ->
  step NODE_ENV (ReadHEAD (length pre) VNull (VStr text))
    (Inst c q d g (pre ++ v :: post))
  = (Inst c q d g (pre ++ Locals (VStr h) (packedRefs v) (master v) :: post),
     [ReadFile (length pre) (Ref h)]).
Proof.
  intros Hh Hr. now rewrite (HEAD_arrives _ _ _ _ _ _ _ _ _ Hh), checkDone_wait.
Qed.

(** The three reads of one resolution, in any order in which they can
    complete, leave the same variables and run [checkDone] to its end
    once, when the last of them arrives. *)
Lemma join c q d g pre post p text h e r reads :
  Str.head_ref text = Some h ->
  In reads (orders (ReadPackedRefs (length pre) VNull p)
              (ReadHEAD (length pre) VNull (VStr text))
              (ReadRef (length pre) e r)) ->
  run NODE_ENV reads (Inst c q d g (pre ++ fresh :: post))
  = (fst (checkDone NODE_ENV (length pre)
            (Inst c q d g
               (pre ++ Locals (VStr h) p (or_else r VNull) :: post))),
     ReadFile (length pre) (Ref h)
     :: snd (checkDone NODE_ENV (length pre)
               (Inst c q d g
                  (pre ++ Locals (VStr h) p (or_else r VNull) :: post)))).
Proof.
  intros Hh Hin.
  set (final := checkDone NODE_ENV (length pre)
                  (Inst c q d g
                     (pre ++ Locals (VStr h) p (or_else r VNull) :: post))).
  destruct Hin as [<-|[<-|[<-|[]]]].
  - rewrite (head_run_step _ _ _ _ _
               (packed_waits c q d g pre fresh post p (not_ready_head _ _))).
    rewrite (head_run_step _ _ _ _ _
               (HEAD_waits c q d g pre (Locals (head fresh) p (master fresh))
                  post text h Hh (not_ready_master _ _))).
    rewrite HeadShaFacts.head_run_cons, ref_arrives.
    cbn [head packedRefs master run fst snd app]. fold final.
    now rewrite app_nil_r.
  - rewrite (head_run_step _ _ _ _ _
               (HEAD_waits c q d g pre fresh post text h Hh
                  (not_ready_master _ _))).
    rewrite (head_run_step _ _ _ _ _
               (packed_waits c q d g pre
                  (Locals (VStr h) (packedRefs fresh) (master fresh)) post p
                  (not_ready_master _ _))).
    rewrite HeadShaFacts.head_run_cons, ref_arrives.
    cbn [head packedRefs master run fst snd app]. fold final.
    now rewrite app_nil_r.
  - rewrite (head_run_step _ _ _ _ _
               (HEAD_waits c q d g pre fresh post text h Hh
                  (not_ready_master _ _))).
    rewrite (head_run_step _ _ _ _ _
               (ref_waits c q d g pre
                  (Locals (VStr h) (packedRefs fresh) (master fresh)) post e r
                  (not_ready_packed _ _))).
    rewrite HeadShaFacts.head_run_cons, packed_arrives.
    cbn [head packedRefs master run fst snd app]. fold final.
    now rewrite app_nil_r.
Qed.

Lemma flush_is_map q arguments :
  flush q arguments = map (fun cb => Callback cb arguments) q.
Proof. induction q as [|cb q IH]; simpl; [reflexivity | now rewrite IH]. Qed.

Lemma hash_line_truthy s sha :
  Str.hash_line s = Some sha -> truthy (VStr s) = true.
Proof. destruct s; [discriminate | reflexivity]. Qed.

(** The first call and those that follow it before anything is read. *)
Lemma first_calls gitDir gitCommands cb0 cbs :
  String.eqb gitDir "" = false ->
  run NODE_ENV (Call cb0 :: map Call cbs ++ [Exists 0 true])
    (init gitDir gitCommands)
  = (Inst (VBool false) (QArr (cb0 :: cbs)) gitDir gitCommands [fresh],
     [PathExists 0; ReadFile 0 PackedRefs; ReadFile 0 HEAD]).
Proof.
  intros Hd. rewrite HeadShaFacts.head_run_cons. cbn [step].
  unfold getHeadSha, init. cbn [_shaCache _shaQueue _gitDir truthy].
  rewrite Hd. cbn [fst snd].
  rewrite head_run_app, (queued_calls cbs _ [cb0]) by reflexivity.
  reflexivity.
Qed.

(** One resolution, from the first call to the last read. *)
Lemma resolution gitDir gitCommands cb0 cbs p text h e r reads :
  String.eqb gitDir "" = false ->
  Str.head_ref text = Some h ->
  In reads (orders (ReadPackedRefs 0 VNull p) (ReadHEAD 0 VNull (VStr text))
              (ReadRef 0 e r)) ->
  run NODE_ENV ((Call cb0 :: map Call cbs ++ [Exists 0 true]) ++ reads)
    (init gitDir gitCommands)
  = (fst (checkDone NODE_ENV 0
            (Inst (VBool false) (QArr (cb0 :: cbs)) gitDir gitCommands
               [Locals (VStr h) p (or_else r VNull)])),
     [PathExists 0; ReadFile 0 PackedRefs; ReadFile 0 HEAD;
      ReadFile 0 (Ref h)]
     ++ snd (checkDone NODE_ENV 0
               (Inst (VBool false) (QArr (cb0 :: cbs)) gitDir gitCommands
                  [Locals (VStr h) p (or_else r VNull)]))).
Proof.
  intros Hd Hh Hin. rewrite head_run_app, first_calls by assumption.
  cbn [fst snd].
  pose proof (join (VBool false) (QArr (cb0 :: cbs)) gitDir gitCommands
                [] [] p text h e r reads Hh Hin) as J.
  cbn [app length] in J. now rewrite J.
Qed.

(** X1.  One resolution of HEAD, from the first call to the answer: the
    callers that arrive before the reads complete are queued behind the
    first; the three reads may complete in any of the orders they can;
    when the ref named by [HEAD] is loose, its hash is the answer, whatever
    [packed-refs] says about the ref: every caller is called once, in order
    of arrival, with that hash, the hash is kept in [_shaCache], a timer of
    100 ms is started and the queue is dropped. *)
Theorem loose_ref_resolves gitDir gitCommands cb0 cbs packed text h e loose
    sha reads :
  String.eqb gitDir "" = false ->
  truthy (VStr packed) = true ->
  Str.head_ref text = Some h ->
  truthy (VStr h) = true ->
  Str.hash_line loose = Some sha ->
  In reads (orders (ReadPackedRefs 0 VNull (VStr packed))
              (ReadHEAD 0 VNull (VStr text)) (ReadRef 0 e (VStr loose))) ->
  run NODE_ENV ((Call cb0 :: map Call cbs ++ [Exists 0 true]) ++ reads)
    (init gitDir gitCommands)
  = (Inst (VStr sha) QFalse gitDir gitCommands
       [Locals (VStr h) (VStr packed) (VStr loose)],
     [PathExists 0; ReadFile 0 PackedRefs; ReadFile 0 HEAD;
      ReadFile 0 (Ref h)]
     ++ map (fun cb => Callback cb [VNull; VStr sha]) (cb0 :: cbs)
     ++ [SetTimeout 100]).
Proof.
  intros Hd Hp Hh Hht Hl Hin.
  pose proof (hash_line_truthy _ _ Hl) as Hlt.
  rewrite (resolution _ _ _ _ _ _ _ _ _ _ Hd Hh Hin).
  unfold or_else. rewrite Hlt.
  pose proof (checkDone_loose (VBool false) (QArr (cb0 :: cbs)) gitDir
                gitCommands [] (Locals (VStr h) (VStr packed) (VStr loose))
                [] sha Hht Hp Hlt Hl) as D.
  cbn [app length] in D. rewrite D. cbn [fst snd].
  change (flush (cb0 :: cbs) [VNull; VStr sha])
    with (Callback cb0 [VNull; VStr sha] :: flush cbs [VNull; VStr sha]).
  rewrite flush_is_map. reflexivity.
Qed.

(** X2.  When the read of the loose ref gives nothing (an error, or an
    empty file), the hash is looked up in the text of [packed-refs] with a
    pattern made of the ref name as it is.  When the pattern matches,
    every caller gets the first group of the match, which is cached.  When
    nothing matches, every caller gets the error thrown by indexing
    [null]; when the ref name does not make a pattern, every caller gets
    the error thrown by [new RegExp]; in both cases nothing is cached. *)
Theorem packed_refs_fallback gitDir gitCommands cb0 cbs packed text h e r
    reads :
  String.eqb gitDir "" = false ->
  truthy (VStr packed) = true ->
  Str.head_ref text = Some h ->
  truthy (VStr h) = true ->
  truthy r = false ->
  In reads (orders (ReadPackedRefs 0 VNull (VStr packed))
              (ReadHEAD 0 VNull (VStr text)) (ReadRef 0 e r)) ->
  run NODE_ENV ((Call cb0 :: map Call cbs ++ [Exists 0 true]) ++ reads)
    (init gitDir gitCommands)
  = match RegExp.exec ("([a-f0-9]{40}) " +:+ h) "" packed with
    | Returned (Some groups) =>
        (Inst (RegExp.group1 groups) QFalse gitDir gitCommands
           [Locals (VStr h) (VStr packed) VNull],
         [PathExists 0; ReadFile 0 PackedRefs; ReadFile 0 HEAD;
          ReadFile 0 (Ref h)]
         ++ map (fun cb => Callback cb [VNull; RegExp.group1 groups])
              (cb0 :: cbs)
         ++ [SetTimeout 100])
    | Returned None =>
        (Inst (VBool false) QFalse gitDir gitCommands
           [Locals (VStr h) (VStr packed) VNull],
         [PathExists 0; ReadFile 0 PackedRefs; ReadFile 0 HEAD;
          ReadFile 0 (Ref h)]
         ++ map (fun cb => Callback cb [null_has_no_properties]) (cb0 :: cbs))
    | Threw exn =>
        (Inst (VBool false) QFalse gitDir gitCommands
           [Locals (VStr h) (VStr packed) VNull],
         [PathExists 0; ReadFile 0 PackedRefs; ReadFile 0 HEAD;
          ReadFile 0 (Ref h)]
         ++ map (fun cb => Callback cb [exn]) (cb0 :: cbs))
    end.
Proof.
  intros Hd Hp Hh Hht Hr Hin.
  rewrite (resolution _ _ _ _ _ _ _ _ _ _ Hd Hh Hin).
  unfold or_else. rewrite Hr.
  pose proof (checkDone_packed (VBool false) (QArr (cb0 :: cbs)) gitDir
                gitCommands [] (Locals (VStr h) (VStr packed) VNull)
                [] Hht Hp eq_refl) as D.
  cbn [app length head packedRefs master to_string] in D.
  rewrite D by discriminate.
  destruct (RegExp.exec _ _ _) as [[?|]|?]; cbn [fst snd];
    change (flush (cb0 :: cbs) ?a) with (Callback cb0 a :: flush cbs a);
    rewrite flush_is_map; reflexivity.
Qed.

(** While [_shaCache] holds a hash every call is answered at once, and
    nothing is read. *)
Lemma cache_hits cbs : forall st,
  truthy (_shaCache st) = true ->
  run NODE_ENV (map Call cbs) st
  = (st, map (fun cb => Callback cb [VNull; _shaCache st]) cbs).
Proof.
  induction cbs as [|cb cbs IH]; intros st Hc; [reflexivity|].
  cbn [map]. rewrite HeadShaFacts.head_run_cons. cbn [step].
  unfold getHeadSha. rewrite Hc. cbn [fst snd]. now rewrite IH.
Qed.

(** X3.  While [_shaCache] holds a hash, [getHeadSha] answers every call
    at once with it and starts no read; after the timer has reset the slot,
    the next call starts a new resolution. *)
Theorem head_cache_window st cbs cb :
  truthy (_shaCache st) = true ->
  _shaQueue st = QFalse ->
  String.eqb (_gitDir st) "" = false ->
  run NODE_ENV (map Call cbs ++ [Expire; Call cb]) st
  = (Inst (VBool false) (QArr [cb]) (_gitDir st) (_gitCommands st)
       (acts st ++ [fresh]),
     map (fun cb => Callback cb [VNull; _shaCache st]) cbs
     ++ [PathExists (length (acts st))]).
Proof.
  intros Hc Hq Hd. rewrite head_run_app, cache_hits by assumption.
  cbn [fst snd]. do 2 f_equal.
  - unfold run, step, getHeadSha, set_cache.
    cbn [_shaCache _shaQueue _gitDir _gitCommands acts truthy fst snd].
    rewrite Hq, Hd. reflexivity.
  - unfold run, step, getHeadSha, set_cache.
    cbn [_shaCache _shaQueue _gitDir _gitCommands acts truthy fst snd].
    rewrite Hq, Hd. reflexivity.
Qed.

Lemma failure_step i errv st :
  failure i = Some errv -> step NODE_ENV i st = groupCallback [errv] st.
Proof.
  destruct i as [| | |a err result|a err result| |]; try discriminate;
    cbn [failure step]; unfold on_packedRefs, on_HEAD;
    destruct (truthy err).
  - now intros [= <-].
  - discriminate.
  - now intros [= <-].
  - destruct (Str.head_ref (to_string result)); [discriminate|].
    now intros [= <-].
Qed.

(** X4.  When a read of [packed-refs] or of [HEAD] fails, or [HEAD] does
    not hold a [ref:] line, every queued caller is called once with that
    error; a second failure of the same resolution calls nobody; nothing is
    cached, and the next call starts a new resolution. *)
Theorem read_failure_reaches_all gitDir gitCommands cb0 cbs i1 i2 errv1 errv2
    cb :
  String.eqb gitDir "" = false ->
  failure i1 = Some errv1 ->
  failure i2 = Some errv2 ->
  run NODE_ENV
    ((Call cb0 :: map Call cbs ++ [Exists 0 true]) ++ [i1; i2; Call cb])
    (init gitDir gitCommands)
  = (Inst (VBool false) (QArr [cb]) gitDir gitCommands [fresh; fresh],
     [PathExists 0; ReadFile 0 PackedRefs; ReadFile 0 HEAD]
     ++ map (fun cb => Callback cb [errv1]) (cb0 :: cbs)
     ++ [PathExists 1]).
Proof.
  intros Hd H1 H2. rewrite head_run_app, first_calls by assumption.
  cbn [fst snd].
  rewrite (head_run_step _ _ _ _ _ (failure_step i1 errv1 _ H1)).
  rewrite (head_run_step _ _ _ _ _ (failure_step i2 errv2 _ H2)).
  unfold run, step, getHeadSha, groupCallback, set_queue.
  cbn [_shaCache _shaQueue _gitDir _gitCommands acts truthy fst snd].
  rewrite Hd. cbn [fst snd app length].
  change (flush (cb0 :: cbs) ?a) with (Callback cb0 a :: flush cbs a).
  rewrite flush_is_map, ?app_nil_r. reflexivity.
Qed.

(** X5.  The queue belongs to the instance, not to the resolution.  When
    a resolution has failed and a new call has started the next one, a late
    failure of the other read of the first resolution is handed to the
    caller of the second, and empties the queue: the second resolution then
    completes, caches its hash, and calls nobody. *)
Theorem stale_failure_crosses gitDir gitCommands a b i1 i2 errv1 errv2
    packed text h e loose sha reads :
  String.eqb gitDir "" = false ->
  failure i1 = Some errv1 ->
  failure i2 = Some errv2 ->
  truthy (VStr packed) = true ->
  Str.head_ref text = Some h ->
  truthy (VStr h) = true ->
  Str.hash_line loose = Some sha ->
  In reads (orders (ReadPackedRefs 1 VNull (VStr packed))
              (ReadHEAD 1 VNull (VStr text)) (ReadRef 1 e (VStr loose))) ->
  run NODE_ENV
    ([Call a; Exists 0 true; i1; Call b; i2; Exists 1 true] ++ reads)
    (init gitDir gitCommands)
  = (Inst (VStr sha) QFalse gitDir gitCommands
       [fresh; Locals (VStr h) (VStr packed) (VStr loose)],
     [PathExists 0; ReadFile 0 PackedRefs; ReadFile 0 HEAD;
      Callback a [errv1];
      PathExists 1;
      Callback b [errv2];
      ReadFile 1 PackedRefs; ReadFile 1 HEAD; ReadFile 1 (Ref h);
      SetTimeout 100]).
Proof.
  intros Hd H1 H2 Hp Hh Hht Hl Hin.
  pose proof (hash_line_truthy _ _ Hl) as Hlt.
  rewrite head_run_app.
  assert (Hfirst :
    run NODE_ENV [Call a; Exists 0 true; i1; Call b; i2; Exists 1 true]
      (init gitDir gitCommands)
    = (Inst (VBool false) QFalse gitDir gitCommands [fresh; fresh],
       [PathExists 0; ReadFile 0 PackedRefs; ReadFile 0 HEAD;
        Callback a [errv1]; PathExists 1; Callback b [errv2];
        ReadFile 1 PackedRefs; ReadFile 1 HEAD])).
  { pose proof (first_calls gitDir gitCommands a [] Hd) as F.
    cbn [map app] in F.
    change [Call a; Exists 0 true; i1; Call b; i2; Exists 1 true]
      with ([Call a; Exists 0 true] ++ [i1; Call b; i2; Exists 1 true]).
    rewrite head_run_app, F. cbn [fst snd].
    rewrite (head_run_step _ _ _ _ _ (failure_step i1 errv1 _ H1)).
    unfold groupCallback, set_queue.
    cbn [_shaCache _shaQueue _gitDir _gitCommands acts flush].
    rewrite HeadShaFacts.head_run_cons. cbn [step]. unfold getHeadSha.
    cbn [_shaCache _shaQueue _gitDir _gitCommands acts truthy fst snd].
    rewrite Hd. cbn [fst snd app length].
    rewrite (head_run_step _ _ _ _ _ (failure_step i2 errv2 _ H2)).
    reflexivity. }
  rewrite Hfirst. cbn [fst snd].
  pose proof (join (VBool false) QFalse gitDir gitCommands
                [fresh] [] (VStr packed) text h e (VStr loose) reads Hh Hin)
    as J.
  cbn [app length] in J. rewrite J. unfold or_else. rewrite Hlt.
  pose proof (checkDone_loose (VBool false) QFalse gitDir
                gitCommands [fresh]
                (Locals (VStr h) (VStr packed) (VStr loose))
                [] sha Hht Hp Hlt Hl) as D.
  cbn [app length] in D. rewrite D. reflexivity.
Qed.

End Facts.
Lemma loose_ref_resolves_witness :
  run (E := RegExp.fragment) ""
    ([Call 1%nat; Call 2%nat; Call 3%nat; Exists 0 true]
     ++ Samples.reads 0 (VStr Samples.loose_text))
    (init "/srv/repo/.git" [])
  = (Inst (VStr Samples.sha1) QFalse "/srv/repo/.git" []
       [Locals (VStr "refs/heads/master") (VStr Samples.packed_text)
          (VStr Samples.loose_text)],
     [PathExists 0; ReadFile 0 PackedRefs; ReadFile 0 HEAD;
      ReadFile 0 (Ref "refs/heads/master");
      Callback 1%nat [VNull; VStr Samples.sha1];
      Callback 2%nat [VNull; VStr Samples.sha1];
      Callback 3%nat [VNull; VStr Samples.sha1];
      SetTimeout 100]).
Proof.
  apply (loose_ref_resolves "" (E := RegExp.fragment) "/srv/repo/.git" []
           1%nat [2%nat; 3%nat] Samples.packed_text Samples.head_text
           "refs/heads/master" VNull Samples.loose_text Samples.sha1
           (Samples.reads 0 (VStr Samples.loose_text)));
    try (vm_compute; reflexivity).
  simpl. auto.
Defined.

Lemma packed_refs_fallback_witness :
  run (E := RegExp.fragment) ""
    ([Call 1%nat; Call 2%nat; Exists 0 true] ++ Samples.reads 0 VUndef)
    (init "/srv/repo/.git" [])
  = (Inst (VStr Samples.sha2) QFalse "/srv/repo/.git" []
       [Locals (VStr "refs/heads/master") (VStr Samples.packed_text) VNull],
     [PathExists 0; ReadFile 0 PackedRefs; ReadFile 0 HEAD;
      ReadFile 0 (Ref "refs/heads/master");
      Callback 1%nat [VNull; VStr Samples.sha2];
      Callback 2%nat [VNull; VStr Samples.sha2];
      SetTimeout 100]).
Proof.
  etransitivity.
  - apply (packed_refs_fallback "" (E := RegExp.fragment) "/srv/repo/.git" []
             1%nat [2%nat] Samples.packed_text Samples.head_text
             "refs/heads/master" VNull VUndef (Samples.reads 0 VUndef));
      try (vm_compute; reflexivity).
    simpl. auto.
  - vm_compute. reflexivity.
Defined.

(** The sample: a [HEAD] on the packed branch [c++].  The pattern made of
    the ref name cannot be built, and the callers get the [SyntaxError]. *)
Example packed_refs_plus :
  run (E := RegExp.fragment) ""
    [Call 1%nat; Call 2%nat; Exists 0 true;
     ReadHEAD 0 VNull (VStr Samples.head_plus);
     ReadPackedRefs 0 VNull (VStr Samples.packed_plus);
     ReadRef 0 Samples.EACCES VUndef]
    (init "/srv/repo/.git" [])
  = (Inst (VBool false) QFalse "/srv/repo/.git" []
       [Locals (VStr "refs/heads/c++") (VStr Samples.packed_plus) VNull],
     [PathExists 0; ReadFile 0 PackedRefs; ReadFile 0 HEAD;
      ReadFile 0 (Ref "refs/heads/c++");
      Callback 1%nat
        [RegExp.nothing_to_repeat "([a-f0-9]{40}) refs/heads/c++"];
      Callback 2%nat
        [RegExp.nothing_to_repeat "([a-f0-9]{40}) refs/heads/c++"]]).
Proof. vm_compute. reflexivity. Qed.

Lemma head_cache_window_witness :
  run (E := RegExp.fragment) ""
    ([Call 4%nat; Call 5%nat] ++ [Expire; Call 6%nat]) Samples.resolved
  = (Inst (VBool false) (QArr [6%nat]) "/srv/repo/.git" []
       (acts Samples.resolved ++ [fresh]),
     [Callback 4%nat [VNull; VStr Samples.sha1];
      Callback 5%nat [VNull; VStr Samples.sha1];
      PathExists 1]).
Proof.
  apply (head_cache_window "" (E := RegExp.fragment) Samples.resolved
           [4%nat; 5%nat] 6%nat); vm_compute; reflexivity.
Defined.

Lemma read_failure_reaches_all_witness :
  run (E := RegExp.fragment) ""
    ([Call 1%nat; Call 2%nat; Exists 0 true]
     ++ [ReadHEAD 0 VNull (VStr Samples.loose_text);
         ReadPackedRefs 0 Samples.EACCES VUndef; Call 3%nat])
    (init "/srv/repo/.git" [])
  = (Inst (VBool false) (QArr [3%nat]) "/srv/repo/.git" [] [fresh; fresh],
     [PathExists 0; ReadFile 0 PackedRefs; ReadFile 0 HEAD;
      Callback 1%nat [null_has_no_properties];
      Callback 2%nat [null_has_no_properties];
      PathExists 1]).
Proof.
  apply (read_failure_reaches_all "" (E := RegExp.fragment) "/srv/repo/.git"
           [] 1%nat [2%nat] (ReadHEAD 0 VNull (VStr Samples.loose_text))
           (ReadPackedRefs 0 Samples.EACCES VUndef)
           null_has_no_properties Samples.EACCES 3%nat);
    vm_compute; reflexivity.
Defined.

Lemma stale_failure_crosses_witness :
  run (E := RegExp.fragment) ""
    ([Call 1%nat; Exists 0 true;
      ReadHEAD 0 Samples.EACCES VUndef;
      Call 2%nat;
      ReadPackedRefs 0 Samples.EACCES VUndef;
      Exists 1 true]
     ++ Samples.reads 1 (VStr Samples.loose_text))
    (init "/srv/repo/.git" [])
  = (Inst (VStr Samples.sha1) QFalse "/srv/repo/.git" []
       [fresh;
        Locals (VStr "refs/heads/master") (VStr Samples.packed_text)
          (VStr Samples.loose_text)],
     [PathExists 0; ReadFile 0 PackedRefs; ReadFile 0 HEAD;
      Callback 1%nat [Samples.EACCES];
      PathExists 1;
      Callback 2%nat [Samples.EACCES];
      ReadFile 1 PackedRefs; ReadFile 1 HEAD;
      ReadFile 1 (Ref "refs/heads/master");
      SetTimeout 100]).
Proof.
  apply (stale_failure_crosses "" (E := RegExp.fragment) "/srv/repo/.git" []
           1%nat 2%nat (ReadHEAD 0 Samples.EACCES VUndef)
           (ReadPackedRefs 0 Samples.EACCES VUndef)
           Samples.EACCES Samples.EACCES
           Samples.packed_text Samples.head_text "refs/heads/master" VNull
           Samples.loose_text Samples.sha1
           (Samples.reads 1 (VStr Samples.loose_text)));
    try (vm_compute; reflexivity).
  simpl. auto.
Defined.

End HeadShaMore.

(** ** The branch and tag resolver: lookups from call to answer *)

Module BranchShaMore.
Import BranchSha BranchInputs.

Section Facts.
Context (NODE_ENV : string) {E : RegExp.Engine}.

Lemma branch_run_cons i ins st :
  run NODE_ENV (i :: ins) st =
  (fst (run NODE_ENV ins (fst (step NODE_ENV i st))),
   snd (step NODE_ENV i st) ++ snd (run NODE_ENV ins (fst (step NODE_ENV i st)))).
Proof.
  simpl. destruct (step NODE_ENV i st) as [st1 e1]. simpl.
  destruct (run NODE_ENV ins st1). reflexivity.
Qed.

Lemma branch_run_step i ins st st1 e1 :
  step NODE_ENV i st = (st1, e1) ->
  run NODE_ENV (i :: ins) st
  = (fst (run NODE_ENV ins st1), e1 ++ snd (run NODE_ENV ins st1)).
Proof. intros H. now rewrite branch_run_cons, H. Qed.

Lemma branch_run_app ins1 : forall ins2 st,
  run NODE_ENV (ins1 ++ ins2) st
  = (fst (run NODE_ENV ins2 (fst (run NODE_ENV ins1 st))),
     snd (run NODE_ENV ins1 st)
     ++ snd (run NODE_ENV ins2 (fst (run NODE_ENV ins1 st)))).
Proof.
  induction ins1 as [|i ins1 IH]; intros ins2 st.
  - simpl. now destruct (run NODE_ENV ins2 st).
  - rewrite <- app_comm_cons, !branch_run_cons, IH. cbn [fst snd].
    now rewrite app_assoc.
Qed.

Lemma branch_flush_map q arguments :
  flush q arguments = map (fun cb => Callback cb arguments) q.
Proof. induction q as [|cb q IH]; simpl; [reflexivity | now rewrite IH]. Qed.

(** The first call for a name with nothing cached and nothing in flight
    starts [git show-ref]. *)
Lemma branch_first_call branch cb st :
  checkCache (candidates branch) (_branchsCache st) = None ->
  in_flight st branch = false ->
  inherited branch = false ->
  getBranchSha branch cb st
  = (Inst (_branchsCache st) (<[branch := QArr [cb]]> (_branchsQueue st))
       (_gitCommands st),
     [GitExec ["show-ref"] (VStr "utf-8") branch]).
Proof.
  intros Hc Hf Hi. unfold getBranchSha, in_flight in *. rewrite Hc.
  destruct (_branchsQueue st !! branch) as [[|q]|];
    [reflexivity | discriminate | now rewrite Hi].
Qed.

(** Calls for a name whose lookup is in flight join its queue. *)
Lemma branch_queued branch cbs : forall c qs g q,
  checkCache (candidates branch) c = None ->
  qs !! branch = Some (QArr q) ->
  run NODE_ENV (map (Call branch) cbs) (Inst c qs g)
  = (Inst c (<[branch := QArr (q ++ cbs)]> qs) g, []).
Proof.
  induction cbs as [|cb cbs IH]; intros c qs g q Hc Hq.
  - simpl. now rewrite app_nil_r, insert_id.
  - cbn [map]. rewrite branch_run_cons. cbn [step]. unfold getBranchSha.
    cbn [_branchsCache _branchsQueue _gitCommands]. rewrite Hc, Hq.
    cbn [fst snd].
    rewrite (IH _ _ _ (q ++ [cb]) Hc (lookup_insert_eq _ _ _)).
    cbn [fst snd]. now rewrite insert_insert_eq, <- app_assoc.
Qed.

(** From the first call to the close of the subprocess. *)
Lemma lookup_in_flight branch cb0 cbs st :
  checkCache (candidates branch) (_branchsCache st) = None ->
  in_flight st branch = false ->
  inherited branch = false ->
  run NODE_ENV (Call branch cb0 :: map (Call branch) cbs) st
  = (Inst (_branchsCache st)
       (<[branch := QArr (cb0 :: cbs)]> (_branchsQueue st)) (_gitCommands st),
     [GitExec ["show-ref"] (VStr "utf-8") branch]).
Proof.
  intros Hc Hf Hi. rewrite branch_run_cons. cbn [step].
  rewrite (branch_first_call _ _ _ Hc Hf Hi). cbn [fst snd].
  rewrite (branch_queued branch cbs _ _ _ [cb0] Hc (lookup_insert_eq _ _ _)).
  cbn [fst snd app]. now rewrite insert_insert_eq.
Qed.

Lemma checkCache_insert keys : forall c key sha,
  checkCache keys c = None -> In key keys -> truthy sha = true ->
  checkCache keys (<[key := sha]> c) = Some sha.
Proof.
  induction keys as [|k keys IH]; intros c key sha Hc Hin Ht; [destruct Hin|].
  simpl in *. unfold cached in *. rewrite lookup_insert.
  destruct (c !! k) as [v|] eqn:Hk.
  - destruct (truthy v) eqn:Hv; [discriminate|]. case_decide as Hd.
    + now rewrite Ht.
    + rewrite Hv. destruct Hin as [->|Hin]; [contradiction|]. now apply IH.
  - case_decide as Hd.
    + now rewrite Ht.
    + destruct Hin as [->|Hin]; [contradiction|]. now apply IH.
Qed.

Lemma first_match_in keys lines : forall key sha,
  first_match keys lines = Returned (Some (key, sha)) -> In key keys.
Proof.
  induction keys as [|k keys IH]; intros key sha Hm; [discriminate|].
  simpl in Hm. destruct (check k lines) as [[groups|]|exn].
  - injection Hm as <- _. now left.
  - right. eauto.
  - discriminate.
Qed.

Lemma checkCache_expired keys : forall c key,
  checkCache keys c = None ->
  checkCache keys (<[key := VBool false]> c) = None.
Proof.
  induction keys as [|k keys IH]; intros c key Hc; [reflexivity|].
  simpl in *. unfold cached in *. rewrite lookup_insert.
  destruct (c !! k) as [v|] eqn:Hk.
  - destruct (truthy v) eqn:Hv; [discriminate|].
    case_decide; [|rewrite Hv]; now apply IH.
  - case_decide; now apply IH.
Qed.

(** X6.  One lookup of a name that is not cached: the calls that arrive
    while [git show-ref] runs are queued, one subprocess serves them all,
    each is called in order of arrival with the hash of the first candidate
    that matches, and the hash is cached under that candidate for 100 ms.
    Until the timer goes off a call for the name is answered from the
    cache, with no subprocess; after it, the next call runs [git show-ref]
    again. *)
Theorem branch_lookup_resolves branch cb0 cbs cb1 cb2 st exitCode stdout
    stderr key sha :
  checkCache (candidates branch) (_branchsCache st) = None ->
  in_flight st branch = false ->
  inherited branch = false ->
  Exec.failed exitCode = false ->
  first_match (candidates branch) (String.concat "" stdout)
  = Returned (Some (key, sha)) ->
  truthy sha = true ->
  run NODE_ENV
    (Call branch cb0 :: map (Call branch) cbs
     ++ [ShowRefClosed branch exitCode stdout stderr; Call branch cb1;
         Expire key; Call branch cb2]) st
  = (Inst (<[key := VBool false]> (_branchsCache st))
       (<[branch := QArr [cb2]]> (_branchsQueue st)) (_gitCommands st),
     GitExec ["show-ref"] (VStr "utf-8") branch
     :: map (fun cb => Callback cb [VNull; sha]) (cb0 :: cbs)
     ++ [SetTimeout key 100; Callback cb1 [VNull; sha];
         GitExec ["show-ref"] (VStr "utf-8") branch]).
Proof.
  intros Hc Hf Hi Hx Hm Ht.
  rewrite app_comm_cons, branch_run_app, lookup_in_flight by assumption.
  cbn [fst snd].
  erewrite branch_run_step.
  2:{ cbn [step _gitCommands]. unfold Exec.close. rewrite Hx.
      unfold on_show_ref. cbn [nth truthy to_string Exec.Tools_join].
      rewrite Hm. unfold checkDone, groupCallback.
      cbn [_branchsCache _branchsQueue _gitCommands fst snd].
      rewrite lookup_insert_eq, insert_insert_eq, branch_flush_map.
      reflexivity. }
  erewrite branch_run_step.
  2:{ cbn [step]. unfold getBranchSha. cbn [_branchsCache].
      rewrite (checkCache_insert _ _ key sha Hc (first_match_in _ _ _ _ Hm) Ht).
      reflexivity. }
  erewrite branch_run_step.
  2:{ cbn [step _branchsCache _branchsQueue _gitCommands].
      rewrite insert_insert_eq. reflexivity. }
  erewrite branch_run_step.
  2:{ cbn [step]. unfold getBranchSha.
      cbn [_branchsCache _branchsQueue _gitCommands].
      rewrite (checkCache_expired _ _ key Hc), lookup_insert_eq.
      rewrite insert_insert_eq. reflexivity. }
  cbn [run fst snd app]. rewrite <- app_assoc. reflexivity.
Qed.

(** X7.  When [git show-ref] succeeds, the pattern of every candidate of
    the name is built and none matches the output, every queued caller
    gets the error [Invalid branch <name>]; the failure is not cached: the
    next call runs the subprocess again.  When a candidate that is reached
    does not make a pattern, as for the name [c++], the exception of
    [new RegExp] leaves the function that [git show-ref] calls back:
    nobody is called, nothing is cached and the queue of the name is not
    reset, so the next call for the name is queued behind callers that are
    never answered, and starts nothing. *)
Theorem unknown_branch branch cb0 cbs cb1 st exitCode stdout stderr :
  checkCache (candidates branch) (_branchsCache st) = None ->
  in_flight st branch = false ->
  inherited branch = false ->
  Exec.failed exitCode = false ->
  (first_match (candidates branch) (String.concat "" stdout) = Returned None ->
   run NODE_ENV
     (Call branch cb0 :: map (Call branch) cbs
      ++ [ShowRefClosed branch exitCode stdout stderr; Call branch cb1]) st
   = (Inst (_branchsCache st)
        (<[branch := QArr [cb1]]> (_branchsQueue st)) (_gitCommands st),
      GitExec ["show-ref"] (VStr "utf-8") branch
      :: map (fun cb => Callback cb [Error ("Invalid branch " +:+ branch)])
           (cb0 :: cbs)
      ++ [GitExec ["show-ref"] (VStr "utf-8") branch]))
  /\ (forall exn,
      first_match (candidates branch) (String.concat "" stdout) = Threw exn ->
      run NODE_ENV
        (Call branch cb0 :: map (Call branch) cbs
         ++ [ShowRefClosed branch exitCode stdout stderr; Call branch cb1]) st
      = (Inst (_branchsCache st)
           (<[branch := QArr (cb0 :: cbs ++ [cb1])]> (_branchsQueue st))
           (_gitCommands st),
         [GitExec ["show-ref"] (VStr "utf-8") branch; Uncaught exn])).
Proof.
  intros Hc Hf Hi Hx. split.
  - intros Hm.
    rewrite app_comm_cons, branch_run_app, lookup_in_flight by assumption.
    cbn [fst snd]. rewrite branch_run_cons. cbn [step _gitCommands].
    unfold Exec.close. rewrite Hx. unfold on_show_ref.
    cbn [nth truthy to_string Exec.Tools_join]. rewrite Hm.
    unfold groupCallback.
    cbn [_branchsCache _branchsQueue _gitCommands fst snd].
    rewrite lookup_insert_eq, insert_insert_eq, branch_flush_map.
    unfold run, step, getBranchSha. cbn [_branchsCache _branchsQueue fst snd].
    rewrite Hc, lookup_insert_eq. cbn [fst snd _gitCommands].
    rewrite insert_insert_eq, app_nil_r. reflexivity.
  - intros exn Hm.
    rewrite app_comm_cons, branch_run_app, lookup_in_flight by assumption.
    cbn [fst snd]. rewrite branch_run_cons. cbn [step _gitCommands].
    unfold Exec.close. rewrite Hx. unfold on_show_ref.
    cbn [nth truthy to_string Exec.Tools_join]. rewrite Hm.
    cbn [fst snd].
    unfold run, step, getBranchSha. cbn [_branchsCache _branchsQueue fst snd].
    rewrite Hc, lookup_insert_eq. cbn [fst snd _gitCommands].
    rewrite insert_insert_eq. reflexivity.
Qed.

(** X8.  When [git show-ref] exits with a nonzero status, every queued
    caller gets the error of the executor, nothing is cached, and the next
    call runs the subprocess again. *)
Theorem show_ref_failure branch cb0 cbs cb1 st exitCode stdout stderr :
  checkCache (candidates branch) (_branchsCache st) = None ->
  in_flight st branch = false ->
  inherited branch = false ->
  Exec.failed exitCode = true ->
  exists errno,
    run NODE_ENV
      (Call branch cb0 :: map (Call branch) cbs
       ++ [ShowRefClosed branch exitCode stdout stderr; Call branch cb1]) st
    = (Inst (_branchsCache st)
         (<[branch := QArr [cb1]]> (_branchsQueue st)) (_gitCommands st),
       GitExec ["show-ref"] (VStr "utf-8") branch
       :: map (fun cb =>
                 Callback cb
                   [VError "Error"
                      (Exec.message (_gitCommands st ++ ["show-ref"]) stderr)
                      errno])
            (cb0 :: cbs)
       ++ [GitExec ["show-ref"] (VStr "utf-8") branch]).
Proof.
  intros Hc Hf Hi Hx. eexists.
  rewrite app_comm_cons, branch_run_app, lookup_in_flight by assumption.
  cbn [fst snd]. rewrite branch_run_cons. cbn [step _gitCommands].
  unfold Exec.close. rewrite Hx. unfold on_show_ref.
  cbn [nth truthy]. unfold groupCallback.
  cbn [_branchsCache _branchsQueue _gitCommands fst snd].
  rewrite lookup_insert_eq, insert_insert_eq, branch_flush_map.
  unfold run, step, getBranchSha. cbn [_branchsCache _branchsQueue fst snd].
  rewrite Hc, lookup_insert_eq. cbn [fst snd _gitCommands].
  rewrite insert_insert_eq, app_nil_r. reflexivity.
Qed.

Lemma remotes_not_inherited branch :
  Str.isRemotes branch = true -> inherited branch = false.
Proof.
  intros Hr. destruct (inherited branch) eqn:Hi; [|reflexivity].
  unfold inherited in Hi. apply existsb_exists in Hi as (name & Hin & Heq).
  apply String.eqb_eq in Heq. subst name. simpl in Hin.
  repeat (destruct Hin as [<-|Hin]; [discriminate Hr|]). destruct Hin.
Qed.

(** X9.  A name of the form [a/b] (one slash, both parts made of name
    characters) that does not start with [heads/], [remotes/] or [tags/] is
    taken for a remote-tracking branch: the only pattern tried on the
    output of [git show-ref] is the one built from [remotes/a/b] as it
    is, whatever local branches and tags there are.  When it matches, the
    caller gets the hash, which is cached; when it does not, the caller
    gets [Invalid branch a/b]; and when [remotes/a/b] does not make a
    pattern, which the plus sign that a name may hold can cause, the
    exception leaves the function that [git show-ref] calls back and
    nobody is called. *)
Theorem remote_shorthand_only branch cb st exitCode stdout stderr :
  Str.isFullPath branch = false ->
  Str.isRemotes branch = true ->
  cached (_branchsCache st) ("remotes/" +:+ branch) = None ->
  in_flight st branch = false ->
  Exec.failed exitCode = false ->
  snd (run NODE_ENV
         [Call branch cb; ShowRefClosed branch exitCode stdout stderr] st)
  = GitExec ["show-ref"] (VStr "utf-8") branch ::
    match check ("remotes/" +:+ branch) (String.concat "" stdout) with
    | Returned (Some groups) =>
        [Callback cb [VNull; RegExp.group1 groups];
         SetTimeout ("remotes/" +:+ branch) 100]
    | Returned None => [Callback cb [Error ("Invalid branch " +:+ branch)]]
    | Threw exn => [Uncaught exn]
    end.
Proof.
  intros Hfull Hrem Hc Hf Hx.
  assert (Hcand : candidates branch = ["remotes/" +:+ branch])
    by (unfold candidates; now rewrite Hfull, Hrem).
  assert (Hcc : checkCache (candidates branch) (_branchsCache st) = None)
    by (rewrite Hcand; simpl; now rewrite Hc).
  change [Call branch cb; ShowRefClosed branch exitCode stdout stderr]
    with ((Call branch cb :: map (Call branch) [])
          ++ [ShowRefClosed branch exitCode stdout stderr]).
  rewrite branch_run_app,
    (lookup_in_flight branch cb [] st Hcc Hf (remotes_not_inherited _ Hrem)).
  cbn [fst snd app]. f_equal.
  unfold run, step. cbn [_gitCommands]. unfold Exec.close. rewrite Hx.
  unfold on_show_ref. cbn [nth truthy to_string Exec.Tools_join].
  rewrite Hcand. cbn [first_match].
  destruct (check ("remotes/" +:+ branch) (String.concat "" stdout))
    as [[groups|]|exn];
    unfold checkDone, groupCallback;
    cbn [_branchsCache _branchsQueue _gitCommands fst snd];
    rewrite ?lookup_insert_eq; reflexivity.
Qed.

(** No own property of [_branchsQueue] is ever created under an inherited
    name. *)
Lemma inherited_never_queued branch ins : forall st,
  inherited branch = true ->
  _branchsQueue st !! branch = None ->
  forallb (no_close branch) ins = true ->
  _branchsQueue (fst (run NODE_ENV ins st)) !! branch = None.
Proof.
  induction ins as [|i ins IH]; intros st Hi Hq Hn; [exact Hq|].
  simpl in Hn. apply andb_true_iff in Hn as [Hn1 Hn2].
  rewrite branch_run_cons. cbn [fst]. apply IH; auto.
  destruct i as [b cb|b x o e|k]; cbn [step].
  - unfold getBranchSha.
    destruct (checkCache _ _); [exact Hq|].
    destruct (decide (b = branch)) as [->|Hne].
    + rewrite Hq, Hi. exact Hq.
    + destruct (_branchsQueue st !! b) as [[|q]|];
        [| |destruct (inherited b)]; cbn [fst _branchsQueue];
        rewrite ?lookup_insert_ne by assumption; exact Hq.
  - cbn [no_close] in Hn1. apply negb_true_iff, String.eqb_neq in Hn1.
    unfold Exec.close.
    destruct (Exec.failed x); unfold on_show_ref; cbn [nth truthy].
    + unfold groupCallback. cbn [fst _branchsQueue].
      now rewrite lookup_insert_ne.
    + destruct (first_match _ _) as [[[key sha]|]|exn];
        unfold checkDone, groupCallback; cbn [fst _branchsQueue _branchsCache];
        rewrite ?lookup_insert_ne by assumption; exact Hq.
  - exact Hq.
Qed.

(** X10.  For a name that every object inherits from
    [Object.prototype], such as [constructor], the test of line 522 finds
    the inherited property instead of a queue.  In every state the
    instance can reach, a call for such a name is answered from the cache,
    when one of its candidates is cached, or throws: it never queues the
    caller and never starts [git show-ref]. *)
Theorem inherited_name_throws branch cb gitCommands ins :
  inherited branch = true ->
  forallb (no_close branch) ins = true ->
  let st := fst (run NODE_ENV ins (init gitCommands)) in
  match checkCache (candidates branch) (_branchsCache st) with
  | Some sha => getBranchSha branch cb st = (st, [Callback cb [VNull; sha]])
  | None => getBranchSha branch cb st = (st, [Uncaught push_is_not_a_function])
  end.
Proof.
  intros Hi Hn st.
  pose proof (inherited_never_queued branch ins (init gitCommands) Hi
                (lookup_empty _) Hn) as Hq.
  fold st in Hq. unfold getBranchSha.
  destruct (checkCache _ _); [reflexivity|]. now rewrite Hq, Hi.
Qed.

End Facts.
Lemma branch_lookup_resolves_witness :
  run (E := RegExp.fragment) ""
    (Call "main" 1%nat :: map (Call "main") [2%nat; 3%nat]
     ++ [ShowRefClosed "main" (Some 0%N) [Samples.show_ref] [];
         Call "main" 4%nat; Expire "heads/main"; Call "main" 5%nat])
    (init [])
  = (Inst (<[ "heads/main" := VBool false ]> ∅)
       (<[ "main" := QArr [5%nat] ]> ∅) [],
     GitExec ["show-ref"] (VStr "utf-8") "main"
     :: map (fun cb => Callback cb [VNull; VStr Samples.sha1])
          [1%nat; 2%nat; 3%nat]
     ++ [SetTimeout "heads/main" 100;
         Callback 4%nat [VNull; VStr Samples.sha1];
         GitExec ["show-ref"] (VStr "utf-8") "main"]).
Proof.
  apply (branch_lookup_resolves "" (E := RegExp.fragment) "main" 1%nat
           [2%nat; 3%nat] 4%nat 5%nat (init []) (Some 0%N)
           [Samples.show_ref] [] "heads/main" (VStr Samples.sha1));
    vm_compute; reflexivity.
Defined.

Lemma unknown_branch_witness :
  run (E := RegExp.fragment) ""
    (Call "release" 1%nat :: map (Call "release") [2%nat]
     ++ [ShowRefClosed "release" (Some 0%N) [Samples.show_ref] [];
         Call "release" 3%nat])
    (init [])
  = (Inst ∅ (<[ "release" := QArr [3%nat] ]> ∅) [],
     GitExec ["show-ref"] (VStr "utf-8") "release"
     :: map (fun cb => Callback cb [Error "Invalid branch release"])
          [1%nat; 2%nat]
     ++ [GitExec ["show-ref"] (VStr "utf-8") "release"])
  /\ run (E := RegExp.fragment) ""
       (Call "c++" 1%nat :: map (Call "c++") [2%nat]
        ++ [ShowRefClosed "c++" (Some 0%N) [Samples.show_ref_plus] [];
            Call "c++" 3%nat])
       (init [])
     = (Inst ∅ (<[ "c++" := QArr (1%nat :: [2%nat] ++ [3%nat]) ]> ∅) [],
        [GitExec ["show-ref"] (VStr "utf-8") "c++";
         Uncaught
           (RegExp.nothing_to_repeat "^([a-f0-9]{40}) refs/heads/c++$")]).
Proof.
  split.
  - apply (unknown_branch "" (E := RegExp.fragment) "release" 1%nat [2%nat]
             3%nat (init []) (Some 0%N) [Samples.show_ref] []);
      vm_compute; reflexivity.
  - apply (unknown_branch "" (E := RegExp.fragment) "c++" 1%nat [2%nat]
             3%nat (init []) (Some 0%N) [Samples.show_ref_plus] []);
      vm_compute; reflexivity.
Defined.

Lemma show_ref_failure_witness :
  exists errno,
    run (E := RegExp.fragment) ""
      (Call "main" 1%nat :: map (Call "main") [2%nat]
       ++ [ShowRefClosed "main" (Some 128%N) [] [Samples.bad_revision];
           Call "main" 3%nat])
      (init ["--git-dir=/srv/repo.git"])
    = (Inst ∅ (<[ "main" := QArr [3%nat] ]> ∅) ["--git-dir=/srv/repo.git"],
       GitExec ["show-ref"] (VStr "utf-8") "main"
       :: map (fun cb =>
                 Callback cb
                   [VError "Error"
                      (Exec.message ["--git-dir=/srv/repo.git"; "show-ref"]
                         [Samples.bad_revision]) errno])
            [1%nat; 2%nat]
       ++ [GitExec ["show-ref"] (VStr "utf-8") "main"]).
Proof.
  apply (show_ref_failure "" (E := RegExp.fragment) "main" 1%nat [2%nat]
           3%nat (init ["--git-dir=/srv/repo.git"]) (Some 128%N) []
           [Samples.bad_revision]); vm_compute; reflexivity.
Defined.

Lemma remote_shorthand_only_witness :
  check (E := RegExp.fragment) "heads/feature/login" Samples.show_ref_feature
    = Returned (Some [VStr Samples.sha1])
  /\ snd (run (E := RegExp.fragment) ""
            [Call "feature/login" 1%nat;
             ShowRefClosed "feature/login" (Some 0%N)
               [Samples.show_ref_feature] []] (init []))
     = [GitExec ["show-ref"] (VStr "utf-8") "feature/login";
        Callback 1%nat [Error "Invalid branch feature/login"]].
Proof.
  split; [vm_compute; reflexivity|].
  etransitivity.
  - apply (remote_shorthand_only "" (E := RegExp.fragment) "feature/login"
             1%nat (init []) (Some 0%N) [Samples.show_ref_feature] []);
      vm_compute; reflexivity.
  - vm_compute. reflexivity.
Defined.

(** The sample: remote-tracking branches whose names hold plus signs.
    [origin/c++] is listed and its pattern cannot be built; [origin/a+b]
    is listed and its pattern, which asks for one [a] or more and then a
    [b], does not match its own name, but matches [origin/aab]. *)
Example remote_shorthand_sample :
  Str.isRemotes "origin/c++" = true
  /\ snd (run (E := RegExp.fragment) ""
            [Call "origin/c++" 1%nat;
             ShowRefClosed "origin/c++" (Some 0%N) [Samples.show_ref_plus] []]
            (init []))
     = [GitExec ["show-ref"] (VStr "utf-8") "origin/c++";
        Uncaught
          (RegExp.nothing_to_repeat
             "^([a-f0-9]{40}) refs/remotes/origin/c++$")]
  /\ snd (run (E := RegExp.fragment) ""
            [Call "origin/a+b" 1%nat;
             ShowRefClosed "origin/a+b" (Some 0%N) [Samples.show_ref_plus] []]
            (init []))
     = [GitExec ["show-ref"] (VStr "utf-8") "origin/a+b";
        Callback 1%nat [VNull; VStr Samples.sha3];
        SetTimeout "remotes/origin/a+b" 100].
Proof. repeat split; vm_compute; reflexivity. Qed.

Lemma inherited_name_throws_witness :
  getBranchSha "constructor" 2%nat
    (fst (run (E := RegExp.fragment) ""
            [Call "main" 1%nat;
             ShowRefClosed "main" (Some 0%N) [Samples.show_ref] []]
            (init [])))
  = (fst (run (E := RegExp.fragment) ""
            [Call "main" 1%nat;
             ShowRefClosed "main" (Some 0%N) [Samples.show_ref] []]
            (init [])),
     [Uncaught push_is_not_a_function]).
Proof.
  apply (inherited_name_throws "" (E := RegExp.fragment) "constructor" 2%nat
           [] [Call "main" 1%nat;
               ShowRefClosed "main" (Some 0%N) [Samples.show_ref] []]
           eq_refl eq_refl).
Defined.

End BranchShaMore.

(** ** More on strings *)

Module StrMoreFacts.
Import StrFacts.

Lemma strip_prefix_app a r : Str.strip_prefix a (a +:+ r) = Some r.
Proof.
  induction a as [|c a IH]; [now destruct r|].
  rewrite append_cons. simpl. now rewrite Ascii.eqb_refl.
Qed.

Lemma span_app f p c r :
  StrMore.all f p = true -> f c = false ->
  Str.span f (p +:+ String c r) = (p, String c r).
Proof.
  intros Hp Hc. induction p as [|x p IH].
  - simpl. now rewrite Hc.
  - simpl in Hp. apply andb_true_iff in Hp as [Hx Hp].
    rewrite append_cons. simpl. now rewrite Hx, (IH Hp).
Qed.

Lemma take_hex_app n : forall s a r x,
  Str.take_hex n s = Some (a, r) ->
  Str.take_hex n (s +:+ x) = Some (a, r +:+ x).
Proof.
  induction n as [|n IH]; intros s a r x Ht; simpl in Ht.
  - now injection Ht as <- <-.
  - destruct s as [|c s]; [discriminate|].
    destruct (Str.is_hex c) eqn:Hc; [|discriminate].
    destruct (Str.take_hex n s) as [[a' r']|] eqn:Hs; [|discriminate].
    injection Ht as <- <-. rewrite append_cons. simpl.
    now rewrite Hc, (IH _ _ _ x Hs).
Qed.

Lemma take_hash h x :
  Str.is_hash h = true -> Str.take_hex 40 (h +:+ x) = Some (h, x).
Proof.
  unfold Str.is_hash. intros Hh.
  destruct (Str.take_hex 40 h) as [[a [|c r]]|] eqn:Ht; try discriminate.
  destruct (take_hex_length _ _ _ _ Ht) as [Heq _].
  rewrite append_nil_r in Heq. subst a.
  now rewrite (take_hex_app _ _ _ _ x Ht).
Qed.

Lemma search_here {A} (here : string -> option A) s a :
  here s = Some a -> Str.search here s = Some a.
Proof. intros H. destruct s; simpl; now rewrite H. Qed.

Lemma search_suffix_of {A} (here : string -> option A) s a :
  Str.search here s = Some a -> exists pre t, s = pre +:+ t /\ here t = Some a.
Proof.
  induction s as [|c s IH]; simpl.
  - destruct (here "") eqn:H; [|discriminate].
    intros [= <-]. now exists "", "".
  - destruct (here (String c s)) eqn:H.
    + intros [= <-]. now exists "", (String c s).
    + intros Hs. destruct (IH Hs) as (pre & t & -> & Ht).
      now exists (String c pre), t.
Qed.

End StrMoreFacts.

(** ** The process executor: what counts as not found, and as success *)

Module ExecMore.
Import Exec StrFacts StrMoreFacts.

Lemma no_such_path_matches p h rest :
  p <> "" -> StrMore.all Str.not_quote p = true -> Str.is_hash h = true ->
  Str.gitENOENT_test
    ("fatal: " +:+ "Path '" +:+ p +:+ "' does not exist in '" +:+ h +:+ "'"
     +:+ rest) = true.
Proof.
  intros Hne Hp Hh. unfold Str.gitENOENT_test.
  rewrite (search_here _ _ tt); [reflexivity|].
  unfold Str.gitENOENT_here. rewrite !strip_prefix_app.
  change ("' does not exist in '" +:+ h +:+ "'" +:+ rest)
    with (String "'" (" does not exist in '" +:+ h +:+ "'" +:+ rest)).
  rewrite (span_app Str.not_quote p "'"%char _ Hp eq_refl).
  change (String "'" (" does not exist in '" +:+ h +:+ "'" +:+ rest))
    with ("' does not exist in '" +:+ h +:+ "'" +:+ rest).
  rewrite strip_prefix_app, (take_hash _ _ Hh).
  destruct p; [contradiction|]. reflexivity.
Qed.

Lemma ambiguous_argument_matches p rest :
  p <> "" -> StrMore.all Str.not_quote p = true ->
  Str.gitENOENT_test
    ("fatal: " +:+ "ambiguous argument '" +:+ p
     +:+ "': unknown revision or path not in the working tree" +:+ "."
     +:+ rest) = true.
Proof.
  intros Hne Hp. unfold Str.gitENOENT_test.
  rewrite (search_here _ _ tt); [reflexivity|].
  unfold Str.gitENOENT_here. rewrite !strip_prefix_app.
  assert (Hno : Str.strip_prefix "Path '"
                  ("ambiguous argument '" +:+ p
                   +:+ "': unknown revision or path not in the working tree"
                   +:+ "." +:+ rest) = None) by reflexivity.
  rewrite Hno.
  change ("': unknown revision or path not in the working tree" +:+ "."
          +:+ rest)
    with (String "'" (": unknown revision or path not in the working tree"
                      +:+ "." +:+ rest)).
  rewrite (span_app Str.not_quote p "'"%char _ Hp eq_refl).
  change (String "'" (": unknown revision or path not in the working tree"
                      +:+ "." +:+ rest))
    with ("': unknown revision or path not in the working tree" +:+ "."
          +:+ rest).
  rewrite strip_prefix_app.
  destruct p; [contradiction|]. reflexivity.
Qed.

(** A failure whose standard error holds the mark. *)
Lemma marked_failure {K} gitCommands commands encoding (k : K) n stdout
    before text :
  n <> 0%N ->
  Str.gitENOENT_test text = true ->
  close gitCommands commands encoding (Some k) (Some n) stdout
    [before +:+ text]
  = Returned (k, [VError "Error"
                    (message (gitCommands ++ commands) [before +:+ text])
                    (Some process_ENOENT)]).
Proof.
  intros Hn Ht. unfold close.
  rewrite (ExecFacts.failed_nonzero n Hn).
  assert (Hm : Str.gitENOENT_test
                 (message (gitCommands ++ commands) [before +:+ text])
               = true).
  { unfold message. cbn [to_string Tools_join String.concat].
    rewrite <- !append_assoc. now apply ExecFacts.gitENOENT_suffix. }
  now rewrite Hm.
Qed.

(** X11.  The executor recognises the two ways git has of saying that a
    path or a revision does not exist: when the subprocess exits with a
    nonzero status and the standard error holds, anywhere, [fatal: Path
    'p' does not exist in 'h'] with [h] a hash, or [fatal: ambiguous
    argument 'p': unknown revision or path not in the working tree.], [p]
    being any text without a quote that is not empty, the callback gets an
    error whose [errno] is [process.ENOENT]. *)
Theorem not_found_recognised {K} gitCommands commands encoding (k : K) n
    stdout before p h rest :
  n <> 0%N ->
  p <> "" ->
  StrMore.all Str.not_quote p = true ->
  Str.is_hash h = true ->
  (let stderr :=
     [before +:+ "fatal: " +:+ "Path '" +:+ p +:+ "' does not exist in '"
      +:+ h +:+ "'" +:+ rest] in
   close gitCommands commands encoding (Some k) (Some n) stdout stderr
   = Returned (k, [VError "Error" (message (gitCommands ++ commands) stderr)
                     (Some process_ENOENT)]))
  /\ (let stderr :=
        [before +:+ "fatal: " +:+ "ambiguous argument '" +:+ p
         +:+ "': unknown revision or path not in the working tree" +:+ "."
         +:+ rest] in
      close gitCommands commands encoding (Some k) (Some n) stdout stderr
      = Returned (k, [VError "Error" (message (gitCommands ++ commands) stderr)
                        (Some process_ENOENT)])).
Proof.
  intros Hn Hne Hp Hh.
  split; cbv zeta; apply marked_failure; auto.
  - now apply no_such_path_matches.
  - now apply ambiguous_argument_matches.
Qed.

(** X12.  The executor reports success exactly when the exit status is
    0 or there is none ([exitCode] still [undefined], or [null] after a
    signal): the callback then gets [null] and what [Tools.join] makes of
    the chunks of the standard output and the encoding, and what the
    subprocess wrote to its standard error makes no difference.  With any
    other status the callback gets one argument, the error. *)
Theorem no_status_is_success {K} gitCommands commands encoding (k : K)
    exitCode stdout stderr :
  (close gitCommands commands encoding (Some k) exitCode stdout stderr
   = Returned (k, [VNull; Tools_join stdout encoding])
   <-> (exitCode = None \/ exitCode = Some 0%N))
  /\ (forall out,
      close gitCommands commands encoding (Some k) exitCode stdout stderr
      = Returned (k, [VNull; out]) ->
      out = Tools_join stdout encoding
      /\ out = VStr (String.concat "" stdout)).
Proof.
  split; [split|].
  - intros Hc. unfold close in Hc.
    destruct exitCode as [[|n]|]; auto. discriminate.
  - intros [->| ->]; reflexivity.
  - intros out Hc. unfold close in Hc.
    destruct (failed exitCode); [discriminate|].
    injection Hc as <-. split; reflexivity.
Qed.

Lemma not_found_recognised_witness :
  close (K := nat) ["--git-dir=/srv/repo/.git"]
    ["show"; Samples.sha1 +:+ ":missing.txt"] (AVal (VStr "utf8"))
    (Some 7%nat) (Some 128%N) []
    ["" +:+ "fatal: " +:+ "Path '" +:+ "missing.txt"
     +:+ "' does not exist in '" +:+ Samples.sha1 +:+ "'" +:+ Str.newline]
  = Returned
      (7%nat,
       [VError "Error"
          (message
             (["--git-dir=/srv/repo/.git"]
              ++ ["show"; Samples.sha1 +:+ ":missing.txt"])
             ["" +:+ "fatal: " +:+ "Path '" +:+ "missing.txt"
              +:+ "' does not exist in '" +:+ Samples.sha1 +:+ "'"
              +:+ Str.newline])
          (Some process_ENOENT)]).
Proof.
  apply (proj1 (not_found_recognised (K := nat) ["--git-dir=/srv/repo/.git"]
                  ["show"; Samples.sha1 +:+ ":missing.txt"]
                  (AVal (VStr "utf8")) 7%nat 128%N [] "" "missing.txt"
                  Samples.sha1 Str.newline
                  ltac:(discriminate) ltac:(discriminate)
                  ltac:(vm_compute; reflexivity)
                  ltac:(vm_compute; reflexivity))).
Defined.

Lemma no_status_is_success_witness :
  close (K := nat) [] ["gc"] (AVal VUndef) (Some 7%nat) None
    ["Counting "; "objects"] ["warning"]
  = Returned (7%nat, [VNull; VStr "Counting objects"]).
Proof.
  apply (proj2 (proj1 (no_status_is_success (K := nat) [] ["gc"]
                         (AVal VUndef) 7%nat None ["Counting "; "objects"]
                         ["warning"]))).
  left. reflexivity.
Defined.

End ExecMore.

(** ** The decorator: keys *)

Module SafeMore.
Import Safe StrFacts.

Lemma key_of_colon version a b rest :
  key_of (version :: (a +:+ ":" +:+ b) :: rest)
  = key_of (version :: a :: b :: rest).
Proof.
  unfold key_of. cbn [String.concat]. f_equal. f_equal.
  destruct rest as [|r rest]; [reflexivity|].
  now rewrite !append_assoc.
Qed.

(** X13.  The key of a call is its arguments joined by colons, so an
    argument that holds a colon makes the same key as two arguments: a
    call for [a:b] and a call for [a] and [b] at the same version are one
    resolution.  The operation runs once, with the arguments of the first
    call, and the second caller gets what was computed for the first. *)
Theorem colon_confuses_arguments NODE_ENV st version a b cb1 cb2 arguments :
  valid_version version = true ->
  cached st (key_of [version; a; b]) = false ->
  in_flight st (key_of [version; a; b]) = false ->
  snd (run NODE_ENV
         [Call version [a +:+ ":" +:+ b] cb1;
          Call version [a; b] cb2;
          Done version (key_of [version; a; b]) arguments] st)
  = [Apply version [version; a +:+ ":" +:+ b]]
    ++ (if truthy (nth 1 arguments VUndef)
        then [SetTimeout (key_of [version; a; b]) (ttl NODE_ENV version)]
        else [])
    ++ [Callback cb1 arguments; Callback cb2 arguments].
Proof.
  intros Hv Hc Hf.
  pose proof (key_of_colon version a b []) as Hk.
  rewrite <- Hk in *.
  unfold run, step.
  rewrite (SafeFacts.first_call version [a +:+ ":" +:+ b] cb1 st Hv Hc Hf).
  unfold wrapper at 1. rewrite Hv. cbn [negb].
  rewrite <- Hk.
  replace (cached _ _) with false by (symmetry; exact Hc).
  cbn [queue]. rewrite lookup_insert_eq.
  unfold completion. cbn [queue cache fst snd]. rewrite lookup_insert_eq.
  cbn [app flush]. destruct (truthy (nth 1 arguments VUndef)); reflexivity.
Qed.

Lemma colon_confuses_arguments_witness :
  snd (run "" [Call "fs" ["lib" +:+ ":" +:+ "utf8"] 1%nat;
               Call "fs" ["lib"; "utf8"] 2%nat;
               Done "fs" (key_of ["fs"; "lib"; "utf8"]) [VNull; VStr "text"]]
         empty)
  = [Apply "fs" ["fs"; "lib" +:+ ":" +:+ "utf8"]]
    ++ (if truthy (nth 1 [VNull; VStr "text"] VUndef)
        then [SetTimeout (key_of ["fs"; "lib"; "utf8"]) (ttl "" "fs")]
        else [])
    ++ [Callback 1%nat [VNull; VStr "text"];
        Callback 2%nat [VNull; VStr "text"]].
Proof.
  apply (colon_confuses_arguments "" empty "fs" "lib" "utf8" 1%nat 2%nat
           [VNull; VStr "text"]); vm_compute; reflexivity.
Defined.

End SafeMore.
(** ** The decorator with a clock: one state per key *)

Module TimedMore.
Import Safe Timed Pending.

Lemma tracked_start : tracked start.
Proof. intros key H. discriminate. Qed.

Lemma tracked_next NODE_ENV e w w' :
  tracked w -> next NODE_ENV e w = Some w' -> tracked w'.
Proof.
  intros Ht Hn key. destruct e as [version rest cb|k0 arguments|k0|dt];
    simpl in Hn.
  - injection Hn as <-. cbn [st closures]. unfold wrapper.
    destruct (valid_version version); cbn [negb fst snd handed fold_right];
      [|apply Ht].
    destruct (cached (st w) _); cbn [fst snd handed fold_right]; [apply Ht|].
    set (k0 := key_of (version :: rest)).
    destruct (queue (st w) !! k0) as [[|q]|] eqn:Hq;
      cbn [fst snd handed fold_right]; unfold in_flight; cbn [queue];
      rewrite lookup_insert; case_decide as Hk.
    + intros _. subst key. fold k0. rewrite lookup_insert_eq. eauto.
    + intros H. fold k0. rewrite lookup_insert_ne by assumption. now apply Ht.
    + intros _. subst key. apply Ht. unfold in_flight. now rewrite Hq.
    + apply Ht.
    + intros _. subst key. fold k0. rewrite lookup_insert_eq. eauto.
    + intros H. fold k0. rewrite lookup_insert_ne by assumption. now apply Ht.
  - destruct (closures w !! k0); [|discriminate]. injection Hn as <-.
    cbn [st closures]. unfold completion, in_flight. cbn [fst queue].
    rewrite lookup_insert. case_decide as Hk; [discriminate|].
    intros H. rewrite lookup_delete_ne by assumption. now apply Ht.
  - destruct (fire k0 (now w) (timers w)); [|discriminate].
    injection Hn as <-. apply Ht.
  - destruct (_ && _); [|discriminate]. injection Hn as <-. apply Ht.
Qed.

Lemma reachable_tracked NODE_ENV w : reachable NODE_ENV w -> tracked w.
Proof.
  induction 1 as [|w e w' _ IH Hn]; [apply tracked_start|].
  eapply tracked_next; eauto.
Qed.

(** A key in flight holds no value. *)
Lemma in_flight_uncached NODE_ENV w key :
  reachable NODE_ENV w ->
  in_flight (st w) key = true -> cached (st w) key = false.
Proof.
  intros Hr Hf.
  destruct (TimedFacts.reachable_sound _ _ Hr key) as (Hcl & _ & _).
  destruct (reachable_tracked _ _ Hr key Hf) as [v Hv].
  now destruct (Hcl v Hv).
Qed.

(** X14.  In every state the decorator can reach, a key is in one of three
    states: idle, in flight, or cached.  It is in flight exactly while the
    completion closure of its resolution is pending; a key in flight holds
    no value and no timer; and at most one expiry timer is ever pending
    for a key. *)
Theorem cached_or_in_flight NODE_ENV w key :
  reachable NODE_ENV w ->
  (in_flight (st w) key = true <-> is_Some (closures w !! key))
  /\ (in_flight (st w) key = true -> cached (st w) key = false)
  /\ (length (dues key (timers w)) <= 1)%nat
  /\ (in_flight (st w) key = true -> dues key (timers w) = []).
Proof.
  intros Hr. pose proof (TimedFacts.reachable_sound _ _ Hr) as Hs.
  pose proof (reachable_tracked _ _ Hr) as Ht.
  pose proof (in_flight_uncached _ _ key Hr) as Hfc.
  destruct (Hs key) as (Hcl & _ & Hd).
  split; [|split; [exact Hfc|split]].
  - split; [apply Ht|]. intros [v Hv]. now destruct (Hcl v Hv) as (_ & ? & _).
  - destruct (cached (st w) key).
    + destruct Hd as (t & v & _ & -> & _). simpl. lia.
    + rewrite Hd. simpl. lia.
  - intros Hf. rewrite (Hfc Hf) in Hd. exact Hd.
Qed.

(** X15.  While a value is cached, a call for its key runs nothing: the
    caller is answered on the next tick.  Once the timer of the key has
    fired, the next call for the key runs the operation again. *)
Theorem expiry_then_recompute NODE_ENV w w' key version rest cb :
  reachable NODE_ENV w ->
  cached (st w) key = true ->
  valid_version version = true ->
  key_of (version :: rest) = key ->
  snd (wrapper version rest cb (st w)) = [NextTick cb key]
  /\ (next NODE_ENV (EFire key) w = Some w' ->
      snd (wrapper version rest cb (st w')) = [Apply version (version :: rest)]).
Proof.
  intros Hr Hc Hv Hk. split.
  - unfold wrapper. rewrite Hv, Hk, Hc. reflexivity.
  - intros Hn.
    assert (Hf : in_flight (st w) key = false).
    { destruct (in_flight (st w) key) eqn:Hf; [|reflexivity].
      rewrite (in_flight_uncached _ _ _ Hr Hf) in Hc. discriminate. }
    simpl in Hn. destruct (fire key (now w) (timers w)); [|discriminate].
    injection Hn as <-. cbn [st].
    rewrite SafeFacts.first_call; [reflexivity | assumption | | ];
      rewrite Hk.
    + unfold expire, cached. cbn [cache]. now rewrite lookup_insert_eq.
    + exact Hf.
Qed.

Lemma cached_or_in_flight_witness :
  (in_flight (st Samples.after_stores) "fs:README" = true
   <-> is_Some (closures Samples.after_stores !! "fs:README"))
  /\ (in_flight (st Samples.after_stores) "fs:README" = true ->
      cached (st Samples.after_stores) "fs:README" = false)
  /\ (length (dues "fs:README" (timers Samples.after_stores)) <= 1)%nat
  /\ (in_flight (st Samples.after_stores) "fs:README" = true ->
      dues "fs:README" (timers Samples.after_stores) = []).
Proof.
  apply (cached_or_in_flight "" Samples.after_stores "fs:README").
  apply (TimedFacts.play_reachable "" Samples.stores start);
    [apply reach_start|].
  vm_compute. reflexivity.
Defined.

Lemma expiry_then_recompute_witness :
  snd (wrapper "fs" ["README"] 5%nat (st Samples.after_stores))
  = [NextTick 5%nat "fs:README"]
  /\ (next "" (EFire "fs:README") Samples.after_stores
      = Some (default start
                (next "" (EFire "fs:README") Samples.after_stores)) ->
      snd (wrapper "fs" ["README"] 5%nat
             (st (default start
                    (next "" (EFire "fs:README") Samples.after_stores))))
      = [Apply "fs" ["fs"; "README"]]).
Proof.
  apply (expiry_then_recompute "" Samples.after_stores
           (default start (next "" (EFire "fs:README") Samples.after_stores))
           "fs:README" "fs" ["README"] 5%nat).
  - apply (TimedFacts.play_reachable "" Samples.stores start);
      [apply reach_start|].
    vm_compute. reflexivity.
  - vm_compute. reflexivity.
  - vm_compute. reflexivity.
  - vm_compute. reflexivity.
Defined.

End TimedMore.
(** ** Listing a directory at a commit *)

Module ListingFacts.
Import Accessor StrFacts StrMoreFacts.

(** The header of a tree is recognised and cut off. *)
Lemma tree_header_cut header body :
  StrMore.all (fun c => negb (Str.line_terminator c)) header = true ->
  Str.tree_header
    ("tree " +:+ header +:+ Str.newline +:+ Str.newline +:+ body)
  = Some body.
Proof.
  intros Hh. unfold Str.tree_header. rewrite strip_prefix_app.
  change (Str.newline +:+ Str.newline +:+ body)
    with (String Str.nl (String Str.nl body)).
  rewrite (span_app _ header Str.nl _ Hh eq_refl). reflexivity.
Qed.

Lemma split_never_nil sep s : Str.split sep s <> [].
Proof.
  destruct s as [|c s]; simpl; [discriminate|].
  destruct (Ascii.eqb c sep); [discriminate|].
  destruct (Str.split sep s); discriminate.
Qed.

Lemma split_one s :
  StrMore.all (fun c => negb (Ascii.eqb c Str.nl)) s = true ->
  Str.split Str.nl s = [s].
Proof.
  induction s as [|c s IH]; intros Hs; [reflexivity|].
  simpl in Hs. apply andb_true_iff in Hs as [Hc Hs].
  apply negb_true_iff in Hc. simpl. now rewrite Hc, (IH Hs).
Qed.

Lemma split_line s rest :
  StrMore.all (fun c => negb (Ascii.eqb c Str.nl)) s = true ->
  Str.split Str.nl (s +:+ Str.newline +:+ rest) = s :: Str.split Str.nl rest.
Proof.
  induction s as [|c s IH]; intros Hs.
  - change ("" +:+ Str.newline +:+ rest) with (String Str.nl rest).
    reflexivity.
  - simpl in Hs. apply andb_true_iff in Hs as [Hc Hs].
    apply negb_true_iff in Hc. rewrite append_cons. simpl.
    now rewrite Hc, (IH Hs).
Qed.

Lemma tidy_one_line s :
  StrMore.tidy s = true ->
  StrMore.all (fun c => negb (Ascii.eqb c Str.nl)) s = true.
Proof.
  unfold StrMore.tidy. intros H.
  apply andb_true_iff in H as [H _]. now apply andb_true_iff in H as [H _].
Qed.

(** Joining names with newlines and splitting again gives the names. *)
Lemma split_join entries :
  entries <> [] ->
  forallb StrMore.tidy entries = true ->
  Str.split Str.nl (String.concat Str.newline entries) = entries.
Proof.
  induction entries as [|e entries IH]; intros Hne Hall; [contradiction|].
  simpl in Hall. apply andb_true_iff in Hall as [He Hall].
  destruct entries as [|e' entries].
  - simpl. now apply split_one, tidy_one_line.
  - cbn [String.concat]. rewrite split_line by now apply tidy_one_line.
    f_equal. now apply IH.
Qed.

Lemma ends_with_space_append a b :
  b <> "" ->
  StrMore.ends_with_space (a +:+ b) = StrMore.ends_with_space b.
Proof.
  intros Hb. induction a as [|c a IH]; [reflexivity|].
  rewrite append_cons. simpl.
  destruct (a +:+ b) eqn:Hab; [|exact IH].
  destruct a; [now destruct b | discriminate].
Qed.

(** The text of the names starts and ends as the names do. *)
Lemma join_tidy entries :
  entries <> [] ->
  forallb StrMore.tidy entries = true ->
  match String.concat Str.newline entries with
  | String c _ => Str.is_space c = false
  | EmptyString => False
  end
  /\ StrMore.ends_with_space (String.concat Str.newline entries) = false.
Proof.
  induction entries as [|e entries IH]; intros Hne Hall; [contradiction|].
  simpl in Hall. apply andb_true_iff in Hall as [He Hall].
  pose proof He as He'. unfold StrMore.tidy in He'.
  apply andb_true_iff in He' as [He' Hend].
  apply andb_true_iff in He' as [_ Hfirst].
  destruct e as [|c e]; [discriminate|].
  apply negb_true_iff in Hfirst. apply negb_true_iff in Hend.
  destruct entries as [|e' entries].
  - simpl. auto.
  - destruct (IH ltac:(discriminate) Hall) as [Hf' He''].
    set (J := String.concat Str.newline (e' :: entries)) in *.
    change (String.concat Str.newline (String c e :: e' :: entries))
      with (String c e +:+ Str.newline +:+ J).
    rewrite append_cons. split; [exact Hfirst|].
    rewrite <- append_cons, <- append_assoc, ends_with_space_append; auto.
    intros Hc. rewrite Hc in Hf'. exact Hf'.
Qed.

Lemma trim_right_newline s :
  s <> "" -> StrMore.ends_with_space s = false ->
  Str.trim_right (s +:+ Str.newline) = s.
Proof.
  induction s as [|c s IH]; intros Hne Hend; [contradiction|].
  rewrite append_cons. cbn [Str.trim_right].
  destruct s as [|d s].
  - simpl in *. now rewrite Hend.
  - rewrite IH; [reflexivity | discriminate | exact Hend].
Qed.

Lemma trim_listing entries :
  entries <> [] ->
  forallb StrMore.tidy entries = true ->
  Str.trim (String.concat Str.newline entries +:+ Str.newline)
  = String.concat Str.newline entries.
Proof.
  intros Hne Hall. destruct (join_tidy entries Hne Hall) as [Hf He].
  unfold Str.trim.
  destruct (String.concat Str.newline entries) as [|c s] eqn:Hj; [contradiction|].
  rewrite append_cons. cbn [Str.trim_left]. rewrite Hf.
  rewrite <- append_cons. apply trim_right_newline; [discriminate|exact He].
Qed.

Lemma partition_entries_filter entries :
  partition_entries entries
  = (List.filter (fun e => negb (Str.ends_with_slash e)) entries,
     map Str.drop_last (List.filter Str.ends_with_slash entries)).
Proof.
  induction entries as [|e entries IH]; [reflexivity|].
  simpl. rewrite IH. now destruct (Str.ends_with_slash e).
Qed.

(** X16.  The listing of a directory at a commit, from the text that
    [git show] prints for a tree: a header line, an empty line, and the
    names one per line, those of directories with a slash at the end.  The
    callback gets the names without a slash as [files] and the others,
    without their slash, as [dirs], both in the order of the text. *)
Theorem tree_listing header entries :
  StrMore.all (fun c => negb (Str.line_terminator c)) header = true ->
  entries <> [] ->
  forallb StrMore.tidy entries = true ->
  readDir_k
    [VNull;
     VStr ("tree " +:+ header +:+ Str.newline +:+ Str.newline
           +:+ String.concat Str.newline entries +:+ Str.newline)]
  = Returned
      [VNull;
       VDir (List.filter (fun e => negb (Str.ends_with_slash e)) entries)
            (map Str.drop_last (List.filter Str.ends_with_slash entries))].
Proof.
  intros Hh Hne Hall. unfold readDir_k. cbn [nth truthy to_string].
  rewrite (tree_header_cut _ _ Hh), (trim_listing _ Hne Hall),
    (split_join _ Hne Hall), partition_entries_filter.
  reflexivity.
Qed.

(** X17.  An empty tree is not listed as empty: when nothing follows the
    header, the text that is split is empty, its only piece is the empty
    string, and the callback gets one file whose name is empty. *)
Theorem empty_tree_listing header :
  StrMore.all (fun c => negb (Str.line_terminator c)) header = true ->
  readDir_k [VNull; VStr ("tree " +:+ header +:+ Str.newline +:+ Str.newline)]
  = Returned [VNull; VDir [""] []].
Proof.
  intros Hh. unfold readDir_k. cbn [nth truthy to_string].
  pose proof (tree_header_cut header "" Hh) as Ht.
  rewrite !append_nil_r in Ht.
  replace (Str.newline +:+ Str.newline) with (Str.newline +:+ Str.newline +:+ "")
    by reflexivity.
  rewrite (tree_header_cut header "" Hh). reflexivity.
Qed.

Lemma tree_listing_witness :
  readDir_k
    [VNull;
     VStr ("tree " +:+ Samples.tree_of_lib +:+ Str.newline +:+ Str.newline
           +:+ String.concat Str.newline ["a.txt"; "sub/"; "b.txt"]
           +:+ Str.newline)]
  = Returned
      [VNull;
       VDir (List.filter (fun e => negb (Str.ends_with_slash e))
               ["a.txt"; "sub/"; "b.txt"])
            (map Str.drop_last
               (List.filter Str.ends_with_slash ["a.txt"; "sub/"; "b.txt"]))].
Proof.
  apply (tree_listing Samples.tree_of_lib ["a.txt"; "sub/"; "b.txt"]).
  - vm_compute. reflexivity.
  - discriminate.
  - vm_compute. reflexivity.
Defined.

Lemma empty_tree_listing_witness :
  readDir_k
    [VNull;
     VStr ("tree " +:+ Samples.tree_of_lib +:+ Str.newline +:+ Str.newline)]
  = Returned [VNull; VDir [""] []].
Proof.
  apply (empty_tree_listing Samples.tree_of_lib). vm_compute. reflexivity.
Defined.

End ListingFacts.
(** ** Listing a directory of the work tree *)

Module LiveDirFacts.
Import LiveDir.

Lemma stats_cons a answers s :
  stats (a :: answers) s
  = (fst (stats answers (fst (on_stat (fst (fst a)) (snd (fst a)) (snd a) s))),
     snd (on_stat (fst (fst a)) (snd (fst a)) (snd a) s)
     ++ snd (stats answers (fst (on_stat (fst (fst a)) (snd (fst a)) (snd a) s)))).
Proof.
  destruct a as [[f e] d]. simpl.
  destruct (on_stat f e d s) as [s1 e1]. simpl.
  now destruct (stats answers s1).
Qed.

(** As long as more answers are awaited than succeed, only errors are
    handed on. *)
Lemma stats_short answers : forall s,
  Z.of_nat (successes answers) < count s ->
  stats answers s
  = (Scan (count s - Z.of_nat (successes answers))
       (files s ++ files_of answers) (dirs s ++ dirs_of answers),
     errors_of answers).
Proof.
  induction answers as [|[[f e] d] answers IH]; intros s Hlt.
  - unfold successes. simpl. rewrite Z.sub_0_r, !app_nil_r. now destruct s.
  - rewrite stats_cons. cbn [fst snd]. unfold on_stat.
    unfold successes, files_of, dirs_of, errors_of, failed in *.
    cbn [List.filter fst snd] in *.
    destruct (truthy e) eqn:He; cbn [negb andb fst snd map] in *.
    + rewrite IH by exact Hlt. reflexivity.
    + cbn [length] in Hlt. rewrite Nat2Z.inj_succ in Hlt.
      cbn [count]. rewrite (proj2 (Z.eqb_neq _ _)) by lia.
      rewrite IH by (cbn [count]; lia). cbn [count files dirs app length].
      rewrite Nat2Z.inj_succ. cbn [fst snd].
      match goal with
      | |- context [count s - 1 - ?x] =>
          replace (count s - 1 - x) with (count s - Z.succ x) by lia
      end.
      destruct d; cbn [negb andb map app]; rewrite <- ?app_assoc;
        reflexivity.
Qed.

(** When every answer succeeds, the listing is handed on with the last
    one. *)
Lemma stats_all answers : forall s,
  answers <> [] ->
  forallb (fun a => negb (failed a)) answers = true ->
  count s = Z.of_nat (length answers) ->
  snd (stats answers s)
  = [Callback [VNull; VDir (files s ++ files_of answers)
                        (dirs s ++ dirs_of answers)]].
Proof.
  induction answers as [|[[f e] d] answers IH]; intros s Hne Hall Hc;
    [contradiction|].
  rewrite stats_cons. cbn [fst snd]. unfold on_stat.
  simpl in Hall. apply andb_true_iff in Hall as [He Hall].
  unfold failed in He. cbn [fst snd] in He. apply negb_true_iff in He.
  rewrite He. cbn [length] in Hc. rewrite Nat2Z.inj_succ in Hc.
  unfold files_of, dirs_of, failed. cbn [List.filter fst snd]. rewrite He.
  cbn [negb andb fst snd count files dirs].
  destruct answers as [|a answers].
  - cbn [length] in Hc. rewrite (proj2 (Z.eqb_eq _ _)) by lia.
    cbn [stats snd List.filter map].
    destruct d; cbn [negb andb map fst snd app]; rewrite ?app_nil_r;
      reflexivity.
  - rewrite (proj2 (Z.eqb_neq _ _)) by (cbn [length] in Hc; lia).
    rewrite IH; [|discriminate|exact Hall|cbn [count]; lia].
    unfold files_of, dirs_of, failed. cbn [files dirs app].
    destruct d; cbn [negb andb map]; rewrite <- ?app_assoc; reflexivity.
Qed.

Lemma errors_none answers :
  forallb (fun a => negb (failed a)) answers = true -> errors_of answers = [].
Proof.
  unfold errors_of. induction answers as [|a answers IH]; [reflexivity|].
  simpl. intros H. apply andb_true_iff in H as [Ha H].
  apply negb_true_iff in Ha. rewrite Ha. now apply IH.
Qed.

Lemma successes_le answers : (successes answers <= length answers)%nat.
Proof. apply List.filter_length_le. Qed.

Lemma successes_lt answers :
  forallb (fun a => negb (failed a)) answers = false ->
  (successes answers < length answers)%nat.
Proof.
  unfold successes. induction answers as [|a answers IH]; [discriminate|].
  simpl. destruct (negb (failed a)); simpl; intros H.
  - apply IH in H. lia.
  - pose proof (successes_le answers). unfold successes in *. lia.
Qed.

(** X18.  The listing of a directory of the work tree: one [fs.stat] is
    started per name, in the order of the names.  When every one of them
    succeeds and the directory is not empty, the completion closure of
    the decorator is called once, with the last answer, and gets the names
    in the order in which the answers arrived, not in the order of the
    directory.  When the directory is empty it is never called.  When
    some [fs.stat] fails, it is called with the error once per failure,
    and never with a listing. *)
Theorem live_listing filenames answers :
  length answers = length filenames ->
  listing filenames answers
  = map Stat filenames
    ++ if forallb (fun a => negb (failed a)) answers
       then match answers with
            | [] => []
            | _ => [Callback [VNull; VDir (files_of answers) (dirs_of answers)]]
            end
       else errors_of answers.
Proof.
  intros Hlen. unfold listing, on_readdir. cbn [truthy]. f_equal.
  destruct (forallb (fun a => negb (failed a)) answers) eqn:Hall.
  - destruct answers as [|a answers]; [reflexivity|].
    rewrite stats_all; [reflexivity | discriminate | exact Hall|].
    cbn [count]. now rewrite Hlen.
  - rewrite stats_short; [reflexivity|]. cbn [count]. rewrite <- Hlen.
    apply successes_lt in Hall. lia.
Qed.

Lemma live_listing_witness :
  listing Samples.three_names Samples.three_answers
  = map Stat Samples.three_names
    ++ if forallb (fun a => negb (failed a)) Samples.three_answers
       then match Samples.three_answers with
            | [] => []
            | _ => [Callback [VNull; VDir (files_of Samples.three_answers)
                                       (dirs_of Samples.three_answers)]]
            end
       else errors_of Samples.three_answers.
Proof.
  apply (live_listing Samples.three_names Samples.three_answers).
  reflexivity.
Defined.

(** The sample: the files come in the order of the answers. *)
Example live_listing_sample :
  listing Samples.three_names Samples.three_answers
  = [Stat "README"; Stat "lib"; Stat "test.js";
     Callback [VNull; VDir ["test.js"; "README"] ["lib"]]]
  /\ listing Samples.three_names
       [("lib", Samples.EACCES, false); ("README", VNull, false);
        ("test.js", Samples.EACCES, false)]
     = [Stat "README"; Stat "lib"; Stat "test.js";
        Callback [Samples.EACCES]; Callback [Samples.EACCES]]
  /\ listing [] [] = [].
Proof. repeat split; vm_compute; reflexivity. Qed.

End LiveDirFacts.
(** ** The parser of a log *)

Module LogParseFacts.
Import LogParse StrFacts.

(** No line holds a line terminator. *)
Lemma lines_no_terminator s :
  forallb (StrMore.all (fun x => negb (Str.line_terminator x))) (lines s)
  = true.
Proof.
  induction s as [|c s IH]; [reflexivity|].
  simpl. destruct (Str.line_terminator c) eqn:Hc; [exact IH|].
  destruct (lines s) as [|x xs]; simpl in *; [now rewrite Hc|].
  now rewrite Hc.
Qed.

Lemma all_trim_left f s :
  StrMore.all f s = true -> StrMore.all f (Str.trim_left s) = true.
Proof.
  induction s as [|c s IH]; [reflexivity|].
  intros H. pose proof H as H'. simpl in H'.
  apply andb_true_iff in H' as [_ Hs].
  simpl. destruct (Str.is_space c); [now apply IH | exact H].
Qed.

Lemma all_span_rest f g s :
  StrMore.all f s = true -> StrMore.all f (snd (Str.span g s)) = true.
Proof.
  induction s as [|c s IH]; [reflexivity|].
  intros H. pose proof H as H'. simpl in H'.
  apply andb_true_iff in H' as [_ Hs].
  simpl. destruct (g c); [|exact H].
  specialize (IH Hs). now destruct (Str.span g s).
Qed.

Lemma span_letters c r :
  is_upper c = true ->
  Str.span is_letter (String c r)
  = (String c (fst (Str.span is_letter r)), snd (Str.span is_letter r)).
Proof.
  intros Hc. simpl. unfold is_letter at 1. rewrite Hc. simpl.
  now destruct (Str.span is_letter r).
Qed.

Lemma span_lower_letter r a d rest :
  Str.span is_lower r = (a, String d rest) -> Ascii.eqb d ":"%char = true ->
  Str.span is_letter r = (a, String d rest).
Proof.
  revert a. induction r as [|x r IH]; intros a H Hd; [discriminate|].
  simpl in H. destruct (is_lower x) eqn:Hx.
  - destruct (Str.span is_lower r) as [a' b'] eqn:Hs. injection H as <- ->.
    simpl. unfold is_letter at 1. rewrite Hx, orb_true_r.
    now rewrite (IH a' eq_refl Hd).
  - injection H as Ha Hx' Hr. subst a x r. apply Ascii.eqb_eq in Hd.
    subst d. reflexivity.
Qed.

(** A line that line 314 matches is matched by line 315 as well. *)
Lemma field_of_header line :
  header_line line = true ->
  StrMore.all (fun x => negb (Str.line_terminator x)) line = true ->
  is_Some (field line).
Proof.
  destruct line as [|c r]; [discriminate|]. simpl header_line.
  intros H Hall. apply andb_true_iff in H as [Hc H].
  destruct (Str.span is_lower r) as [a [|d rest]] eqn:Hs; [discriminate|].
  unfold field. rewrite (span_letters _ _ Hc),
    (span_lower_letter _ _ _ _ Hs H). cbn [fst snd]. rewrite H.
  simpl in Hall. apply andb_true_iff in Hall as [_ Hall].
  pose proof (all_span_rest _ is_lower _ Hall) as Hr. rewrite Hs in Hr.
  simpl in Hr. apply andb_true_iff in Hr as [_ Hr].
  rewrite (all_trim_left _ _ Hr). eauto.
Qed.

Lemma fields_return ls : forall d,
  forallb header_line ls = true ->
  forallb (StrMore.all (fun x => negb (Str.line_terminator x))) ls = true ->
  exists d', fields ls d = Returned d'.
Proof.
  induction ls as [|l ls IH]; intros d Hh Ht; [eauto|].
  simpl in Hh, Ht. apply andb_true_iff in Hh as [Hl Hh].
  apply andb_true_iff in Ht as [Htl Ht].
  destruct (field_of_header l Hl Htl) as [[n v] Hf].
  simpl. rewrite Hf. now apply IH.
Qed.

Lemma forallb_filter {A} (f g : A -> bool) l :
  forallb f l = true -> forallb f (List.filter g l) = true.
Proof.
  induction l as [|x l IH]; [reflexivity|].
  simpl. intros H. apply andb_true_iff in H as [Hx H].
  destruct (g x); simpl; [rewrite Hx|]; auto.
Qed.

Lemma forallb_filter_self {A} (g : A -> bool) l :
  forallb g (List.filter g l) = true.
Proof.
  induction l as [|x l IH]; [reflexivity|].
  simpl. destruct (g x) eqn:Hx; simpl; [rewrite Hx|]; auto.
Qed.

(** One entry: the loop body returns exactly for the well-formed ones. *)
Lemma parse_entry_returns entry :
  (exists r, parse_entry entry = Returned r) <-> well_formed entry = true.
Proof.
  unfold parse_entry, well_formed, header_lines.
  destruct (commit_of entry); [|split; [intros [? ?]|]; discriminate].
  destruct (body_of entry); [|split; [intros [? ?]|]; discriminate].
  destruct (List.filter header_line (lines entry)) as [|l ls] eqn:Hf;
    [split; [intros [? ?]|]; discriminate|].
  split; [reflexivity|]. intros _.
  destruct (fields_return (l :: ls) {[ "message" := Str.trim s0 ]})
    as [d' Hd].
  - rewrite <- Hf. apply forallb_filter_self.
  - rewrite <- Hf. apply forallb_filter, lines_no_terminator.
  - rewrite Hd. eauto.
Qed.

Lemma entries_return es : forall log,
  (exists log', entries es log = Returned log')
  <-> forallb well_formed es = true.
Proof.
  induction es as [|e es IH]; intros log; simpl.
  - split; eauto.
  - rewrite andb_true_iff, <- parse_entry_returns.
    destruct (parse_entry e) as [[c d]|exn].
    + rewrite IH. split; [intros H; split; eauto|intros [_ H]; exact H].
    + split; [intros [? ?]; discriminate|intros [[? ?] _]; discriminate].
Qed.

Lemma parse_entry_commit entry commit d :
  parse_entry entry = Returned (commit, d) -> commit_of entry = Some commit.
Proof.
  unfold parse_entry. destruct (commit_of entry); [|discriminate].
  destruct (body_of entry); [|discriminate].
  destruct (header_lines entry); [|discriminate].
  destruct (fields _ _); [|discriminate]. now intros [= -> _].
Qed.

Lemma entries_keys es : forall log log',
  entries es log = Returned log' ->
  forall h,
    is_Some (log' !! h)
    <-> is_Some (log !! h) \/ exists e, In e es /\ commit_of e = Some h.
Proof.
  induction es as [|e es IH]; intros log log' H h; simpl in H.
  - injection H as <-. split; [auto|]. now intros [?|(? & [] & _)].
  - destruct (parse_entry e) as [[c d]|exn] eqn:He; [|discriminate].
    apply parse_entry_commit in He. rewrite (IH _ _ H h).
    rewrite lookup_insert_is_Some. split.
    + intros [[->|[_ Hl]]|(e' & Hin & Hc)].
      * right. exists e. split; [now left|exact He].
      * now left.
      * right. exists e'. split; [now right|exact Hc].
    + intros [Hl|(e' & [<-|Hin] & Hc)].
      * left. destruct (decide (c = h)); auto.
      * left. left. congruence.
      * right. eauto.
Qed.

Lemma split_app_sep sep s :
  Str.split sep (s +:+ String sep "") = Str.split sep s ++ [""].
Proof.
  induction s as [|c s IH].
  - simpl. now rewrite Ascii.eqb_refl.
  - rewrite append_cons. simpl. rewrite IH.
    destruct (Ascii.eqb c sep); [reflexivity|].
    pose proof (ListingFacts.split_never_nil sep s) as Hne.
    now destruct (Str.split sep s).
Qed.

(** X19.  The parser of a log gets through exactly the texts all of whose
    entries, the pieces between NUL characters, are well formed: an entry
    starts with [commit] and a hash, holds an empty line, and has a line
    that starts with a capitalised word and a colon.  Then the callback
    gets the log; on any other text an exception leaves the parser and
    the callback is not called.  A line that line 314 takes for a header
    is never refused by line 315. *)
Theorem log_parsed_or_thrown text :
  (exists log, parse_log text = Returned log)
  <-> forallb well_formed (Str.split nul text) = true.
Proof. apply entries_return. Qed.

(** X20.  The keys of the log are the hashes of the entries: a commit
    that is printed twice is held once. *)
Theorem log_keys text log h :
  parse_log text = Returned log ->
  is_Some (log !! h)
  <-> exists entry, In entry (Str.split nul text)
                    /\ commit_of entry = Some h.
Proof.
  intros H. rewrite (entries_keys _ _ _ H h), lookup_empty.
  split; [intros [[? ?]|?]; [discriminate|assumption] | auto].
Qed.

(** X21.  A text that ends with the separator is never parsed: what
    follows the last NUL is an entry too, the empty one, which has no
    commit line, so the parser throws and the callback is not called. *)
Theorem trailing_separator_throws text :
  exists exn, parse_log (text +:+ String nul "") = Threw exn.
Proof.
  destruct (parse_log (text +:+ String nul "")) as [log|exn] eqn:H; [|eauto].
  assert (Hr : exists log, parse_log (text +:+ String nul "") = Returned log)
    by eauto.
  apply entries_return in Hr. rewrite split_app_sep, forallb_app in Hr.
  apply andb_true_iff in Hr as [_ Hr]. discriminate.
Qed.

Lemma log_parsed_or_thrown_witness :
  exists log, parse_log Samples.log_text = Returned log.
Proof.
  apply (proj2 (log_parsed_or_thrown Samples.log_text)).
  vm_compute. reflexivity.
Defined.

Lemma log_keys_witness :
  is_Some (match parse_log Samples.log_text with
           | Returned log => log
           | Threw _ => ∅
           end !! Samples.sha1)
  <-> exists entry, In entry (Str.split nul Samples.log_text)
                    /\ commit_of entry = Some Samples.sha1.
Proof.
  apply (log_keys Samples.log_text _ Samples.sha1). reflexivity.
Defined.

(** The sample: the fields of the entries. *)
Example log_sample :
  match parse_log Samples.log_text with
  | Returned log =>
      (log !! Samples.sha1 ≫= lookup "message",
       log !! Samples.sha2 ≫= lookup "message",
       log !! Samples.sha2 ≫= lookup "author",
       log !! Samples.sha2 ≫= lookup "date",
       log !! Samples.sha3)
      = (Some "first", Some "second",
         Some "A U Thor <author@example.com>",
         Some "Thu Apr 7 15:13:13 2005 -0700", None)
  | Threw _ => False
  end.
Proof. vm_compute. reflexivity. Qed.

End LogParseFacts.
(** ** The history at the head *)

Module LogFacts.
Import StrFacts StrMoreFacts.

(** What line 226 takes from a loose ref has the length the decorator
    asks of a version. *)
Lemma hash_line_version loose sha :
  Str.hash_line loose = Some sha -> Safe.valid_version sha = true.
Proof.
  unfold Str.hash_line. intros H.
  apply search_suffix_of in H as (pre & t & _ & Ht).
  destruct (Str.take_hex 40 t) as [[h [|c r]]|] eqn:Hh; try discriminate.
  destruct (Ascii.eqb c Str.nl); [|discriminate]. injection Ht as <-.
  apply take_hex_length in Hh as [_ Hlen].
  unfold Safe.valid_version. now rewrite Hlen.
Qed.

Section Facts.
Context (NODE_ENV : string) {E : RegExp.Engine}.

(** X22.  [log(path, callback)] in a repository whose head is a loose
    ref: the resolver reads three files and answers with the hash of the
    ref; that hash has the length the decorator asks of a version, so the
    decorated [logFile] does not refuse it, and with nothing cached or in
    flight for the key it runs [git log -z --summary] at that hash for
    the path. *)
Theorem log_at_loose_head gitDir gitCommands k packed text h e loose sha
    reads path cb st :
  String.eqb gitDir "" = false ->
  truthy (VStr packed) = true ->
  Str.head_ref text = Some h ->
  truthy (VStr h) = true ->
  Str.hash_line loose = Some sha ->
  In reads
    (HeadOrders.orders (HeadSha.ReadPackedRefs 0 VNull (VStr packed))
       (HeadSha.ReadHEAD 0 VNull (VStr text))
       (HeadSha.ReadRef 0 e (VStr loose))) ->
  Safe.cached st (Safe.key_of [sha; path]) = false ->
  Safe.in_flight st (Safe.key_of [sha; path]) = false ->
  snd (HeadSha.run NODE_ENV
         ([HeadSha.Call k; HeadSha.Exists 0 true] ++ reads)
         (HeadSha.init gitDir gitCommands))
  = [HeadSha.PathExists 0; HeadSha.ReadFile 0 HeadSha.PackedRefs;
     HeadSha.ReadFile 0 HeadSha.HEAD; HeadSha.ReadFile 0 (HeadSha.Ref h);
     HeadSha.Callback k [VNull; VStr sha]; HeadSha.SetTimeout 100]
  /\ Log.log_k path cb [VNull; VStr sha] = Log.LogFile (VStr sha) path cb
  /\ snd (Safe.wrapper sha [path] cb st) = [Safe.Apply sha [sha; path]]
  /\ Accessor.logFile sha path
     = Accessor.GitExec ["log"; "-z"; "--summary"; sha; "--"; path]
         (VStr "utf8").
Proof.
  intros Hd Hp Hh Hht Hl Hin Hc Hf.
  pose proof (HeadShaMore.hash_line_truthy _ _ Hl) as Hlt.
  split; [|split; [|split]].
  - change ([HeadSha.Call k; HeadSha.Exists 0 true] ++ reads)
      with ((HeadSha.Call k :: map HeadSha.Call [] ++ [HeadSha.Exists 0 true])
            ++ reads).
    rewrite (HeadShaMore.resolution NODE_ENV _ _ _ _ _ _ _ _ _ _ Hd Hh Hin).
    unfold or_else. rewrite Hlt.
    pose proof (HeadShaMore.checkDone_loose NODE_ENV (VBool false)
                  (QArr [k]) gitDir gitCommands []
                  (HeadSha.Locals (VStr h) (VStr packed) (VStr loose))
                  [] sha Hht Hp Hlt Hl) as D.
    cbn [app length] in D. rewrite D. reflexivity.
  - reflexivity.
  - rewrite SafeFacts.first_call; auto. now apply (hash_line_version loose).
  - reflexivity.
Qed.

End Facts.

Lemma log_at_loose_head_witness :
  snd (HeadSha.run (E := RegExp.fragment) ""
         ([HeadSha.Call 1%nat; HeadSha.Exists 0 true]
          ++ Samples.reads 0 (VStr Samples.loose_text))
         (HeadSha.init "/srv/repo/.git" []))
  = [HeadSha.PathExists 0; HeadSha.ReadFile 0 HeadSha.PackedRefs;
     HeadSha.ReadFile 0 HeadSha.HEAD;
     HeadSha.ReadFile 0 (HeadSha.Ref "refs/heads/master");
     HeadSha.Callback 1%nat [VNull; VStr Samples.sha1];
     HeadSha.SetTimeout 100]
  /\ Log.log_k "README" 4%nat [VNull; VStr Samples.sha1]
     = Log.LogFile (VStr Samples.sha1) "README" 4%nat
  /\ snd (Safe.wrapper Samples.sha1 ["README"] 4%nat Safe.empty)
     = [Safe.Apply Samples.sha1 [Samples.sha1; "README"]]
  /\ Accessor.logFile Samples.sha1 "README"
     = Accessor.GitExec
         ["log"; "-z"; "--summary"; Samples.sha1; "--"; "README"]
         (VStr "utf8").
Proof.
  apply (log_at_loose_head "" (E := RegExp.fragment) "/srv/repo/.git" []
           1%nat Samples.packed_text Samples.head_text "refs/heads/master"
           VNull Samples.loose_text Samples.sha1
           (Samples.reads 0 (VStr Samples.loose_text)) "README" 4%nat
           Safe.empty);
    try (vm_compute; reflexivity).
  simpl. auto.
Defined.

End LogFacts.

(** ** A path that a commit does not have *)

Module MissingPath.
Import Accessor StrFacts.

(** X23.  Reading a file or listing a directory at a commit that does not
    have the path: [readFile] runs [git show] for [version:path], git
    exits with a nonzero status and says that the path does not exist in
    the commit, and the callback gets an error whose [errno] is
    [process.ENOENT]; [readDir], which reads through [readFile], hands
    the same error on unchanged. *)
Theorem missing_path_at_commit {K} workTree gitCommands version path encoding
    (k : K) n stdout before rest :
  Str.is_hash version = true ->
  path <> "" ->
  StrMore.all Str.not_quote path = true ->
  n <> 0%N ->
  let commands := ["show"; version +:+ ":" +:+ path] in
  let stderr :=
    [before +:+ "fatal: " +:+ "Path '" +:+ path +:+ "' does not exist in '"
     +:+ version +:+ "'" +:+ rest] in
  let err :=
    VError "Error" (Exec.message (gitCommands ++ commands) stderr)
      (Some Exec.process_ENOENT) in
  readFile workTree version [path; encoding]
    = Some (GitExec commands (VStr encoding))
  /\ Exec.close gitCommands commands (Exec.AVal (VStr encoding)) (Some k)
       (Some n) stdout stderr
     = Returned (k, [err])
  /\ readDir workTree version path = ReadFile version path "utf-8"
  /\ readDir_k [err] = Returned [err].
Proof.
  intros Hh Hne Hp Hn. cbv zeta.
  pose proof (is_hash_length _ Hh) as Hlen.
  split; [|split; [|split]].
  - unfold readFile. now rewrite Hlen.
  - apply ExecMore.marked_failure; [exact Hn|].
    now apply ExecMore.no_such_path_matches.
  - unfold readDir. now rewrite Hlen.
  - reflexivity.
Qed.

Lemma missing_path_at_commit_witness :
  let commands := ["show"; Samples.sha1 +:+ ":" +:+ "missing.txt"] in
  let stderr :=
    ["" +:+ "fatal: " +:+ "Path '" +:+ "missing.txt"
     +:+ "' does not exist in '" +:+ Samples.sha1 +:+ "'" +:+ Str.newline] in
  let err :=
    VError "Error" (Exec.message ([] ++ commands) stderr)
      (Some Exec.process_ENOENT) in
  readFile "/srv/repo" Samples.sha1 ["missing.txt"; "utf8"]
    = Some (GitExec commands (VStr "utf8"))
  /\ Exec.close [] commands (Exec.AVal (VStr "utf8")) (Some 7%nat)
       (Some 128%N) [] stderr
     = Returned (7%nat, [err])
  /\ readDir "/srv/repo" Samples.sha1 "missing.txt"
     = ReadFile Samples.sha1 "missing.txt" "utf-8"
  /\ readDir_k [err] = Returned [err].
Proof.
  apply (missing_path_at_commit (K := nat) "/srv/repo" [] Samples.sha1
           "missing.txt" "utf8" 7%nat 128%N [] "" Str.newline).
  - vm_compute. reflexivity.
  - discriminate.
  - vm_compute. reflexivity.
  - discriminate.
Defined.

End MissingPath.
